(** * Drop simulator: cache, markup parser and loot simulation

    A shallow embedding of [src/dropSimulator.js].

    Conventions of the embedding.
    - A JavaScript string is a [string] of code units below 256; the
      white-space class and the case mapping are the ECMAScript ones
      restricted to that range.
    - A JavaScript number is idealised: integers are [Z], fractions are
      exact rationals [Q], [NaN] is [None] where a function can produce it;
      only [Math.sqrt] needs real numbers.  The rounding of arithmetic is not
      modelled, and a division by zero, which yields [Infinity] or [NaN] in
      the source, is outside the model: the rarities of the parser and of
      the catalogue are positive.  The scan of the weighted lottery
      ([pickByWeight]) compares exact fractions, where the source's rounded
      sums can stop one drop earlier or later at the border of two shares;
      the statements about the lottery are about which drops it can return,
      not about where the borders lie.
    - [Math.random()] reads the next value of a stream [nat -> Q];
      [Date.now()] readings are arguments.
    - [parseInt] rounds: the integer written is converted to the nearest
      number ([toNumber]), so that a numeral above [2^53] can read as a
      neighbour of the integer it writes.  The statements about parsed
      numbers are for numerals up to [2^53] ([exactInteger]).
    - The object literal [loot] is the finite map of its own properties,
      read through the members that every object literal inherits from
      [Object.prototype] ([inherited]): a name that is no own property but
      an inherited member reads as that member, and [+] then builds a text
      ([LootValue]).
    - The object literal [rarityMap] is looked up in its own properties,
      which gives the numbers of [parseRarity]; for the two lower-case names
      of inherited members the source returns that member, and the
      statements about the value of a rarity leave these two texts out.
    - The [Map] used as cache is an insertion-ordered association list, as
      its iteration order decides evictions. *)

From Stdlib Require Import ZArith QArith Qround Qreals Reals Lia Lqa Lra Ascii String List Bool.
From Stdlib Require Import DecimalString DecimalPos.
From stdpp Require Import base option list gmap strings.

Import ListNotations.
Local Open Scope Z_scope.

(** ** Strings *)

Module Js.

(** Code units that [String.prototype.trim], [\s] and [parseInt] treat as
    white space: TAB, LF, VT, FF, CR, SPACE and NBSP. *)
Definition is_space (c : ascii) : bool :=
  let n := nat_of_ascii c in
  ((9 <=? n) && (n <=? 13) || (n =? 32) || (n =? 160))%nat.

Definition is_digit (c : ascii) : bool :=
  let n := nat_of_ascii c in ((48 <=? n) && (n <=? 57))%nat.

Definition is_upper (c : ascii) : bool :=
  let n := nat_of_ascii c in
  ((65 <=? n) && (n <=? 90) || (192 <=? n) && (n <=? 222) && negb (n =? 215))%nat.

Definition lower_char (c : ascii) : ascii :=
  if is_upper c then ascii_of_nat (nat_of_ascii c + 32) else c.

(** [s.toLowerCase()] *)
Fixpoint toLowerCase (s : string) : string :=
  match s with
  | EmptyString => EmptyString
  | String c s' => String (lower_char c) (toLowerCase s')
  end.

Fixpoint trimStart (s : string) : string :=
  match s with
  | String c s' => if is_space c then trimStart s' else s
  | EmptyString => EmptyString
  end.

(** Removes trailing white space: a character is kept when something that is
    kept follows it or when it is not white space. *)
Fixpoint trimEnd (s : string) : string :=
  match s with
  | EmptyString => EmptyString
  | String c s' =>
      match trimEnd s' with
      | EmptyString => if is_space c then EmptyString else String c EmptyString
      | t => String c t
      end
  end.

(** [s.trim()] *)
Definition trim (s : string) : string := trimEnd (trimStart s).

(** [s.startsWith(p)], returning what follows the prefix. *)
Fixpoint strip_prefix (p s : string) : option string :=
  match p, s with
  | EmptyString, _ => Some s
  | String a p', String b s' => if Ascii.eqb a b then strip_prefix p' s' else None
  | String _ _, EmptyString => None
  end.

(** [s.includes(sub)] *)
Fixpoint includes (s sub : string) : bool :=
  match strip_prefix sub s with
  | Some _ => true
  | None => match s with
            | String _ s' => includes s' sub
            | EmptyString => false
            end
  end.

(** [s.split(sep)] for a separator of one character; the result is never
    empty. *)
Fixpoint split (sep : ascii) (s : string) : list string :=
  match s with
  | EmptyString => [EmptyString]
  | String c s' =>
      if Ascii.eqb c sep then EmptyString :: split sep s'
      else match split sep s' with
           | p :: ps => String c p :: ps
           | [] => [String c EmptyString]
           end
  end.

(** *** [parseInt(s)] without a radix argument

    White space is skipped, a sign is read, a [0x]/[0X] prefix selects radix
    16, and the longest prefix of digits is converted to the nearest number;
    [None] is [NaN]. *)

(** The number nearest to the integer [n]: a number holds 53 significant
    bits, so an integer above [2^53] loses its last bits, and a tie goes to
    the even neighbour.  An integer of [2^1024] or more, which becomes an
    infinity, is outside the model. *)
Definition toNumber (n : Z) : Z :=
  let a := Z.abs n in
  let e := Z.log2 a - 52 in
  if e <=? 0 then n
  else
    let kept := Z.shiftr a e in
    let dropped := Z.land a (Z.ones e) in
    let half := Z.shiftl 1 (e - 1) in
    let up := (half <? dropped) || ((dropped =? half) && Z.odd kept) in
    Z.sgn n * Z.shiftl (if up then kept + 1 else kept) e.

Definition digit_value (c : ascii) : option Z :=
  let n := nat_of_ascii c in
  if ((48 <=? n) && (n <=? 57))%nat then Some (Z.of_nat n - 48)
  else if ((97 <=? n) && (n <=? 122))%nat then Some (Z.of_nat n - 87)
  else if ((65 <=? n) && (n <=? 90))%nat then Some (Z.of_nat n - 55)
  else None.

Definition radix_digit (radix : Z) (c : ascii) : option Z :=
  match digit_value c with
  | Some v => if v <? radix then Some v else None
  | None => None
  end.

Fixpoint parse_digits (radix : Z) (s : string) (acc : option Z) : option Z :=
  match s with
  | String c s' =>
      match radix_digit radix c with
      | Some v => parse_digits radix s' (Some (default 0 acc * radix + v))
      | None => acc
      end
  | EmptyString => acc
  end.

Definition parse_unsigned (s : string) : option Z :=
  toNumber <$>
    match s with
    | String c0 (String c1 s') =>
        if Ascii.eqb c0 "0" && (Ascii.eqb c1 "x" || Ascii.eqb c1 "X")
        then parse_digits 16 s' None
        else parse_digits 10 s None
    | _ => parse_digits 10 s None
    end.

Definition parseInt (s : string) : option Z :=
  match trimStart s with
  | String c s' =>
      if Ascii.eqb c "-" then Z.opp <$> parse_unsigned s'
      else if Ascii.eqb c "+" then parse_unsigned s'
      else parse_unsigned (String c s')
  | EmptyString => None
  end.

(** [parseInt(s) || d]: [NaN] and [0] are falsy. *)
Definition int_or (v : option Z) (d : Z) : Z :=
  match v with
  | Some 0 | None => d
  | Some n => n
  end.

End Js.

(** The first alternative that succeeds; the second one is evaluated only
    when the first has failed. *)
Notation "a 'or_else' b" :=
  (match a with Some x => Some x | None => b end)
  (at level 65, right associativity, only parsing).

(** ** Regular expressions

    The fragment of ECMAScript regular expressions that the parser uses, with
    the backtracking semantics of the language definition: a matcher takes
    the current state and a continuation, and the first alternative whose
    continuation succeeds wins. *)

Module Regex.

Inductive regex : Type :=
| Eps
| Chr (p : ascii -> bool)
| Cat (r1 r2 : regex)
| Alt (r1 r2 : regex)
| Star (greedy : bool) (r : regex)
| Group (i : nat) (r : regex).

(** What is left of the input, and the text of the capture groups ([""] for
    a group that has not matched). *)
Record mstate : Type := MState { rest : string; caps : nat -> string }.

Definition cont : Type := mstate -> option mstate.
Definition matcher : Type := mstate -> cont -> option mstate.

Definition no_caps : nat -> string := fun _ => EmptyString.

Definition set_cap (i : nat) (txt : string) (c : nat -> string) : nat -> string :=
  fun j => if Nat.eqb j i then txt else c j.

(** The text between two positions of the same input. *)
Definition consumed (before after : string) : string :=
  substring 0 (String.length before - String.length after) before.

(** [r*] and [r*?]: an iteration that consumes nothing is rejected, so
    the length of the input bounds the number of iterations. *)
Fixpoint star (greedy : bool) (m : matcher) (fuel : nat) (st : mstate) (k : cont)
  : option mstate :=
  match fuel with
  | O => k st
  | S f =>
      let again :=
        m st (fun st' =>
                if (String.length (rest st') <? String.length (rest st))%nat
                then star greedy m f st' k else None) in
      if greedy then again or_else k st else k st or_else again
  end.

Fixpoint run (r : regex) (st : mstate) (k : cont) : option mstate :=
  match r with
  | Eps => k st
  | Chr p =>
      match rest st with
      | String c s' => if p c then k (MState s' (caps st)) else None
      | EmptyString => None
      end
  | Cat r1 r2 => run r1 st (fun st' => run r2 st' k)
  | Alt r1 r2 => run r1 st k or_else run r2 st k
  | Star g r' => star g (run r') (String.length (rest st)) st k
  | Group i r' =>
      run r' st (fun st' =>
                   k (MState (rest st')
                        (set_cap i (consumed (rest st) (rest st')) (caps st'))))
  end.

(** The leftmost match: the text before it and the state after it. *)
Fixpoint search (r : regex) (s : string) : option (string * mstate) :=
  match run r (MState s no_caps) Some with
  | Some st => Some (EmptyString, st)
  | None =>
      match s with
      | String c s' =>
          match search r s' with
          | Some (pre, st) => Some (String c pre, st)
          | None => None
          end
      | EmptyString => None
      end
  end.

(** [s.match(r)] for a regular expression without the [g] flag. *)
Definition match_ (r : regex) (s : string) : option (nat -> string) :=
  match search r s with
  | Some (_, st) => Some (caps st)
  | None => None
  end.

(** [while ((m = r.exec(s)) !== null)] for a regular expression with the [g]
    flag, starting at [lastIndex = 0]: the captures of the successive
    matches.  Every match of the patterns below consumes input, which bounds
    their number; an empty match would make the source loop forever and ends
    the list here. *)
Fixpoint exec_loop (fuel : nat) (r : regex) (s : string) : list (nat -> string) :=
  match fuel with
  | O => []
  | S f =>
      match search r s with
      | Some (_, st) =>
          if (String.length (rest st) <? String.length s)%nat
          then caps st :: exec_loop f r (rest st)
          else [caps st]
      | None => []
      end
  end.

Definition exec_all (r : regex) (s : string) : list (nat -> string) :=
  exec_loop (S (String.length s)) r s.

(** [s.replace(r, '')] for a regular expression with the [g] flag. *)
Fixpoint remove_loop (fuel : nat) (r : regex) (s : string) : string :=
  match fuel with
  | O => s
  | S f =>
      match search r s with
      | Some (pre, st) =>
          if (String.length (rest st) <? String.length s)%nat
          then pre +:+ remove_loop f r (rest st)
          else s
      | None => s
      end
  end.

Definition remove_all (r : regex) (s : string) : string :=
  remove_loop (S (String.length s)) r s.

(** *** Notation of the patterns *)

Fixpoint mem (c : ascii) (s : string) : bool :=
  match s with
  | EmptyString => false
  | String a s' => Ascii.eqb c a || mem c s'
  end.

Fixpoint seq (rs : list regex) : regex :=
  match rs with
  | [] => Eps
  | [r] => r
  | r :: rs' => Cat r (seq rs')
  end.

(** A literal, and a literal under the [i] flag. *)
Fixpoint lit (s : string) : regex :=
  match s with
  | EmptyString => Eps
  | String c EmptyString => Chr (Ascii.eqb c)
  | String c s' => Cat (Chr (Ascii.eqb c)) (lit s')
  end.

Definition same_letter (c x : ascii) : bool :=
  Ascii.eqb (Js.lower_char x) (Js.lower_char c).

Fixpoint liti (s : string) : regex :=
  match s with
  | EmptyString => Eps
  | String c EmptyString => Chr (same_letter c)
  | String c s' => Cat (Chr (same_letter c)) (liti s')
  end.

Definition plus (r : regex) : regex := Cat r (Star true r).   (* r+ *)
Definition many (r : regex) : regex := Star true r.            (* r* *)
Definition few (r : regex) : regex := Star false r.            (* r*? *)
Definition opt (r : regex) : regex := Alt r Eps.               (* r? *)

Definition none_of (s : string) : regex := Chr (fun c => negb (mem c s)).  (* [^...] *)
Definition space : regex := Chr Js.is_space.                               (* \s *)
Definition digit : regex := Chr Js.is_digit.                               (* \d *)
Definition any : regex := Chr (fun _ => true).                             (* [\s\S] *)
Definition dot : regex := none_of (String "010" (String "013" EmptyString)).   (* . *)
Definition digit_or_slash : regex :=
  Chr (fun c => Js.is_digit c || Ascii.eqb c "/").                         (* [\d/] *)

End Regex.

(** ** The patterns of [parseDropTables] and [parseQuantity] *)

Module Patterns.
Import Regex.

(* /{{DropsLine\|name=([^|]+)\|quantity=([^|]+)\|rarity=([^|}]+)[^}]*}}/g *)
Definition dropsLine : regex :=
  seq [lit "{{DropsLine|name="; Group 1 (plus (none_of "|"));
       lit "|quantity="; Group 2 (plus (none_of "|"));
       lit "|rarity="; Group 3 (plus (none_of "|}"));
       many (none_of "}"); lit "}}"].

(* /''There is a ([\d/]+) chance of hitting the unique drop table/i *)
Definition uniqueTable : regex :=
  seq [liti "''There is a "; Group 1 (plus digit_or_slash);
       liti " chance of hitting the unique drop table"].

(* /unique drop table.*?([\d/]+)/i *)
Definition uniqueTableAlt : regex :=
  seq [liti "unique drop table"; few dot; Group 1 (plus digit_or_slash)].

(* /main drop table.*?(\d+) times?/i *)
Definition mainTableRolls : regex :=
  seq [liti "main drop table"; few dot; Group 1 (plus digit);
       liti " time"; opt (liti "s")].

(* /===Tertiary===([\s\S]*?)(?:===|{{DropsTableBottom}})/ *)
Definition tertiarySection : regex :=
  seq [lit "===Tertiary==="; Group 1 (few any);
       Alt (lit "===") (lit "{{DropsTableBottom}}")].

(* /===100%===([\s\S]*?)(?:===|{{DropsTableBottom}})/ *)
Definition alwaysSection : regex :=
  seq [lit "===100%==="; Group 1 (few any);
       Alt (lit "===") (lit "{{DropsTableBottom}}")].

(* /===Uniques===([\s\S]*?)(?:===|{{DropsTableBottom}})/ *)
Definition uniquesSection : regex :=
  seq [lit "===Uniques==="; Group 1 (few any);
       Alt (lit "===") (lit "{{DropsTableBottom}}")].

(* /{{drops\s*line\|([^|}]+)\|([^|}]+)\|([^|}]+)[^}]*}}/gi *)
Definition dropsLineAlt1 : regex :=
  seq [liti "{{drops"; many space; liti "line|";
       Group 1 (plus (none_of "|}")); lit "|";
       Group 2 (plus (none_of "|}")); lit "|";
       Group 3 (plus (none_of "|}"));
       many (none_of "}"); lit "}}"].

(* /{{drop\|item=([^|]+)\|quantity=([^|]+)\|rarity=([^|}]+)[^}]*}}/gi *)
Definition dropsLineAlt2 : regex :=
  seq [liti "{{drop|item="; Group 1 (plus (none_of "|"));
       liti "|quantity="; Group 2 (plus (none_of "|"));
       liti "|rarity="; Group 3 (plus (none_of "|}"));
       many (none_of "}"); lit "}}"].

(* /\|\s*([^|]+)\s*\|\|\s*([^|]+)\s*\|\|\s*([^|]+)/g *)
Definition dropsLineAlt3 : regex :=
  seq [lit "|"; many space; Group 1 (plus (none_of "|")); many space;
       lit "||"; many space; Group 2 (plus (none_of "|")); many space;
       lit "||"; many space; Group 3 (plus (none_of "|"))].

(** The end of a section in the alternative section patterns:
    [([\s\S]*?)(?:===|{{)]. *)
Definition sectionBody : list regex :=
  [Group 1 (few any); Alt (lit "===") (lit "{{")].

(* /===\s*Always\s*===([\s\S]*?)(?:===|{{)/i *)
Definition alwaysSectionAlt1 : regex :=
  seq ([lit "==="; many space; liti "Always"; many space; lit "==="]
         ++ sectionBody).

(* /===\s*100\s*%\s*===([\s\S]*?)(?:===|{{)/i *)
Definition alwaysSectionAlt2 : regex :=
  seq ([lit "==="; many space; lit "100"; many space; lit "%"; many space;
        lit "==="] ++ sectionBody).

(* /===\s*Rare\s*drop\s*table\s*===([\s\S]*?)(?:===|{{)/i *)
Definition uniquesSectionAlt1 : regex :=
  seq ([lit "==="; many space; liti "Rare"; many space; liti "drop";
        many space; liti "table"; many space; lit "==="] ++ sectionBody).

(* /===\s*Unique\s*drops?\s*===([\s\S]*?)(?:===|{{)/i *)
Definition uniquesSectionAlt2 : regex :=
  seq ([lit "==="; many space; liti "Unique"; many space; liti "drop";
        opt (liti "s"); many space; lit "==="] ++ sectionBody).

(* /===\s*Tertiary\s*drops?\s*===([\s\S]*?)(?:===|{{)/i *)
Definition tertiarySectionAlt1 : regex :=
  seq ([lit "==="; many space; liti "Tertiary"; many space; liti "drop";
        opt (liti "s"); many space; lit "==="] ++ sectionBody).

(* /(\d+\/\d+).*?chance.*?unique/i *)
Definition uniqueTableAlt2 : regex :=
  seq [Group 1 (seq [plus digit; lit "/"; plus digit]); few dot;
       liti "chance"; few dot; liti "unique"].

(* /unique.*?(\d+\/\d+)/i *)
Definition uniqueTableAlt3 : regex :=
  seq [liti "unique"; few dot; Group 1 (seq [plus digit; lit "/"; plus digit])].

(* /\s*\([^)]+\)/g, the notes that parseQuantity removes *)
Definition note : regex :=
  seq [many space; lit "("; plus (none_of ")"); lit ")"].

End Patterns.

(** ** Data model *)

Record Quantity : Type := { min : Z; max : Z }.

Record Drop : Type := {
  item : string;
  quantity : Quantity;
  rarity : Q;
  rarityText : string
}.

(** The field [uniqueTableRate] of the source is always [null] and never
    read; it is left out. [uniqueTableChance = null] is [None]. *)
Record DropTable : Type := {
  name : string;
  mainTableRolls : Z;
  uniqueTableChance : option Q;
  always : list Drop;
  uniques : list Drop;
  main : list Drop;
  tertiary : list Drop
}.

Definition is_empty (s : string) : bool :=
  match s with
  | EmptyString => true
  | String _ _ => false
  end.

Definition one : Quantity := {| min := 1; max := 1 |}.

(** ** Quantity and rarity normalisation *)

Definition parseQuantity (quantityStr : string) : Quantity :=
  if is_empty quantityStr then one
  else
    (* Remove notes like "(noted)" *)
    let cleaned := Js.trim (Regex.remove_all Patterns.note quantityStr) in
    if is_empty cleaned then one
    else
      let single :=
        let qty := Js.int_or (Js.parseInt cleaned) 1 in
        {| min := qty; max := qty |} in
      if Js.includes cleaned "-" then
        match Js.split "-" cleaned with
        | part0 :: part1 :: _ =>
            let min := Js.int_or (Js.parseInt part0) 1 in
            let max := Js.int_or (Js.parseInt part1) min in
            {| min := Z.min min max; max := Z.max min max |}
        | _ => single
        end
      else single.

(** The own properties of the object literal [rarityMap]. *)
Definition rarityMap : gmap string Q :=
  list_to_map
    [("always", 1%Q); ("common", 8%Q); ("uncommon", 32%Q); ("rare", 128%Q);
     ("very rare", 512%Q); ("very_rare", 512%Q)].

(** The rarity as a number.  The last step, [rarityMap[lowerRarity] || 128],
    is the look-up among the own properties: for the keys [constructor] and
    [__proto__], the two lower-case names of members that [rarityMap]
    inherits from [Object.prototype], the source returns that member, which
    is no number, where this function gives 128; the statements about
    rarities leave texts with [inherited] keys out. *)
Definition parseRarity (rarityStr : string) : Q :=
  if is_empty rarityStr then 128%Q   (* Default rare *)
  else
    let cleaned := Js.trim rarityStr in
    let fraction :=
      (* Handle fraction format (e.g., "1/512", "5/130") *)
      if Js.includes cleaned "/" then
        match Js.split "/" cleaned with
        | part0 :: part1 :: _ =>
            let numerator := Js.int_or (Js.parseInt part0) 1 in
            let denominator := Js.int_or (Js.parseInt part1) 1 in
            if (0 <? denominator) && (0 <? numerator)
            then Some (inject_Z denominator / inject_Z numerator)%Q
            else None
        | _ => None
        end
      else None in
    match fraction with
    | Some r => r
    | None =>
        (* Handle pure numbers *)
        match Js.parseInt cleaned with
        | Some numericValue =>
            if 0 <? numericValue then inject_Z numericValue
            else default 128%Q (rarityMap !! Js.toLowerCase cleaned)
        | None =>
            (* Handle text rarities (case insensitive) *)
            default 128%Q (rarityMap !! Js.toLowerCase cleaned)
        end
    end.

(** ** Fallback catalogue *)

Definition drop (i : string) (lo hi : Z) (r : Q) (txt : string) : Drop :=
  {| item := i; quantity := {| min := lo; max := hi |}; rarity := r;
     rarityText := txt |}.

(** Hardcoded Cerberus drops *)
Definition getCerberusHardcodedDrops : DropTable := {|
  name := "Cerberus";
  mainTableRolls := 2;
  uniqueTableChance := Some (1 / 130)%Q;
  always := [drop "Infernal ashes" 1 1 1 "Always"];
  uniques :=
    [drop "Primordial crystal" 1 1 520 "1/520";
     drop "Pegasian crystal" 1 1 520 "1/520";
     drop "Eternal crystal" 1 1 520 "1/520";
     drop "Smouldering stone" 1 1 520 "1/520"];
  main :=
    [drop "Rune platebody" 1 1 26 "5/130";
     drop "Rune chainbody" 1 1 32.5 "4/130";
     drop "Rune 2h sword" 1 1 32.5 "4/130";
     drop "Black d'hide body" 1 1 43.33 "3/130";
     drop "Rune axe" 1 1 43.33 "3/130";
     drop "Rune pickaxe" 1 1 43.33 "3/130";
     drop "Battlestaff" 6 6 43.33 "3/130";
     drop "Rune full helm" 1 1 43.33 "3/130";
     drop "Lava battlestaff" 1 1 65 "2/130";
     drop "Rune halberd" 1 1 65 "2/130";
     drop "Fire rune" 300 300 21.67 "6/130";
     drop "Soul rune" 100 100 21.67 "6/130";
     drop "Pure essence" 300 300 26 "5/130";
     drop "Blood rune" 60 60 32.5 "4/130";
     drop "Cannonball" 50 50 32.5 "4/130";
     drop "Runite bolts (unf)" 40 40 32.5 "4/130";
     drop "Death rune" 100 100 43.33 "3/130";
     drop "Coal" 120 120 21.67 "6/130";
     drop "Super restore(4)" 2 2 21.67 "6/130";
     drop "Summer pie" 3 3 21.67 "6/130";
     drop "Coins" 10000 20000 26 "5/130";
     drop "Dragon bones" 20 20 26 "5/130";
     drop "Unholy symbol" 1 1 26 "5/130";
     drop "Wine of zamorak" 15 15 26 "5/130";
     drop "Ashes" 50 50 32.5 "4/130";
     drop "Fire orb" 20 20 32.5 "4/130";
     drop "Grimy torstol" 6 6 32.5 "4/130";
     drop "Runite ore" 5 5 43.33 "3/130";
     drop "Uncut diamond" 5 5 43.33 "3/130";
     drop "Torstol seed" 3 3 65 "2/130";
     drop "Ranarr seed" 2 2 65 "2/130";
     drop "Key master teleport" 7 7 65 "2/130"];
  tertiary :=
    [drop "Ensouled hellhound head" 1 1 15 "1/15";
     drop "Clue scroll (elite)" 1 1 100 "1/100";
     drop "Jar of souls" 1 1 2000 "1/2000";
     drop "Hellpuppy" 1 1 3000 "1/3000"]
|}.

Definition kingBlackDragonDrops : DropTable := {|
  name := "King Black Dragon";
  mainTableRolls := 1;
  uniqueTableChance := None;
  always := [drop "Dragon bones" 1 1 1 "Always"];
  uniques :=
    [drop "Dragon pickaxe" 1 1 1500 "1/1500";
     drop "Kbd heads" 1 1 128 "1/128"];
  main :=
    [drop "Coins" 1000 6000 4 "Common";
     drop "Adamant platebody" 1 1 64 "Uncommon";
     drop "Rune longsword" 1 1 64 "Uncommon"];
  tertiary := [drop "Clue scroll (elite)" 1 1 450 "1/450"]
|}.

(** Fallback drop data for common monsters; [None] is [null]. *)
Definition getFallbackDropData (monsterName : string) : option DropTable :=
  let name := Js.toLowerCase monsterName in
  if Js.includes name "cerberus" then Some getCerberusHardcodedDrops
  else if Js.includes name "kbd" || Js.includes name "king black dragon"
       then Some kingBlackDragonDrops
  else None.

(** ** Markup parser

    The arrays that the source fills in place are passed and returned. *)

(** The entry pushed for a match of the primary line pattern. *)
Definition lineDrop (m : nat -> string) : Drop :=
  {| item := m 1%nat;
     quantity := parseQuantity (m 2%nat);
     rarity := parseRarity (m 3%nat);
     rarityText := m 3%nat |}.

(** The entries pushed for the matches of an alternative line pattern. *)
Definition altDrops (ms : list (nat -> string)) : list Drop :=
  flat_map
    (fun m =>
       let itemName := m 1%nat in
       let rarity := m 3%nat in
       if negb (is_empty itemName) && negb (is_empty (Js.trim itemName))
          && negb (Js.includes itemName "=")
       then [{| item := Js.trim itemName;
                quantity := parseQuantity (m 2%nat);
                rarity := parseRarity rarity;
                rarityText := if is_empty rarity then "Unknown" else rarity |}]
       else [])
    ms.

Fixpoint tryPatterns (altPatterns : list Regex.regex) (content : string)
    (targetArray : list Drop) : list Drop :=
  match altPatterns with
  | [] => targetArray
  | pattern :: others =>
      let targetArray :=
        targetArray ++ altDrops (Regex.exec_all pattern content) in
      (* Stop if we found items *)
      if (0 <? length targetArray)%nat then targetArray
      else tryPatterns others content targetArray
  end.

Definition tryAlternativeParsing (content : string) (targetArray : list Drop)
  : list Drop :=
  tryPatterns
    [Patterns.dropsLineAlt1; Patterns.dropsLineAlt2; Patterns.dropsLineAlt3]
    content targetArray.

Definition parseSection (sectionContent : string) (targetArray : list Drop)
  : list Drop :=
  if is_empty sectionContent then targetArray
  else
    (* Try primary pattern first *)
    let found := map lineDrop (Regex.exec_all Patterns.dropsLine sectionContent) in
    let targetArray := targetArray ++ found in
    (* If no items found, try alternative patterns *)
    if (length found =? 0)%nat
    then tryAlternativeParsing sectionContent targetArray
    else targetArray.

(** [arr.some(d => d.item === itemName)] *)
Definition has_item (arr : list Drop) (itemName : string) : bool :=
  existsb (fun d => String.eqb (item d) itemName) arr.

Definition in_other_tables (always uniques tertiary : list Drop)
    (itemName : string) : bool :=
  has_item always itemName || has_item uniques itemName
  || has_item tertiary itemName.

(** Returns the new value of [drops.main]. *)
Definition parseMainDropTable (wikiContent : string)
    (always uniques main tertiary : list Drop) : list Drop :=
  (* Try primary pattern first; skip if already in other tables *)
  let found :=
    List.filter (fun d => negb (in_other_tables always uniques tertiary (item d)))
      (map lineDrop (Regex.exec_all Patterns.dropsLine wikiContent)) in
  let main := main ++ found in
  (* If no main drops found, try alternative patterns *)
  if (length found =? 0)%nat then
    let main := tryAlternativeParsing wikiContent main in
    (* Filter out items that are in other sections *)
    List.filter (fun d => negb (in_other_tables always uniques tertiary (item d))) main
  else main.

(** [s.match(p1) || s.match(p2) || ...] *)
Fixpoint firstMatch (ps : list Regex.regex) (s : string)
  : option (nat -> string) :=
  match ps with
  | [] => None
  | p :: ps' => Regex.match_ p s or_else firstMatch ps' s
  end.

Definition sectionDrops (ps : list Regex.regex) (wikiContent : string)
  : list Drop :=
  match firstMatch ps wikiContent with
  | Some m => parseSection (m 1%nat) []
  | None => []
  end.

(** The rate [num/denom] read from the text about the unique table. *)
Definition parseUniqueTableChance (wikiContent : string) : option Q :=
  match firstMatch [Patterns.uniqueTable; Patterns.uniqueTableAlt;
                    Patterns.uniqueTableAlt2; Patterns.uniqueTableAlt3]
          wikiContent with
  | Some m =>
      let rateStr := m 1%nat in
      if negb (is_empty rateStr) && Js.includes rateStr "/" then
        match map Js.parseInt (Js.split "/" rateStr) with
        | Some num :: Some denom :: _ =>
            if (0 <? num) && (0 <? denom)
            then Some (inject_Z num / inject_Z denom)%Q else None
        | _ => None
        end
      else None
  | None => None
  end.

Definition parseMainTableRolls (wikiContent : string) : Z :=
  match Regex.match_ Patterns.mainTableRolls wikiContent with
  | Some m => Js.int_or (Js.parseInt (m 1%nat)) 1
  | None => 1   (* Default 1 roll per kill *)
  end.

Definition all_empty (ls : list (list Drop)) : bool :=
  forallb (fun l => (length l =? 0)%nat) ls.

Definition parseDropTables (wikiContent monsterName : string) : DropTable :=
  (* Parse always drops (100%) - try multiple patterns *)
  let always :=
    sectionDrops [Patterns.alwaysSection; Patterns.alwaysSectionAlt1;
                  Patterns.alwaysSectionAlt2] wikiContent in
  (* Parse unique drops - try multiple patterns *)
  let uniques :=
    sectionDrops [Patterns.uniquesSection; Patterns.uniquesSectionAlt1;
                  Patterns.uniquesSectionAlt2] wikiContent in
  (* Parse tertiary drops - try multiple patterns *)
  let tertiary :=
    sectionDrops [Patterns.tertiarySection; Patterns.tertiarySectionAlt1]
      wikiContent in
  (* Parse unique table mechanics and main table roll count *)
  let uniqueTableChance := parseUniqueTableChance wikiContent in
  let mainTableRolls := parseMainTableRolls wikiContent in
  (* Set defaults based on monster type *)
  let cerberus := Js.includes (Js.toLowerCase monsterName) "cerberus" in
  let mainTableRolls := if cerberus then 2 else mainTableRolls in
  let uniqueTableChance :=
    if cerberus then
      match uniqueTableChance with
      | Some c => if Qeq_bool c 0 then Some (1 / 130)%Q else Some c
      | None => Some (1 / 130)%Q
      end
    else uniqueTableChance in
  (* Parse main drop table (everything else) *)
  let main := parseMainDropTable wikiContent always uniques [] tertiary in
  let drops :=
    {| name := monsterName; mainTableRolls := mainTableRolls;
       uniqueTableChance := uniqueTableChance; always := always;
       uniques := uniques; main := main; tertiary := tertiary |} in
  (* If no drops found, try fallback data for the specific monster *)
  if all_empty [always; main; uniques] then
    match getFallbackDropData monsterName with
    | Some fallbackData => fallbackData
    | None => drops
    end
  else drops.

(** ** Simulation engine *)

(** A notable drop event, [{item, killNumber, rarity}]. *)
Module UniqueDrop.
Record t : Type := { item : string; killNumber : Z; rarity : string }.
End UniqueDrop.

(** The names of the members that the object literal [{}] inherits from
    [Object.prototype]. *)
Definition inheritedNames : list string :=
  ["constructor"; "__defineGetter__"; "__defineSetter__"; "hasOwnProperty";
   "__lookupGetter__"; "__lookupSetter__"; "isPrototypeOf";
   "propertyIsEnumerable"; "toString"; "valueOf"; "__proto__";
   "toLocaleString"].

Definition inherited (key : string) : bool :=
  existsb (String.eqb key) inheritedNames.

(** A value of a property of [loot]: a number, or the text that [+] builds
    when [loot[item]] reads an inherited member: the text of the function
    [member] of [Object.prototype] followed by the quantities [appended],
    each as [String] prints it, in this order. *)
Inductive LootValue : Type :=
| Count (n : Z)
| Text (member : string) (appended : list Z).

(** [{monsterName, killCount, loot, uniqueDrops}] *)
Module Result.
Record t : Type := {
  monsterName : string;
  killCount : Z;
  loot : gmap string LootValue;
  uniqueDrops : list UniqueDrop.t
}.
End Result.

(** What a simulation has accumulated, and how many values of the random
    stream it has read. *)
Record SimState : Type := {
  loot : gmap string LootValue;
  uniqueDrops : list UniqueDrop.t;
  draws : nat
}.

Definition Sim (A : Type) : Type := SimState -> A * SimState.

Definition ret {A} (a : A) : Sim A := fun st => (a, st).

Definition bind {A B} (m : Sim A) (f : A -> Sim B) : Sim B :=
  fun st => let (a, st') := m st in f a st'.

Notation "x <- m ;; k" := (bind m (fun x => k))
  (at level 90, m at next level, right associativity).
Notation "m ;;; k" := (bind m (fun _ => k))
  (at level 90, right associativity).

(** [arr.forEach(body)] *)
Fixpoint forEach {A} (arr : list A) (body : A -> Sim unit) : Sim unit :=
  match arr with
  | [] => ret tt
  | x :: arr' => body x ;;; forEach arr' body
  end.

(** [for (let i = from; i < from + n; i++) body(i)] *)
Fixpoint forLoop (n : nat) (from : Z) (body : Z -> Sim unit) : Sim unit :=
  match n with
  | O => ret tt
  | S n' => body from ;;; forLoop n' (from + 1) body
  end.

Definition when (b : bool) (m : Sim unit) : Sim unit :=
  if b then m else ret tt.

(** [Math.floor] and [Math.round] (halves go up) on exact fractions. *)
Definition Math_floor (x : Q) : Z := Qfloor x.
Definition Math_round (x : Q) : Z := Qfloor (x + (1 # 2))%Q.

(** [a < b] and [a <= b] on numbers. *)
Definition Qltb (a b : Q) : bool := negb (Qle_bool b a).

(** [arr[i]] for a number [i]; [None] is [undefined]. *)
Definition at_index {A} (arr : list A) (i : Z) : option A :=
  if i <? 0 then None else nth_error arr (Z.to_nat i).

(** The weight of a drop in the main-table lottery. *)
Definition dropWeight (d : Drop) : Q :=
  if Js.includes (rarityText d) "/" then
    (* For fractional rarities like "5/130", weight is the numerator *)
    inject_Z (Js.int_or (Js.parseInt (hd EmptyString (Js.split "/" (rarityText d)))) 1)
  else
    (* For numeric rarities, weight is inverse of rarity *)
    (1000 / rarity d)%Q.

Definition totalWeightOf (dropsWithWeights : list (Drop * Q)) : Q :=
  fold_left (fun sum item => (sum + snd item)%Q) dropsWithWeights 0%Q.

(** The scan of [selectWeightedDrop]: subtract each weight in turn and stop
    at the first drop that brings the remainder to zero or below. *)
Fixpoint pickByWeight (dropsWithWeights : list (Drop * Q)) (random : Q)
  : option Drop :=
  match dropsWithWeights with
  | [] => None
  | (d, weight) :: others =>
      let random := (random - weight)%Q in
      if Qle_bool random 0 then Some d else pickByWeight others random
  end.

(** The properties of [loot] after [loot[item] = (loot[item] || 0) + quantity].
    - An own property is read first: a number [n] (also 0, which [||]
      replaces by 0) becomes [n + quantity], a text is truthy and [+]
      appends [quantity] to it.
    - Without own property, [loot["__proto__"]] reads the prototype object;
      the sum is a text, and the assignment of a text to [__proto__] is
      ignored: [loot] is as before.
    - Without own property, the name of another inherited member reads as
      that function, which is truthy; [+] turns it into its text followed
      by [quantity], and the assignment creates the own property.
    - Any other name reads as [undefined], replaced by 0. *)
Definition credit (item : string) (quantity : Z) (l : gmap string LootValue)
  : gmap string LootValue :=
  match l !! item with
  | Some (Count n) => <[item := Count (n + quantity)]> l
  | Some (Text member appended) =>
      <[item := Text member (appended ++ [quantity])]> l
  | None =>
      if String.eqb item "__proto__" then l
      else if inherited item then <[item := Text item [quantity]]> l
      else <[item := Count (0 + quantity)]> l
  end.

Section Engine.

(** The values that successive calls of [Math.random()] return. *)
Variable rng : nat -> Q.

Definition Math_random : Sim Q :=
  fun st =>
    (rng (draws st),
     {| loot := loot st; uniqueDrops := uniqueDrops st; draws := S (draws st) |}).

Definition getRandomQuantity (quantity : Quantity) : Sim Z :=
  if min quantity =? max quantity then ret (min quantity)
  else
    u <- Math_random ;;
    ret (Math_floor (u * inject_Z (max quantity - min quantity + 1)) + min quantity).

(** [loot[item] = (loot[item] || 0) + quantity] *)
Definition addToLoot (item : string) (quantity : Z) : Sim unit :=
  fun st =>
    (tt,
     {| loot := credit item quantity (loot st);
        uniqueDrops := uniqueDrops st; draws := draws st |}).

(** [uniqueDrops.push({item, killNumber, rarity})] *)
Definition pushUnique (d : Drop) (killNumber : Z) : Sim unit :=
  fun st =>
    (tt,
     {| loot := loot st;
        uniqueDrops :=
          uniqueDrops st ++
          [{| UniqueDrop.item := item d; UniqueDrop.killNumber := killNumber;
              UniqueDrop.rarity := rarityText d |}];
        draws := draws st |}).

(** [None] is [null]. *)
Definition selectWeightedDrop (drops : list Drop) : Sim (option Drop) :=
  match drops with
  | [] => ret None
  | [d] => ret (Some d)
  | first :: _ =>
      let dropsWithWeights := map (fun d => (d, dropWeight d)) drops in
      let totalWeight := totalWeightOf dropsWithWeights in
      if Qeq_bool totalWeight 0 then ret (Some first)   (* Safety fallback *)
      else
        u <- Math_random ;;
        match pickByWeight dropsWithWeights (u * totalWeight) with
        | Some d => ret (Some d)
        | None => ret (last drops)   (* Should never reach here *)
        end
  end.

(** [dropData.mainTableRolls || 1] *)
Definition rollCountOf (dropData : DropTable) : Z :=
  if mainTableRolls dropData =? 0 then 1 else mainTableRolls dropData.

(** [dropData.uniqueTableChance && dropData.uniques.length > 0]: the chance
    when the unique table is rolled as a whole. *)
Definition sharedUniqueChance (dropData : DropTable) : option Q :=
  match uniqueTableChance dropData with
  | Some chance =>
      if negb (Qeq_bool chance 0) && (0 <? length (uniques dropData))%nat
      then Some chance else None
  | None => None
  end.

(** One roll of the unique table, in both modes. *)
Definition rollUniqueTable (dropData : DropTable) (chance : Q) (killNumber : Z)
  : Sim unit :=
  u <- Math_random ;;
  when (Qltb u chance)
    ((* Equal chance for each unique *)
     v <- Math_random ;;
     match at_index (uniques dropData)
             (Math_floor (v * inject_Z (Z.of_nat (length (uniques dropData))))) with
     | Some uniqueDrop =>
         qty <- getRandomQuantity (quantity uniqueDrop) ;;
         addToLoot (item uniqueDrop) qty ;;;
         pushUnique uniqueDrop killNumber
     | None => ret tt
     end).

(** The four steps of a kill in [runSimulation]. *)

(* Always drops (100%) *)
Definition alwaysDrops (dropData : DropTable) : Sim unit :=
  forEach (always dropData) (fun drop =>
    qty <- getRandomQuantity (quantity drop) ;;
    addToLoot (item drop) qty).

(* Main drop table (dynamic number of rolls) *)
Definition mainRolls (dropData : DropTable) : Sim unit :=
  forLoop (Z.to_nat (rollCountOf dropData)) 0 (fun _ =>
    (* Pick one drop from main table based on weights *)
    mainDrop <- selectWeightedDrop (main dropData) ;;
    match mainDrop with
    | Some mainDrop =>
        qty <- getRandomQuantity (quantity mainDrop) ;;
        addToLoot (item mainDrop) qty
    | None => ret tt
    end).

(* Unique drops (dynamic rate based on monster) *)
Definition uniqueRolls (dropData : DropTable) (killNumber : Z) : Sim unit :=
  match sharedUniqueChance dropData with
  | Some chance => rollUniqueTable dropData chance killNumber
  | None =>
      (* Handle individual unique drops with their own rates *)
      forEach (uniques dropData) (fun uniqueDrop =>
        u <- Math_random ;;
        when (Qltb u (1 / rarity uniqueDrop))
          (qty <- getRandomQuantity (quantity uniqueDrop) ;;
           addToLoot (item uniqueDrop) qty ;;;
           pushUnique uniqueDrop killNumber))
  end.

(* Tertiary drops (independent rolls) *)
Definition tertiaryRolls (dropData : DropTable) (killNumber : Z) : Sim unit :=
  forEach (tertiary dropData) (fun drop =>
    u <- Math_random ;;
    when (Qltb u (1 / rarity drop))
      (qty <- getRandomQuantity (quantity drop) ;;
       addToLoot (item drop) qty ;;;
       (* Track rare tertiary drops *)
       when (Qle_bool 1000 (rarity drop)) (pushUnique drop killNumber))).

(** The body of the per-kill loop of [runSimulation]. *)
Definition simulateKill (dropData : DropTable) (i : Z) : Sim unit :=
  let killNumber := i + 1 in
  alwaysDrops dropData ;;;
  mainRolls dropData ;;;
  uniqueRolls dropData killNumber ;;;
  tertiaryRolls dropData killNumber.

(** *** Approximated mode *)

(** [Math.round] on a real number. *)
Definition Math_round_R (x : R) : Z := Int_part (x + / 2)%R.

(** [expectedDrops + (Math.random() - 0.5) * Math.sqrt(expectedDrops)] for
    the draw [u], and its rounding [actualDrops]. *)
Definition jitterArg (expectedDrops u : Q) : R :=
  (Q2R expectedDrops + (Q2R u - 1 / 2) * sqrt (Q2R expectedDrops))%R.

Definition jitter (expectedDrops u : Q) : Z :=
  Math_round_R (jitterArg expectedDrops u).

(** [(quantity.min + quantity.max) / 2] *)
Definition avgQuantity (q : Quantity) : Q := (inject_Z (min q + max q) / 2)%Q.

(** A kill number picked at random in [1, killCount]. *)
Definition randomKillNumber (killCount : Z) : Sim Z :=
  v <- Math_random ;;
  ret (Math_floor (v * inject_Z killCount) + 1).

(** The four steps of [runOptimizedSimulation]. *)

(* Always drops - these happen every kill *)
Definition approxAlways (dropData : DropTable) (killCount : Z) : Sim unit :=
  forEach (always dropData) (fun drop =>
    let totalQuantity :=
      Math_round (avgQuantity (quantity drop) * inject_Z killCount) in
    addToLoot (item drop) totalQuantity).

(* Main drop table - use statistical approximation *)
Definition approxMain (dropData : DropTable) (killCount : Z) : Sim unit :=
  let totalMainRolls := killCount * rollCountOf dropData in
  when (0 <? length (main dropData))%nat
    (let dropsWithWeights := map (fun d => (d, dropWeight d)) (main dropData) in
     let totalWeight := totalWeightOf dropsWithWeights in
     (* Calculate expected drops for each item *)
     forEach dropsWithWeights (fun '(drop, weight) =>
       let probability := (weight / totalWeight)%Q in
       let expectedDrops := (inject_Z totalMainRolls * probability)%Q in
       u <- Math_random ;;
       let actualDrops := jitter expectedDrops u in
       when (0 <? actualDrops)
         (addToLoot (item drop)
            (Math_round (inject_Z actualDrops * avgQuantity (quantity drop)))))).

(** The events of one unique drop with its own rate: [actualDrops] times a
    sampled quantity and a notable drop at a random kill number. *)
Definition approxUniqueItem (killCount : Z) (uniqueDrop : Drop) : Sim unit :=
  let expectedDrops := (inject_Z killCount / rarity uniqueDrop)%Q in
  u <- Math_random ;;
  let actualDrops := jitter expectedDrops u in
  forLoop (Z.to_nat actualDrops) 0 (fun _ =>
    qty <- getRandomQuantity (quantity uniqueDrop) ;;
    addToLoot (item uniqueDrop) qty ;;;
    (* For large kill counts, just pick random kill numbers *)
    killNumber <- randomKillNumber killCount ;;
    pushUnique uniqueDrop killNumber).

(* Unique drops - simulate these individually since they're rare *)
Definition approxUniques (dropData : DropTable) (killCount : Z) : Sim unit :=
  match sharedUniqueChance dropData with
  | Some chance =>
      forLoop (Z.to_nat killCount) 0 (fun i =>
        rollUniqueTable dropData chance (i + 1))
  | None =>
      (* Handle individual unique drops with their own rates *)
      forEach (uniques dropData) (approxUniqueItem killCount)
  end.

(** The events of one tertiary drop. *)
Definition approxTertiaryItem (killCount : Z) (drop : Drop) : Sim unit :=
  let expectedDrops := (inject_Z killCount / rarity drop)%Q in
  u <- Math_random ;;
  let actualDrops := jitter expectedDrops u in
  when (0 <? actualDrops)
    (addToLoot (item drop)
       (Math_round (inject_Z actualDrops * avgQuantity (quantity drop))) ;;;
     (* Track rare tertiary drops as unique drops *)
     when (Qle_bool 1000 (rarity drop))
       (forLoop (Z.to_nat actualDrops) 0 (fun _ =>
          killNumber <- randomKillNumber killCount ;;
          pushUnique drop killNumber))).

(* Tertiary drops - use statistical approximation *)
Definition approxTertiary (dropData : DropTable) (killCount : Z) : Sim unit :=
  forEach (tertiary dropData) (approxTertiaryItem killCount).

Definition runOptimizedSimulation (dropData : DropTable) (killCount : Z)
  : Sim unit :=
  approxAlways dropData killCount ;;;
  approxMain dropData killCount ;;;
  approxUniques dropData killCount ;;;
  approxTertiary dropData killCount.

(** *** Entry point of the engine *)

Definition initial : SimState := {| loot := ∅; uniqueDrops := []; draws := 0 |}.

Definition finish (dropData : DropTable) (killCount : Z) (st : SimState)
  : Result.t :=
  {| Result.monsterName := name dropData;
     Result.killCount := killCount;
     Result.loot := loot st;
     Result.uniqueDrops := uniqueDrops st |}.

Definition runSimulation (dropData : DropTable) (killCount : Z) : Result.t :=
  (* Use optimized simulation for large kill counts *)
  if 1000 <? killCount then
    finish dropData killCount
      (snd (runOptimizedSimulation dropData killCount initial))
  else
    finish dropData killCount
      (snd (forLoop (Z.to_nat killCount) 0 (simulateKill dropData) initial)).

End Engine.

(** ** Drop-table cache *)

Definition CACHE_DURATION : Z := 60 * 60 * 1000.   (* 1 hour *)
Definition MAX_CACHE_SIZE : nat := 100.            (* Maximum number of cached entries *)

Record CacheEntry : Type := { data : DropTable; timestamp : Z }.

(** The [Map] [dropCache], in insertion order; no key occurs twice. *)
Definition Cache : Type := list (string * CacheEntry).

(** [dropCache.get(key)] *)
Fixpoint cacheGet (key : string) (c : Cache) : option CacheEntry :=
  match c with
  | [] => None
  | (k, v) :: c' => if String.eqb k key then Some v else cacheGet key c'
  end.

(** [dropCache.set(key, value)]: the value of a present key is replaced where
    it stands, a new key is added at the end. *)
Fixpoint cacheSet (key : string) (value : CacheEntry) (c : Cache) : Cache :=
  match c with
  | [] => [(key, value)]
  | (k, v) :: c' =>
      if String.eqb k key then (k, value) :: c'
      else (k, v) :: cacheSet key value c'
  end.

(** [dropCache.delete(key)] *)
Definition cacheDelete (key : string) (c : Cache) : Cache :=
  List.filter (fun kv => negb (String.eqb (fst kv) key)) c.

(** Periodic cleanup of expired cache entries, run at time [now]. *)
Definition cleanupExpiredCache (now : Z) (c : Cache) : Cache :=
  let keysToDelete :=
    map fst (List.filter (fun kv => CACHE_DURATION <=? now - timestamp (snd kv)) c) in
  fold_left (fun c key => cacheDelete key c) keysToDelete c.

(** The loop of [evictLRUEntry]: the pair [(oldestKey, oldestTime)] after
    the entries have been visited; [None] is [null]. *)
Definition oldestEntry (now : Z) (c : Cache) : option string * Z :=
  fold_left
    (fun (acc : option string * Z) (kv : string * CacheEntry) =>
       if timestamp (snd kv) <? snd acc
       then (Some (fst kv), timestamp (snd kv))
       else acc)
    c (None, now).

(** [evictLRUEntry()] when [Date.now()] is [now]; the test [if (oldestKey)]
    fails for [null] and for the empty string. *)
Definition evictLRUEntry (now : Z) (c : Cache) : Cache :=
  match fst (oldestEntry now c) with
  | Some oldestKey =>
      if is_empty oldestKey then c else cacheDelete oldestKey c
  | None => c
  end.

(** The readings of [Date.now()] during one call of [simulateKills]: at the
    cache look-up, inside [evictLRUEntry] and for the time stamp of the
    stored entry. *)
Record Clock : Type := { atLookup : Z; atEvict : Z; atStore : Z }.

(** Insertion with size limit enforcement, as [simulateKills] does it:
    [if (dropCache.size >= MAX_CACHE_SIZE) evictLRUEntry();
     dropCache.set(cacheKey, {data, timestamp: Date.now()})]. *)
Definition put (clock : Clock) (cacheKey : string) (table : DropTable)
    (c : Cache) : Cache :=
  let c := if (MAX_CACHE_SIZE <=? length c)%nat
           then evictLRUEntry (atEvict clock) c else c in
  cacheSet cacheKey {| data := table; timestamp := atStore clock |} c.

(** The look-up at the start of [simulateKills]:
    [cached && Date.now() - cached.timestamp < CACHE_DURATION]. *)
Definition cachedTable (now : Z) (cacheKey : string) (c : Cache)
  : option DropTable :=
  match cacheGet cacheKey c with
  | Some cached =>
      if now - timestamp cached <? CACHE_DURATION then Some (data cached)
      else None
  | None => None
  end.

(** ** Acquisition and the public entry point *)

(** What the two requests to the wiki produce. *)
Inductive Acquisition : Type :=
| FetchRejects                 (* fetch() or json() throws *)
| SearchNotOk (status : Z)     (* !searchResponse.ok *)
| SearchEmpty                  (* no search result *)
| ContentNotOk (status : Z)    (* !contentResponse.ok *)
| InvalidFormat                (* a response without the expected fields *)
| PageMissing                  (* pageId === '-1' or no revisions *)
| Page (pageTitle content : string).

(** The acquisition steps that end in the [catch] block. *)
Definition throws (a : Acquisition) : bool :=
  match a with
  | FetchRejects | SearchNotOk _ | ContentNotOk _ | InvalidFormat => true
  | SearchEmpty | PageMissing | Page _ _ => false
  end.

(** [{monsterName, killCount, loot, uniqueDrops} | {error}] *)
Inductive Outcome : Type :=
| Simulated (r : Result.t)
| Error (error : string).

(** [s] between double quotes (character 34). *)
Definition quoted (s : string) : string :=
  String "034" s +:+ String "034" EmptyString.

Section EntryPoint.

Variable rng : nat -> Q.
Variable clock : Clock.
Variable acquired : Acquisition.

(** The outcome and the cache after the call. *)
Definition simulateKills (monsterName : string) (killCount : Z) (dropCache : Cache)
  : Outcome * Cache :=
  (* Check cache first *)
  let cacheKey := Js.toLowerCase monsterName in
  match cachedTable (atLookup clock) cacheKey dropCache with
  | Some table => (Simulated (runSimulation rng table killCount), dropCache)
  | None =>
      match acquired with
      | FetchRejects | SearchNotOk _ | ContentNotOk _ | InvalidFormat =>
          (* catch (error): try fallback data if API fails *)
          match getFallbackDropData monsterName with
          | Some fallbackData =>
              (Simulated (runSimulation rng fallbackData killCount), dropCache)
          | None =>
              (Error ("Failed to fetch drop data for " +:+ quoted monsterName
                      +:+ ". Please try again."), dropCache)
          end
      | SearchEmpty =>
          (Error ("Could not find monster: " +:+ quoted monsterName), dropCache)
      | PageMissing =>
          (Error ("Wiki page not found for: " +:+ quoted monsterName), dropCache)
      | Page pageTitle content =>
          if is_empty content then
            (Error ("No content found for: " +:+ quoted monsterName), dropCache)
          else
            (* Parse drop tables from wiki markup *)
            let dropData := parseDropTables content pageTitle in
            (* Validate that we got some meaningful data *)
            if all_empty [always dropData; main dropData; uniques dropData;
                          tertiary dropData] then
              (* Try some fallback names for common monsters *)
              match getFallbackDropData monsterName with
              | Some fallbackData =>
                  (* Cache the fallback data with size limit enforcement *)
                  (Simulated (runSimulation rng fallbackData killCount),
                   put clock cacheKey fallbackData dropCache)
              | None =>
                  (Error ("No drop table data found for: " +:+ quoted monsterName),
                   dropCache)
              end
            else
              (* Cache the results with size limit enforcement *)
              (Simulated (runSimulation rng dropData killCount),
               put clock cacheKey dropData dropCache)
      end
  end.

End EntryPoint.

(** ** Vocabulary of the statements *)

(** Every character of [s] satisfies [p]. *)
Fixpoint all_chars (p : ascii -> bool) (s : string) : bool :=
  match s with
  | EmptyString => true
  | String c s' => p c && all_chars p s'
  end.

(** An integer that a number holds as it is: up to [2^53] in magnitude, the
    integers are numbers. *)
Definition exactInteger (n : Z) : Prop := Z.abs n <= 2 ^ 53.

(** The decimal numeral of a positive integer, as [String(n)] prints it. *)
Definition numeral (n : positive) : string :=
  NilEmpty.string_of_uint (Pos.to_uint n).

(** A text in which no decimal digit occurs: no number can be read from it. *)
Definition no_digit (s : string) : bool :=
  all_chars (fun c => negb (Js.is_digit c)) s.

Definition no_char (a : ascii) (s : string) : bool :=
  all_chars (fun c => negb (Ascii.eqb c a)) s.

Definition no_space (s : string) : bool :=
  all_chars (fun c => negb (Js.is_space c)) s.



(** The class [p] does not continue into [t]. *)
Definition stops (p : ascii -> bool) (t : string) : Prop :=
  match t with
  | EmptyString => True
  | String c _ => p c = false
  end.



(** A rarity text from which no number can be read and that names no bucket
    of [rarityMap]. *)
Definition unparseable_rarity (s : string) : Prop :=
  no_digit s = true /\ rarityMap !! Js.toLowerCase (Js.trim s) = None.

(** The item names of a sequence of drops. *)
Definition names (drops : list Drop) : list string := map item drops.

(** No item of [xs] is an item of [ys]. *)
Definition disjoint_items (xs ys : list Drop) : Prop :=
  forall i, In i (names xs) -> ~ In i (names ys).

(** What C2 states of a parsed table: item names are unique within each
    sequence, and no item occurs in two sequences. *)
Definition deduplicated (t : DropTable) : Prop :=
  List.NoDup (names (always t)) /\ List.NoDup (names (uniques t))
  /\ List.NoDup (names (tertiary t)) /\ List.NoDup (names (main t))
  /\ disjoint_items (main t) (always t)
  /\ disjoint_items (main t) (uniques t)
  /\ disjoint_items (main t) (tertiary t)
  /\ disjoint_items (always t) (uniques t)
  /\ disjoint_items (always t) (tertiary t)
  /\ disjoint_items (uniques t) (tertiary t).

(** A page on which Bones is listed twice under 100% and once more under
    Tertiary, and Coins twice outside the sections. *)
Definition repeatedLines : string :=
  "===100%==={{DropsLine|name=Bones|quantity=1|rarity=Always}}"
  +:+ "{{DropsLine|name=Bones|quantity=1|rarity=Always}}"
  +:+ "===Tertiary==={{DropsLine|name=Bones|quantity=1|rarity=1/5}}"
  +:+ "{{DropsTableBottom}}{{DropsLine|name=Coins|quantity=1-5|rarity=1/2}}"
  +:+ "{{DropsLine|name=Coins|quantity=10|rarity=1/4}}".

(** A clock that does not advance during a call. *)
Definition frozenClock (now : Z) : Clock :=
  {| atLookup := now; atEvict := now; atStore := now |}.

(** The cache key number [i]: [m], [xm], [xxm], ... *)
Fixpoint monsterKey (i : nat) : string :=
  match i with
  | O => "m"
  | S j => String "x" (monsterKey j)
  end.

(** Successive insertions, each with the readings of its own call. *)
Definition putAll (calls : list (Clock * string * DropTable)) (c : Cache)
  : Cache :=
  fold_left (fun c call => put (fst (fst call)) (snd (fst call)) (snd call) c)
    calls c.

(** Insertions of [n] different keys while the clock reads [now]. *)
Definition sameInstant (now : Z) (n : nat) : list (Clock * string * DropTable) :=
  map (fun i => (frozenClock now, monsterKey i, kingBlackDragonDrops))
    (List.seq 0 n).

Definition keys (c : Cache) : list string := map fst c.

(** The cache as the insertions leave it when the clock has advanced: at
    most [MAX_CACHE_SIZE] entries, under non-empty keys, stored before
    [now]. *)
Definition cacheOk (now : Z) (c : Cache) : Prop :=
  (length c <= MAX_CACHE_SIZE)%nat
  /\ Forall (fun kv => is_empty (fst kv) = false /\ timestamp (snd kv) < now) c.

(** Calls whose keys are not empty and whose clock readings lie after every
    time stamp stored so far, all of which are below [now]. *)
Fixpoint advancing (now : Z) (calls : list (Clock * string * DropTable)) : Prop :=
  match calls with
  | [] => True
  | (clock, key, _) :: calls' =>
      is_empty key = false /\ now <= atEvict clock
      /\ advancing (Z.max now (atStore clock + 1)) calls'
  end.

(** [loot[item]] as a number: an absent item counts as 0, and so does a
    text. *)
Definition amount (l : gmap string LootValue) (i : string) : Z :=
  match l !! i with
  | Some (Count n) => n
  | _ => 0
  end.

(** The property [i] of [l] is absent or a number. *)
Definition numeric (l : gmap string LootValue) (i : string) : Prop :=
  match l !! i with
  | Some (Text _ _) => False
  | _ => True
  end.

(** Two states of a simulation that have read the same number of random
    values and recorded the same notable drops, and whose loot is related by
    [R]. *)
Definition related (R : gmap string LootValue -> gmap string LootValue -> Prop)
    (st1 st2 : SimState) : Prop :=
  draws st1 = draws st2 /\ uniqueDrops st1 = uniqueDrops st2
  /\ R (loot st1) (loot st2).

(** A computation that behaves alike on related states: it returns the same
    value and leaves related states. *)
Definition oblivious
    (R : gmap string LootValue -> gmap string LootValue -> Prop) {A}
    (m : Sim A) : Prop :=
  forall st1 st2,
    related R st1 st2 ->
    fst (m st1) = fst (m st2) /\ related R (snd (m st1)) (snd (m st2)).

(** [R] survives adding the same quantity of an item that satisfies [ok] on
    both sides. *)
Definition additive (ok : string -> Prop)
    (R : gmap string LootValue -> gmap string LootValue -> Prop) : Prop :=
  forall item q l1 l2,
    ok item -> R l1 l2 -> R (credit item q l1) (credit item q l2).

(** Under the names that are not inherited, both loots hold numbers, and
    the loot on the left is the loot on the right plus [delta]. *)
Definition shifted (delta : string -> Z) (l1 l2 : gmap string LootValue) : Prop :=
  forall i,
    inherited i = false ->
    numeric l1 i /\ numeric l2 i /\ amount l1 i = amount l2 i + delta i.

(** The sum of [f] over the drops of [drops] named [i]. *)
Fixpoint totalFor (i : string) (f : Drop -> Z) (drops : list Drop) : Z :=
  match drops with
  | [] => 0
  | d :: drops' =>
      (if String.eqb (item d) i then f d else 0) + totalFor i f drops'
  end.

(** A quantity range [{q, q}]. *)
Definition fixedQuantity (d : Drop) : bool :=
  min (quantity d) =? max (quantity d).

Definition withAlways (newAlways : list Drop) (t : DropTable) : DropTable :=
  {| name := name t; mainTableRolls := mainTableRolls t;
     uniqueTableChance := uniqueTableChance t; always := newAlways;
     uniques := uniques t; main := main t; tertiary := tertiary t |}.

(** The table without its [always] entries of fixed quantity. *)
Definition withoutFixed (t : DropTable) : DropTable :=
  withAlways (List.filter (fun d => negb (fixedQuantity d)) (always t)) t.

(** What the fixed [always] entries named [i] yield in one kill. *)
Definition fixedPerKill (t : DropTable) (i : string) : Z :=
  totalFor i (fun d => min (quantity d)) (List.filter fixedQuantity (always t)).

(** What the [always] entries named [i] yield in approximated mode. *)
Definition approximatedAlways (t : DropTable) (killCount : Z) (i : string) : Z :=
  totalFor i
    (fun d => Math_round (avgQuantity (quantity d) * inject_Z killCount))
    (always t).

(** The total of an [always] drop in approximated mode as the specification
    words it, [round(((min + max) / 2) * killCount)]: [round] gives the
    nearest integer, and a half goes up. *)
Module Spec.

Definition round (x : Q) : Z :=
  if Qle_bool (1 # 2) (x - inject_Z (Qfloor x)) then Qfloor x + 1 else Qfloor x.

Definition alwaysTotal (q : Quantity) (killCount : Z) : Z :=
  round ((inject_Z (min q) + inject_Z (max q)) / 2 * inject_Z killCount).

End Spec.


(** A table with the single [always] entry [e]. *)
Definition onlyAlways (e : Drop) : DropTable :=
  {| name := "Monster"; mainTableRolls := 1; uniqueTableChance := None;
     always := [e]; uniques := []; main := []; tertiary := [] |}.

(** The items that the sections after [always] can yield. *)
Definition laterItems (t : DropTable) : list string :=
  names (main t) ++ names (uniques t) ++ names (tertiary t).

(** The loot of no item is smaller in [st'] than in [st]. *)
Definition grows (st st' : SimState) : Prop :=
  forall i, amount (loot st) i <= amount (loot st') i.

(** The number of notable drops recorded so far. *)
Definition events (st : SimState) : Z := Z.of_nat (length (uniqueDrops st)).

(** A quantity range of the data model. *)
Definition validQuantity (q : Quantity) : Prop := 1 <= min q <= max q.

(** A stream of values in [[0, 1)], as [Math.random()] returns them. *)
Definition unitDraws (rng : nat -> Q) : Prop :=
  forall n, (0 <= rng n)%Q /\ (rng n < 1)%Q.

(** The three capture groups of a match. *)
Definition groups (m : nat -> string) : string * string * string :=
  (m 1%nat, m 2%nat, m 3%nat).

(** An entry that the look-up of [simulateKills] still serves at time [now]. *)
Definition fresh (now : Z) (kv : string * CacheEntry) : bool :=
  now - timestamp (snd kv) <? CACHE_DURATION.

(** A cache at the size limit: 99 tables stored at time 0 under the keys
    [m], [xm], ... and one stored at time 5 under [kbd]. *)
Definition fullCache : Cache :=
  put (frozenClock 5) "kbd" kingBlackDragonDrops (putAll (sameInstant 0 99) []).

(** Every drop of a table. *)
Definition allDrops (t : DropTable) : list Drop :=
  always t ++ main t ++ uniques t ++ tertiary t.

(** The drops whose events are recorded as notable: the uniques, and the
    tertiary drops of rarity 1000 or more. *)
Definition notable (t : DropTable) (d : Drop) : Prop :=
  In d (uniques t) \/ (In d (tertiary t) /\ Qle_bool 1000 (rarity d) = true).

(** A computation that keeps the invariant [I] of the state and returns a
    value with [post]. *)
Definition preserves (I : SimState -> Prop) {A} (m : Sim A) (post : A -> Prop)
  : Prop :=
  forall st, I st -> I (snd (m st)) /\ post (fst (m st)).

(** Every quantity range of the table is one of the data model. *)
Definition validTable (t : DropTable) : Prop :=
  forall d, In d (allDrops t) -> validQuantity (quantity d).

(** The event that [pushUnique] records. *)
Definition eventOf (d : Drop) (killNumber : Z) : UniqueDrop.t :=
  {| UniqueDrop.item := item d; UniqueDrop.killNumber := killNumber;
     UniqueDrop.rarity := rarityText d |}.

(** *** What a pattern matches

    The relation between the state before and the state after a match of a
    pattern, read off the pattern; the matcher only returns such states. *)

(** Zero or more steps of [R]. *)
Inductive iterate (R : Regex.mstate -> Regex.mstate -> Prop)
  : Regex.mstate -> Regex.mstate -> Prop :=
| iterate_stop st : iterate R st st
| iterate_step st st1 st2 : R st st1 -> iterate R st1 st2 -> iterate R st st2.

Fixpoint matches (r : Regex.regex) (st st' : Regex.mstate) : Prop :=
  match r with
  | Regex.Eps => st' = st
  | Regex.Chr p =>
      exists c, p c = true /\ Regex.rest st = String c (Regex.rest st')
                /\ Regex.caps st' = Regex.caps st
  | Regex.Cat r1 r2 => exists mid, matches r1 st mid /\ matches r2 mid st'
  | Regex.Alt r1 r2 => matches r1 st st' \/ matches r2 st st'
  | Regex.Star _ r' => iterate (matches r') st st'
  | Regex.Group i r' =>
      exists st1,
        matches r' st st1
        /\ st' = Regex.MState (Regex.rest st1)
                   (Regex.set_cap i
                      (Regex.consumed (Regex.rest st) (Regex.rest st1))
                      (Regex.caps st1))
  end.

(** Every match of [r] consumes the character [a]. *)
Fixpoint needs (a : ascii) (r : Regex.regex) : Prop :=
  match r with
  | Regex.Eps | Regex.Star _ _ => False
  | Regex.Chr p => forall c, p c = true -> c = a
  | Regex.Cat r1 r2 => needs a r1 \/ needs a r2
  | Regex.Alt r1 r2 => needs a r1 /\ needs a r2
  | Regex.Group _ r' => needs a r'
  end.

(** Every character that [r] consumes satisfies [p]. *)
Fixpoint within (p : ascii -> bool) (r : Regex.regex) : Prop :=
  match r with
  | Regex.Eps => True
  | Regex.Chr q => forall c, q c = true -> p c = true
  | Regex.Cat r1 r2 | Regex.Alt r1 r2 => within p r1 /\ within p r2
  | Regex.Star _ r' | Regex.Group _ r' => within p r'
  end.

(** The capture groups of a pattern. *)
Fixpoint groupsOf (r : Regex.regex) : list nat :=
  match r with
  | Regex.Eps | Regex.Chr _ => []
  | Regex.Cat r1 r2 | Regex.Alt r1 r2 => groupsOf r1 ++ groupsOf r2
  | Regex.Star _ r' => groupsOf r'
  | Regex.Group i r' => i :: groupsOf r'
  end.

(** A rarity text that [parseRarity] turns into a number: it is shorter
    than 256 characters, so that no numeral in it reaches [2^1024], and is
    not, in lower case, the name of a member of [Object.prototype]. *)
Definition numberText (s : string) : Prop :=
  (String.length s < 256)%nat /\ inherited (Js.toLowerCase (Js.trim s)) = false.

(** A drop as the data model wants it: a range [1 <= min <= max], a positive
    rarity when its text gives a number, and a name. *)
Definition wellFormed (d : Drop) : Prop :=
  validQuantity (quantity d)
  /\ (numberText (rarityText d) -> (0 < rarity d)%Q)
  /\ item d <> EmptyString.


(** The kill numbers of the notable drops, in the order of the report. *)
Definition killNumbers (events : list UniqueDrop.t) : list Z :=
  map UniqueDrop.killNumber events.

(** A list of numbers that never decreases. *)
Fixpoint ascending (l : list Z) : Prop :=
  match l with
  | [] => True
  | x :: l' => Forall (fun y => x <= y) l' /\ ascending l'
  end.

(** *** Drop lines as they are written

    A drop line of the primary format with the text in front of it: the
    three fields, and further template parameters before the closing
    braces. *)
Record WrittenLine : Type := {
  gapText : string;
  itemText : string;
  quantityText : string;
  rateText : string;
  otherText : string
}.

Definition templateText (l : WrittenLine) : string :=
  "{{DropsLine|name=" +:+ itemText l +:+ "|quantity=" +:+ quantityText l
  +:+ "|rarity=" +:+ rateText l +:+ otherText l +:+ "}}".

Definition lineText (l : WrittenLine) : string := gapText l +:+ templateText l.

(** The lines one after the other, and the text after the last one. *)
Definition sectionText (ls : list WrittenLine) (tail : string) : string :=
  fold_right (fun l s => lineText l +:+ s) tail ls.

(** A text that is not empty and holds none of the characters of [bad]. *)
Definition field (bad : string) (s : string) : bool :=
  negb (is_empty s) && all_chars (fun c => negb (Regex.mem c bad)) s.

(** The empty text, or a text that begins with a vertical bar. *)
Definition parameters (s : string) : bool :=
  match s with
  | EmptyString => true
  | String c _ => Ascii.eqb c "|"
  end.

(** A line that the primary pattern is meant for: no opening brace in front
    of the template, no vertical bar in the name and the quantity, neither
    a bar nor a closing brace in the rarity, and further parameters without
    a closing brace. *)
Definition wellWritten (l : WrittenLine) : Prop :=
  no_char "{" (gapText l) = true
  /\ field "|" (itemText l) = true
  /\ field "|" (quantityText l) = true
  /\ field "|}" (rateText l) = true
  /\ parameters (otherText l) = true
  /\ no_char "}" (otherText l) = true.

(** The drop that a written line stands for. *)
Definition dropOf (l : WrittenLine) : Drop :=
  {| item := itemText l;
     quantity := parseQuantity (quantityText l);
     rarity := parseRarity (rateText l);
     rarityText := rateText l |}.

(** The captures of the match of a written line. *)
Definition capsOf (l : WrittenLine) : nat -> string :=
  Regex.set_cap 3 (rateText l)
    (Regex.set_cap 2 (quantityText l)
       (Regex.set_cap 1 (itemText l) Regex.no_caps)).

(** A character that [.] matches: no line feed and no carriage return. *)
Definition on_line (c : ascii) : bool :=
  negb (Regex.mem c (String "010" (String "013" EmptyString))).

(** The letter [m] does not occur in [s], in either case. *)
Definition no_letter_m (s : string) : bool :=
  all_chars (fun c => negb (Regex.same_letter "m" c)) s.

(** * Properties *)

(** ** Weighted selection *)

Lemma pickByWeight_In (ws : list (Drop * Q)) (random : Q) (d : Drop) :
  pickByWeight ws random = Some d -> In d (map fst ws).
Proof.
  revert random. induction ws as [|[d0 w] ws IH]; intros random; simpl.
  - discriminate.
  - destruct (Qle_bool (random - w) 0).
    + intros [= ->]. now left.
    + intros H. right. eapply IH, H.
Qed.

Lemma weighted_fst (drops : list Drop) :
  map fst (map (fun d => (d, dropWeight d)) drops) = drops.
Proof. induction drops; simpl; congruence. Qed.

Lemma last_In {A} (l : list A) (x : A) : last l = Some x -> In x l.
Proof.
  induction l as [|a [|b l] IH]; simpl; intros H.
  - discriminate.
  - injection H as ->. now left.
  - right. apply IH, H.
Qed.

Lemma last_nonempty {A} (l : list A) : l <> [] -> exists x, last l = Some x.
Proof.
  induction l as [|a [|b l] IH]; intros H.
  - congruence.
  - now exists a.
  - apply IH. discriminate.
Qed.

(** What [selectWeightedDrop] returns is taken from the list. *)
Lemma selectWeightedDrop_In (rng : nat -> Q) (drops : list Drop) (st : SimState)
    (d : Drop) :
  fst (selectWeightedDrop rng drops st) = Some d -> In d drops.
Proof.
  unfold selectWeightedDrop. destruct drops as [|d0 [|d1 rest]].
  - discriminate.
  - simpl. intros [= <-]. now left.
  - set (ws := map (fun d => (d, dropWeight d)) (d0 :: d1 :: rest)).
    destruct (Qeq_bool (totalWeightOf ws) 0).
    + simpl. intros [= <-]. now left.
    + unfold bind, Math_random. cbv zeta.
      destruct (pickByWeight ws _) as [x|] eqn:Hp.
      * simpl. intros [= <-]. apply pickByWeight_In in Hp. unfold ws in Hp.
        now rewrite weighted_fst in Hp.
      * apply last_In.
Qed.

(** C5. For a non-empty list of drops, whatever [Math.random()] returns and
    whatever the weights are, [selectWeightedDrop] returns an element of the
    list and never [null]; a list of one drop yields that drop, and a total
    weight of zero yields the first drop. *)
Theorem selectWeightedDrop_member (rng : nat -> Q) (drops : list Drop)
    (st : SimState) :
  drops <> [] ->
  let chosen := fst (selectWeightedDrop rng drops st) in
  (exists d, chosen = Some d /\ In d drops)
  /\ (forall d, drops = [d] -> chosen = Some d)
  /\ (Qeq_bool (totalWeightOf (map (fun d => (d, dropWeight d)) drops)) 0 = true ->
      chosen = head drops).
Proof.
  intros Hne chosen. subst chosen.
  destruct drops as [|d0 [|d1 rest]]; [congruence | |].
  - simpl. split; [|split].
    + exists d0. split; [reflexivity | now left].
    + now intros d [= ->].
    + reflexivity.
  - unfold selectWeightedDrop.
    set (ws := map (fun d => (d, dropWeight d)) (d0 :: d1 :: rest)).
    destruct (Qeq_bool (totalWeightOf ws) 0) eqn:Hz.
    + simpl. split; [|split].
      * exists d0. split; [reflexivity | now left].
      * intros d [=].
      * reflexivity.
    + unfold bind, Math_random. cbv zeta.
      destruct (pickByWeight ws _) as [d|] eqn:Hp.
      * simpl. split; [|split].
        -- exists d. split; [reflexivity|].
           apply pickByWeight_In in Hp. unfold ws in Hp.
           now rewrite weighted_fst in Hp.
        -- intros d' [=].
        -- discriminate.
      * destruct (last_nonempty (d0 :: d1 :: rest)) as [x Hx]; [discriminate|].
        split; [|split].
        -- exists x. split; [exact Hx | now apply last_In].
        -- intros d' [=].
        -- discriminate.
Qed.

Lemma selectWeightedDrop_member_witness :
  exists d, fst (selectWeightedDrop (fun _ => 1 # 2) (main getCerberusHardcodedDrops)
                   initial) = Some d
            /\ In d (main getCerberusHardcodedDrops).
Proof.
  apply (selectWeightedDrop_member (fun _ => 1 # 2)
           (main getCerberusHardcodedDrops) initial).
  discriminate.
Defined.

(** ** Strings and numerals *)

Section StringFacts.

Lemma append_nil_l (b : string) : EmptyString +:+ b = b.
Proof. reflexivity. Qed.

Lemma append_cons c (a b : string) : String c a +:+ b = String c (a +:+ b).
Proof. reflexivity. Qed.

Lemma append_nil_r (s : string) : s +:+ EmptyString = s.
Proof. induction s as [|c s IH]; [reflexivity|]. now rewrite append_cons, IH. Qed.

Lemma append_assoc (a b c : string) : (a +:+ b) +:+ c = a +:+ b +:+ c.
Proof. induction a as [|x a IH]; [reflexivity|]. now rewrite !append_cons, IH. Qed.

Lemma length_append (a b : string) :
  String.length (a +:+ b) = (String.length a + String.length b)%nat.
Proof.
  induction a as [|x a IH]; [reflexivity|].
  rewrite append_cons. simpl. now rewrite IH.
Qed.

Lemma all_chars_app p (a b : string) :
  all_chars p (a +:+ b) = all_chars p a && all_chars p b.
Proof.
  induction a as [|c a IH]; [reflexivity|].
  rewrite append_cons. simpl. now rewrite IH, andb_assoc.
Qed.

Lemma all_chars_weaken (p q : ascii -> bool) (s : string) :
  (forall c, p c = true -> q c = true) ->
  all_chars p s = true -> all_chars q s = true.
Proof.
  intros Hpq. induction s as [|c s IH]; simpl; [reflexivity|].
  rewrite !andb_true_iff. intros [Hc Hs]. split; auto.
Qed.

(** Classes of characters are disjoint where the parser relies on it. *)
Lemma digit_not_space c : Js.is_digit c = true -> Js.is_space c = false.
Proof.
  destruct c as [[] [] [] [] [] [] [] []]; vm_compute; intros H;
    first [reflexivity | discriminate H].
Qed.

Lemma digit_not_sign c :
  Js.is_digit c = true ->
  Ascii.eqb c "-" = false /\ Ascii.eqb c "+" = false /\ Ascii.eqb c "/" = false
  /\ Ascii.eqb c "x" = false /\ Ascii.eqb c "X" = false
  /\ Ascii.eqb c "(" = false.
Proof.
  destruct c as [[] [] [] [] [] [] [] []]; vm_compute; intros H;
    first [discriminate H | repeat split].
Qed.

Lemma radix_digit_10 c :
  Js.radix_digit 10 c = (if Js.is_digit c then Js.digit_value c else None).
Proof. destruct c as [[] [] [] [] [] [] [] []]; vm_compute; reflexivity. Qed.

Lemma digit_value_nonneg r c v : Js.radix_digit r c = Some v -> 0 <= v.
Proof.
  unfold Js.radix_digit.
  destruct (Js.digit_value c) as [d|] eqn:Hd; [|discriminate].
  destruct (d <? r); intros [= <-].
  revert Hd. destruct c as [[] [] [] [] [] [] [] []]; vm_compute;
    intros [= <-]; discriminate.
Qed.

End StringFacts.

(** ** [parseInt] *)

Section ParseInt.

Lemma uint_digits (u : Decimal.uint) :
  all_chars Js.is_digit (NilEmpty.string_of_uint u) = true.
Proof. induction u; simpl; auto. Qed.

Lemma numeral_digits n : all_chars Js.is_digit (numeral n) = true.
Proof. apply uint_digits. Qed.

Lemma numeral_nonempty n : exists c s, numeral n = String c s.
Proof.
  unfold numeral. pose proof (Unsigned.to_uint_nonnil n) as H.
  destruct (Pos.to_uint n); [congruence | simpl; eauto ..].
Qed.

(** Reading the digits of a numeral continues the accumulated value the way
    [Pos.of_uint_acc] does. *)
Lemma parse_digits_acc (u : Decimal.uint) (a : positive) :
  Js.parse_digits 10 (NilEmpty.string_of_uint u) (Some (Z.pos a))
  = Some (Z.pos (Pos.of_uint_acc u a)).
Proof.
  revert a. induction u; intros a; [reflexivity | ..];
    cbn [NilEmpty.string_of_uint Js.parse_digits Pos.of_uint_acc];
    rewrite radix_digit_10; unfold default, from_option, Datatypes.id;
    match goal with
    | |- context [Js.is_digit ?c] =>
        change (Js.is_digit c) with true; cbv iota;
        let v := eval vm_compute in (Js.digit_value c) in
        change (Js.digit_value c) with v; cbv iota
    end;
    match goal with
    | |- Js.parse_digits _ _ (Some ?v) = Some (Z.pos (Pos.of_uint_acc _ ?b)) =>
        replace v with (Z.pos b) by lia
    end; apply IHu.
Qed.

Lemma parse_digits_uint (u : Decimal.uint) :
  Js.parse_digits 10 (NilEmpty.string_of_uint u) (Some 0)
  = Some (Z.of_N (Pos.of_uint u))
  /\ (u <> Decimal.Nil ->
      Js.parse_digits 10 (NilEmpty.string_of_uint u) None
      = Some (Z.of_N (Pos.of_uint u))).
Proof.
  induction u; [split; [reflexivity | congruence] | ..];
    cbn [NilEmpty.string_of_uint Js.parse_digits Pos.of_uint];
    rewrite radix_digit_10;
    match goal with
    | |- context [Js.is_digit ?c] =>
        change (Js.is_digit c) with true; cbv iota;
        let v := eval vm_compute in (Js.digit_value c) in
        change (Js.digit_value c) with v; cbv iota
    end; unfold default, from_option, Datatypes.id; cbn [Z.mul Z.add];
    split; intros; first [apply IHu | apply parse_digits_acc].
Qed.

Lemma parse_digits_numeral n :
  Js.parse_digits 10 (numeral n) None = Some (Z.pos n).
Proof.
  unfold numeral.
  destruct (parse_digits_uint (Pos.to_uint n)) as [_ H].
  rewrite H by apply Unsigned.to_uint_nonnil.
  now rewrite DecimalPos.Unsigned.of_to.
Qed.

(** An integer up to [2^53] is a number. *)
Lemma toNumber_exact n : exactInteger n -> Js.toNumber n = n.
Proof.
  unfold exactInteger, Js.toNumber. intros H.
  destruct (Z.eq_dec (Z.abs n) (2 ^ 53)) as [E|Hne].
  - destruct (Z.abs_eq_or_opp n) as [A|A]; rewrite A in E.
    + subst n. reflexivity.
    + assert (n = - 2 ^ 53) as -> by lia. reflexivity.
  - assert (Hlog : Z.log2 (Z.abs n) < 53).
    { destruct (Z.eq_dec (Z.abs n) 0) as [->|Hz]; [reflexivity|].
      apply Z.log2_lt_pow2; lia. }
    replace (Z.log2 (Z.abs n) - 52 <=? 0) with true; [reflexivity|].
    symmetry. apply Z.leb_le. lia.
Qed.

Lemma toNumber_nonneg n : 0 <= n -> 0 <= Js.toNumber n.
Proof.
  intros H. unfold Js.toNumber. destruct (_ <=? 0); [exact H|].
  apply Z.mul_nonneg_nonneg; [lia|].
  apply Z.shiftl_nonneg.
  assert (0 <= Z.shiftr (Z.abs n) (Z.log2 (Z.abs n) - 52))
    by (apply Z.shiftr_nonneg; lia).
  destruct (_ || _); lia.
Qed.

(** On a text of decimal digits [parseInt] reads all of it in radix 10. *)
Lemma parse_unsigned_digits s :
  all_chars Js.is_digit s = true ->
  Js.parse_unsigned s = Js.toNumber <$> Js.parse_digits 10 s None.
Proof.
  destruct s as [|c0 [|c1 s]]; try reflexivity.
  simpl. rewrite !andb_true_iff. intros (_ & H1 & _).
  unfold Js.parse_unsigned.
  destruct (digit_not_sign c1 H1) as (_ & _ & _ & -> & -> & _).
  now rewrite andb_false_r.
Qed.

Lemma parseInt_digits s :
  all_chars Js.is_digit s = true ->
  Js.parseInt s = Js.toNumber <$> Js.parse_digits 10 s None.
Proof.
  intros H. unfold Js.parseInt. destruct s as [|c s]; [reflexivity|].
  pose proof H as H'. simpl in H'. apply andb_true_iff in H' as [Hc _].
  cbn [Js.trimStart]. rewrite (digit_not_space c Hc).
  destruct (digit_not_sign c Hc) as (-> & -> & _).
  now apply parse_unsigned_digits.
Qed.

Lemma parseInt_numeral n :
  exactInteger (Z.pos n) -> Js.parseInt (numeral n) = Some (Z.pos n).
Proof.
  intros H. rewrite parseInt_digits by apply numeral_digits.
  rewrite parse_digits_numeral. cbn [fmap option_fmap option_map].
  now rewrite toNumber_exact.
Qed.

(** Above [2^53] the number read is not always the integer written. *)
Lemma parseInt_rounds :
  Js.parseInt "9007199254740993" = Some 9007199254740992.
Proof. reflexivity. Qed.

(** Without a decimal digit there is no number to read. *)
Lemma parse_digits_no_digit s :
  no_digit s = true -> Js.parse_digits 10 s None = None.
Proof.
  destruct s as [|c s]; [reflexivity|]. unfold no_digit. simpl.
  rewrite andb_true_iff, negb_true_iff. intros [Hc _].
  now rewrite radix_digit_10, Hc.
Qed.

Lemma parse_unsigned_no_digit s :
  no_digit s = true -> Js.parse_unsigned s = None.
Proof.
  intros H. unfold Js.parse_unsigned.
  destruct s as [|c0 [|c1 s]]; try now rewrite parse_digits_no_digit.
  replace (Ascii.eqb c0 "0") with false; [now rewrite parse_digits_no_digit|].
  unfold no_digit in H. simpl in H. apply andb_true_iff in H as [Hc _].
  destruct (Ascii.eqb_spec c0 "0") as [->|]; [discriminate Hc | reflexivity].
Qed.

Lemma trimStart_all_chars p s :
  all_chars p s = true -> all_chars p (Js.trimStart s) = true.
Proof.
  induction s as [|c s IH]; [reflexivity|]. intros H. simpl.
  destruct (Js.is_space c); [|exact H].
  simpl in H. apply andb_true_iff in H as [_ H]. auto.
Qed.

Lemma parseInt_no_digit s : no_digit s = true -> Js.parseInt s = None.
Proof.
  intros H. apply trimStart_all_chars in H. unfold Js.parseInt.
  destruct (Js.trimStart s) as [|c t]; [reflexivity|].
  pose proof H as H'. simpl in H'. apply andb_true_iff in H' as [_ Ht].
  destruct (Ascii.eqb c "-"); [now rewrite (parse_unsigned_no_digit t Ht)|].
  destruct (Ascii.eqb c "+"); now apply parse_unsigned_no_digit.
Qed.

(** A number read from a text without minus sign is not negative. *)
Lemma parse_digits_nonneg r s acc v :
  (forall a, acc = Some a -> 0 <= a) -> 0 <= r ->
  Js.parse_digits r s acc = Some v -> 0 <= v.
Proof.
  intros Hacc Hr. revert acc Hacc.
  induction s as [|c s IH]; intros acc Hacc; simpl; [now apply Hacc|].
  destruct (Js.radix_digit r c) as [d|] eqn:Hd; [|now apply Hacc].
  apply IH. intros a [= <-]. apply digit_value_nonneg in Hd.
  destruct acc as [a|]; simpl; [specialize (Hacc a eq_refl)|]; nia.
Qed.

Lemma parse_unsigned_nonneg s v : Js.parse_unsigned s = Some v -> 0 <= v.
Proof.
  unfold Js.parse_unsigned.
  assert (H : forall r t w, 0 <= r -> Js.toNumber <$> Js.parse_digits r t None
                                     = Some w -> 0 <= w).
  { intros r t w Hr. destruct (Js.parse_digits r t None) as [x|] eqn:E;
      [|discriminate].
    intros [= <-]. apply toNumber_nonneg.
    eapply parse_digits_nonneg; [| exact Hr | exact E]. discriminate. }
  destruct s as [|c0 [|c1 s]]; try (apply H; lia).
  destruct (_ && _); apply H; lia.
Qed.

Lemma parseInt_nonneg s v :
  no_char "-" s = true -> Js.parseInt s = Some v -> 0 <= v.
Proof.
  intros H. apply trimStart_all_chars in H. unfold Js.parseInt.
  destruct (Js.trimStart s) as [|c t]; [discriminate|].
  simpl in H. apply andb_true_iff in H as [Hc _].
  apply negb_true_iff in Hc. rewrite Hc.
  destruct (Ascii.eqb c "+"); apply parse_unsigned_nonneg.
Qed.

Lemma int_or_pos v d : (forall n, v = Some n -> 0 <= n) -> 1 <= d -> 1 <= Js.int_or v d.
Proof.
  intros Hv Hd. destruct v as [[|p|p]|]; simpl; try lia.
  specialize (Hv _ eq_refl). lia.
Qed.

End ParseInt.

(** ** [includes], [split] and [trim] *)

Section SplitTrim.

Lemma is_empty_true s : is_empty s = true -> s = EmptyString.
Proof. now destruct s. Qed.

(** [s.includes(c)] for a text of one character. *)
Lemma includes_char s a :
  Js.includes s (String a EmptyString) = negb (no_char a s).
Proof.
  induction s as [|c s IH]; [reflexivity|].
  cbn [Js.includes Js.strip_prefix]. unfold no_char in *. cbn [all_chars].
  rewrite (Ascii.eqb_sym a c). destruct (Ascii.eqb c a); [reflexivity|].
  now rewrite IH.
Qed.

Lemma split_nonempty sep s : Js.split sep s <> [].
Proof.
  destruct s as [|c s]; simpl; [discriminate|].
  destruct (Ascii.eqb c sep); [discriminate|].
  destruct (Js.split sep s); discriminate.
Qed.

(** The parts of [a + sep + b] when [sep] does not occur in [a]. *)
Lemma split_app sep a b :
  no_char sep a = true ->
  Js.split sep (a +:+ String sep b) = a :: Js.split sep b.
Proof.
  unfold no_char. induction a as [|c a IH]; intros H.
  - rewrite append_nil_l. cbn [Js.split]. now rewrite Ascii.eqb_refl.
  - simpl in H. apply andb_true_iff in H as [Hc Ha].
    apply negb_true_iff in Hc.
    rewrite append_cons. cbn [Js.split]. rewrite Hc, (IH Ha). reflexivity.
Qed.

Lemma split_none sep a : no_char sep a = true -> Js.split sep a = [a].
Proof.
  unfold no_char. induction a as [|c a IH]; intros H; [reflexivity|].
  simpl in H. apply andb_true_iff in H as [Hc Ha]. apply negb_true_iff in Hc.
  cbn [Js.split]. now rewrite Hc, (IH Ha).
Qed.

(** No part contains the separator, and the parts keep a property that all
    characters of the text have. *)
Lemma split_parts p sep s :
  all_chars p s = true ->
  Forall (fun part => all_chars p part = true /\ no_char sep part = true)
    (Js.split sep s).
Proof.
  induction s as [|c s IH]; intros H.
  - repeat constructor.
  - simpl in H. apply andb_true_iff in H as [Hc Hs]. specialize (IH Hs).
    cbn [Js.split]. destruct (Ascii.eqb c sep) eqn:E.
    + constructor; [now split | exact IH].
    + pose proof (split_nonempty sep s) as Hne.
      destruct (Js.split sep s) as [|part parts]; [congruence|].
      inversion IH as [|? ? [Hp Hn] Hparts]; subst.
      constructor; [|exact Hparts].
      unfold no_char in *. simpl. now rewrite Hc, Hp, E, Hn.
Qed.

Lemma trimEnd_all_chars p s :
  all_chars p s = true -> all_chars p (Js.trimEnd s) = true.
Proof.
  induction s as [|c s IH]; [reflexivity|]. intros H.
  simpl in H. apply andb_true_iff in H as [Hc Hs]. specialize (IH Hs).
  cbn [Js.trimEnd]. destruct (Js.trimEnd s) as [|c' t].
  - destruct (Js.is_space c); simpl; now rewrite ?Hc.
  - simpl in *. now rewrite Hc, IH.
Qed.

Lemma trim_all_chars p s : all_chars p s = true -> all_chars p (Js.trim s) = true.
Proof. intros H. now apply trimEnd_all_chars, trimStart_all_chars. Qed.

(** A text without white space is its own trimmed form. *)
Lemma trimEnd_no_space s : no_space s = true -> Js.trimEnd s = s.
Proof.
  unfold no_space. induction s as [|c s IH]; [reflexivity|]. intros H.
  simpl in H. apply andb_true_iff in H as [Hc Hs]. apply negb_true_iff in Hc.
  cbn [Js.trimEnd]. rewrite (IH Hs), Hc. now destruct s.
Qed.

Lemma trim_no_space s : no_space s = true -> Js.trim s = s.
Proof.
  intros H. unfold Js.trim.
  replace (Js.trimStart s) with s; [now apply trimEnd_no_space|].
  destruct s as [|c s]; [reflexivity|].
  unfold no_space in H. simpl in H. apply andb_true_iff in H as [Hc _].
  apply negb_true_iff in Hc. simpl. now rewrite Hc.
Qed.

Lemma trim_spaces s : all_chars Js.is_space s = true -> Js.trim s = EmptyString.
Proof.
  unfold Js.trim. induction s as [|c s IH]; [reflexivity|]. intros H.
  simpl in H. apply andb_true_iff in H as [Hc Hs].
  simpl. rewrite Hc. auto.
Qed.

Lemma digits_no_space s : all_chars Js.is_digit s = true -> no_space s = true.
Proof.
  apply all_chars_weaken. intros c H. now rewrite (digit_not_space c H).
Qed.

Lemma digits_no_char a s :
  Js.is_digit a = false -> all_chars Js.is_digit s = true -> no_char a s = true.
Proof.
  intros Ha. apply all_chars_weaken. intros c H.
  destruct (Ascii.eqb_spec c a) as [->|]; [congruence | reflexivity].
Qed.

End SplitTrim.

(** ** The matcher *)

Section Matcher.
Import Regex.

(** A property of the remaining input that holds for every later position. *)
Variable P : string -> Prop.
Hypothesis P_tail : forall c s, P (String c s) -> P s.




End Matcher.

Section MatcherChars.
Import Regex.





(** A greedy [(class)*] in front of input that begins with a run [w] of the
    class and goes on with [t], where the class stops: when the continuation
    succeeds after the whole run, that is the match. *)
Lemma star_class_run p w t c k res fuel :
  all_chars p w = true -> stops p t ->
  (String.length w <= fuel)%nat ->
  k (MState t c) = Some res ->
  star true (run (Chr p)) fuel (MState (w +:+ t) c) k = Some res.
Proof.
  intros Hw Ht. revert fuel. induction w as [|a w IH]; intros fuel Hf Hk.
  - rewrite append_nil_l. destruct fuel as [|f]; simpl; [exact Hk|].
    destruct t as [|x t]; [now rewrite Hk|].
    simpl in Ht. now rewrite Ht, Hk.
  - simpl in Hw. apply andb_true_iff in Hw as [Ha Hw].
    destruct fuel as [|f]; [simpl in Hf; lia|].
    rewrite append_cons. cbn [star run rest caps]. rewrite Ha.
    cbn [rest String.length].
    replace (_ <? _)%nat with true by (symmetry; apply Nat.ltb_lt; lia).
    rewrite IH; [reflexivity | exact Hw | simpl in Hf; lia | exact Hk].
Qed.

End MatcherChars.

(** ** Notes in quantities *)

Section Notes.
Import Regex.









End Notes.

(** ** Quantity normalisation *)

Section QuantityFacts.

Lemma split_has_two a s :
  no_char a s = false -> exists p0 p1 ps, Js.split a s = p0 :: p1 :: ps.
Proof.
  unfold no_char. induction s as [|c s IH]; intros H; [discriminate|].
  simpl in H. cbn [Js.split]. destruct (Ascii.eqb c a).
  - pose proof (split_nonempty a s). destruct (Js.split a s) as [|p1 ps]; [congruence|].
    now exists EmptyString, p1, ps.
  - simpl in H. destruct (IH H) as (p0 & p1 & ps & ->). now exists (String c p0), p1, ps.
Qed.

Lemma all_chars_true s : all_chars (fun _ => true) s = true.
Proof. induction s; simpl; auto. Qed.

Lemma numeral_not_empty n : is_empty (numeral n) = false.
Proof. destruct (numeral_nonempty n) as (c & s & ->). reflexivity. Qed.

Lemma numeral_no_char a n : Js.is_digit a = false -> no_char a (numeral n) = true.
Proof. intros H. apply digits_no_char; [exact H | apply numeral_digits]. Qed.

Lemma numeral_no_space n : no_space (numeral n) = true.
Proof. apply digits_no_space, numeral_digits. Qed.

Lemma parseQuantity_bounds s :
  1 <= min (parseQuantity s) <= max (parseQuantity s).
Proof.
  unfold parseQuantity. destruct (is_empty s); [simpl; lia|].
  set (cleaned := Js.trim _). destruct (is_empty cleaned); [simpl; lia|].
  rewrite includes_char.
  destruct (no_char "-" cleaned) eqn:Hm; cbn [negb].
  - cbn [min max].
    assert (1 <= Js.int_or (Js.parseInt cleaned) 1); [|lia].
    apply int_or_pos; [|lia]. intros n. now apply parseInt_nonneg.
  - destruct (split_has_two _ _ Hm) as (p0 & p1 & ps & E). rewrite E.
    pose proof (split_parts (fun _ => true) "-" cleaned (all_chars_true _)) as F.
    rewrite E in F. inversion F as [|? ? [_ H0] F']; subst.
    inversion F' as [|? ? [_ H1] _]; subst.
    cbn [min max].
    assert (A : 1 <= Js.int_or (Js.parseInt p0) 1).
    { apply int_or_pos; [|lia]. intros n. now apply parseInt_nonneg. }
    assert (B : 1 <= Js.int_or (Js.parseInt p1) (Js.int_or (Js.parseInt p0) 1)).
    { apply int_or_pos; [|exact A]. intros n. now apply parseInt_nonneg. }
    lia.
Qed.










End QuantityFacts.




(** ** Rarity normalisation *)

Section RarityFacts.

Lemma fraction_text_clean n d :
  let s := numeral n +:+ String "/" (numeral d) in
  is_empty s = false
  /\ Js.trim s = s
  /\ Js.includes s "/" = true
  /\ Js.split "/" s = [numeral n; numeral d].
Proof.
  intros s. subst s. repeat split.
  - destruct (numeral_nonempty n) as (c & t & ->). reflexivity.
  - apply trim_no_space. unfold no_space. rewrite all_chars_app. cbn [all_chars].
    fold (no_space (numeral n)). fold (no_space (numeral d)).
    now rewrite !numeral_no_space.
  - rewrite includes_char. unfold no_char. rewrite all_chars_app. cbn [all_chars].
    rewrite Ascii.eqb_refl. cbn [negb andb]. now rewrite andb_false_r.
  - rewrite split_app by now apply numeral_no_char.
    now rewrite split_none by now apply numeral_no_char.
Qed.

Lemma parseRarity_fraction (n d : positive) :
  exactInteger (Z.pos n) -> exactInteger (Z.pos d) ->
  parseRarity (numeral n +:+ String "/" (numeral d))
  = (inject_Z (Z.pos d) / inject_Z (Z.pos n))%Q.
Proof.
  intros Hn Hd. destruct (fraction_text_clean n d) as (E1 & E2 & E3 & E4).
  unfold parseRarity. rewrite E1, E2, E3, E4, !parseInt_numeral by assumption.
  reflexivity.
Qed.

Lemma parseRarity_number (n : positive) :
  exactInteger (Z.pos n) ->
  parseRarity (numeral n) = inject_Z (Z.pos n).
Proof.
  intros Hn. unfold parseRarity. rewrite numeral_not_empty.
  rewrite trim_no_space by apply numeral_no_space.
  rewrite includes_char, numeral_no_char by reflexivity.
  cbn [negb]. now rewrite parseInt_numeral.
Qed.

Lemma parseRarity_default s :
  no_char "/" s = true ->
  (forall n, Js.parseInt (Js.trim s) = Some n -> n <= 0) ->
  rarityMap !! Js.toLowerCase (Js.trim s) = None ->
  parseRarity s = 128%Q.
Proof.
  intros Hs Hn Hm. unfold parseRarity. destruct (is_empty s); [reflexivity|].
  rewrite includes_char. apply (trim_all_chars _ s) in Hs.
  fold (no_char "/" (Js.trim s)) in Hs. rewrite Hs. cbn [negb].
  rewrite Hm. destruct (Js.parseInt (Js.trim s)) as [v|]; [|reflexivity].
  specialize (Hn v eq_refl).
  replace (0 <? v) with false by (symmetry; apply Z.ltb_ge; lia).
  reflexivity.
Qed.

(** The text [a/b] of a fraction, for sides without white space or slash. *)
Lemma fraction_sides_clean a b :
  no_space a = true -> no_space b = true ->
  no_char "/" a = true -> no_char "/" b = true ->
  let s := a +:+ String "/" b in
  is_empty s = false
  /\ Js.trim s = s
  /\ Js.includes s "/" = true
  /\ Js.split "/" s = [a; b].
Proof.
  intros As Bs Aq Bq. repeat split.
  - now destruct a.
  - apply trim_no_space. unfold no_space in *. rewrite all_chars_app.
    cbn [all_chars]. now rewrite As, Bs.
  - rewrite includes_char. unfold no_char. rewrite all_chars_app. cbn [all_chars].
    rewrite Ascii.eqb_refl. cbn [negb andb]. now rewrite andb_false_r.
  - rewrite split_app by exact Aq. now rewrite split_none by exact Bq.
Qed.

(** The two sides of a fraction are read one by one: a side that is no
    number or is 0 counts as 1. *)
Lemma parseRarity_sides a b :
  no_space a = true -> no_space b = true ->
  no_char "/" a = true -> no_char "/" b = true ->
  0 < Js.int_or (Js.parseInt a) 1 -> 0 < Js.int_or (Js.parseInt b) 1 ->
  parseRarity (a +:+ String "/" b)
  = (inject_Z (Js.int_or (Js.parseInt b) 1)
     / inject_Z (Js.int_or (Js.parseInt a) 1))%Q.
Proof.
  intros As Bs Aq Bq Ha Hb.
  destruct (fraction_sides_clean a b As Bs Aq Bq) as (E1 & E2 & E3 & E4).
  unfold parseRarity. rewrite E1, E2, E3, E4.
  apply Z.ltb_lt in Ha, Hb. now rewrite Ha, Hb.
Qed.

Lemma parseRarity_numerator_unreadable a (d : positive) :
  no_digit a = true -> no_space a = true -> no_char "/" a = true ->
  exactInteger (Z.pos d) ->
  parseRarity (a +:+ String "/" (numeral d)) = (inject_Z (Z.pos d) / inject_Z 1)%Q.
Proof.
  intros Hd Hs Hq Hx.
  rewrite parseRarity_sides; try assumption;
    rewrite ?(parseInt_no_digit a Hd), ?(parseInt_numeral d Hx);
    try reflexivity; try apply numeral_no_space; now apply numeral_no_char.
Qed.

Lemma parseRarity_denominator_unreadable (n : positive) b :
  no_digit b = true -> no_space b = true -> no_char "/" b = true ->
  exactInteger (Z.pos n) ->
  parseRarity (numeral n +:+ String "/" b) = (inject_Z 1 / inject_Z (Z.pos n))%Q.
Proof.
  intros Hd Hs Hq Hx.
  rewrite parseRarity_sides; try assumption;
    rewrite ?(parseInt_no_digit b Hd), ?(parseInt_numeral n Hx);
    try reflexivity; try apply numeral_no_space; now apply numeral_no_char.
Qed.

(** In a text with a slash, a part that is missing or is not a number counts
    as 1. *)
Lemma parseRarity_slash_no_digit s :
  no_digit s = true -> no_char "/" s = false -> parseRarity s = (1 / 1)%Q.
Proof.
  intros Hd Hs. unfold parseRarity.
  destruct (is_empty s) eqn:E; [apply is_empty_true in E; now subst|].
  assert (Hc : no_digit (Js.trim s) = true) by now apply trim_all_chars.
  destruct (Js.includes (Js.trim s) "/") eqn:Hi.
  - rewrite includes_char in Hi. apply negb_true_iff in Hi.
    destruct (split_has_two _ _ Hi) as (p0 & p1 & ps & Es). rewrite Es.
    pose proof (split_parts _ "/" _ Hc) as F. rewrite Es in F.
    inversion F as [|? ? [H0 _] F']; subst.
    inversion F' as [|? ? [H1 _] _]; subst.
    now rewrite (parseInt_no_digit _ H0), (parseInt_no_digit _ H1).
  - (* the slash survives trimming *)
    exfalso. rewrite includes_char in Hi. apply negb_false_iff in Hi.
    revert Hs Hi. unfold Js.trim, no_char.
    assert (Hspace : Js.is_space "/" = false) by reflexivity.
    clear -Hspace. intros Hs Hi.
    assert (A : forall t, all_chars (fun c => negb (Ascii.eqb c "/")) (Js.trimEnd t) = true ->
                          all_chars (fun c => negb (Ascii.eqb c "/")) t = true).
    { induction t as [|c t IH]; [reflexivity|]. cbn [Js.trimEnd].
      destruct (Js.trimEnd t) as [|c' t'] eqn:Et.
      - destruct (Js.is_space c) eqn:Ec.
        + intros _. simpl. rewrite (IH eq_refl), andb_true_r.
          destruct (Ascii.eqb_spec c "/") as [->|]; [congruence | reflexivity].
        + simpl. rewrite andb_true_r. intros ->. simpl. now apply IH.
      - simpl. intros H. apply andb_true_iff in H as [-> H]. simpl. now apply IH. }
    assert (B : forall t, all_chars (fun c => negb (Ascii.eqb c "/")) (Js.trimStart t) = true ->
                          all_chars (fun c => negb (Ascii.eqb c "/")) t = true).
    { induction t as [|c t IH]; [reflexivity|]. cbn [Js.trimStart].
      destruct (Js.is_space c) eqn:Ec; [|auto].
      intros H. simpl. rewrite (IH H), andb_true_r.
      destruct (Ascii.eqb_spec c "/") as [->|]; [congruence | reflexivity]. }
    apply A, B in Hi. congruence.
Qed.

End RarityFacts.

(** C6, as the code has it. [parseRarity] maps a fraction [n/d] of positive
    integers up to [2^53] to [d/n], a positive integer up to [2^53] to
    itself, and the texts always, common, uncommon, rare and very rare to 1,
    8, 32, 128 and 512; it yields 128 for a text that has no slash, does not
    begin with a positive integer, names no bucket and is not, in lower
    case, the name of a member of [Object.prototype].  A text with a slash
    and without any digit yields 1: the two sides of a fraction are read
    one by one, and a numerator or a denominator without digit counts as 1
    (for sides without white space or further slash). *)
Theorem parseRarity_normalises :
  (forall n d : positive,
      exactInteger (Z.pos n) -> exactInteger (Z.pos d) ->
      parseRarity (numeral n +:+ String "/" (numeral d))
      = (inject_Z (Z.pos d) / inject_Z (Z.pos n))%Q)
  /\ (parseRarity "1/512" == 512)%Q
  /\ (parseRarity "5/130" == 26)%Q
  /\ (forall n : positive,
        exactInteger (Z.pos n) -> parseRarity (numeral n) = inject_Z (Z.pos n))
  /\ (parseRarity "always" = 1 /\ parseRarity "common" = 8
      /\ parseRarity "uncommon" = 32 /\ parseRarity "rare" = 128
      /\ parseRarity "very rare" = 512 /\ parseRarity " Very Rare " = 512)%Q
  /\ (forall s,
        no_char "/" s = true ->
        (forall n, Js.parseInt (Js.trim s) = Some n -> n <= 0) ->
        rarityMap !! Js.toLowerCase (Js.trim s) = None ->
        inherited (Js.toLowerCase (Js.trim s)) = false ->
        parseRarity s = 128%Q)
  /\ (forall s,
        no_digit s = true -> no_char "/" s = false ->
        parseRarity s = (1 / 1)%Q)
  /\ (forall (a : string) (d : positive),
        no_digit a = true -> no_space a = true -> no_char "/" a = true ->
        exactInteger (Z.pos d) ->
        parseRarity (a +:+ String "/" (numeral d))
        = (inject_Z (Z.pos d) / inject_Z 1)%Q)
  /\ (forall (n : positive) (b : string),
        no_digit b = true -> no_space b = true -> no_char "/" b = true ->
        exactInteger (Z.pos n) ->
        parseRarity (numeral n +:+ String "/" b)
        = (inject_Z 1 / inject_Z (Z.pos n))%Q).
Proof.
  split; [exact parseRarity_fraction|].
  split; [vm_compute; reflexivity|].
  split; [vm_compute; reflexivity|].
  split; [exact parseRarity_number|].
  split; [repeat split; vm_compute; reflexivity|].
  split; [intros s Hs Hn Hm _; now apply parseRarity_default|].
  split; [exact parseRarity_slash_no_digit|].
  split; [exact parseRarity_numerator_unreadable
         | exact parseRarity_denominator_unreadable].
Qed.

Lemma parseRarity_normalises_witness :
  parseRarity "Unknown" = 128%Q /\ parseRarity "N/A" = (1 / 1)%Q
  /\ parseRarity "3/9007199254740992" = (9007199254740992 / 3)%Q
  /\ parseRarity "64" = 64%Q
  /\ parseRarity "x/40" = (40 / 1)%Q
  /\ parseRarity "40/x" = (1 / 40)%Q.
Proof.
  destruct parseRarity_normalises
    as (Hfraction & _ & _ & Hnumber & _ & Hdefault & Hslash & Hnum & Hden).
  split; [|split; [|split; [|split; [|split]]]].
  - apply Hdefault; [reflexivity | | reflexivity | reflexivity].
    intros n. vm_compute. discriminate.
  - apply Hslash; reflexivity.
  - apply (Hfraction 3%positive 9007199254740992%positive);
      unfold exactInteger; simpl; lia.
  - apply (Hnumber 64%positive). unfold exactInteger. simpl. lia.
  - apply (Hnum "x" 40%positive); try reflexivity.
    unfold exactInteger. simpl. lia.
  - apply (Hden 40%positive "x"); try reflexivity.
    unfold exactInteger. simpl. lia.
Defined.

(** C6 as stated fails: no number can be read from the text [N/A] and it
    names no bucket, yet its rarity is 1 and not the default 128; and above
    [2^53] the rarity of a fraction [1/d] is not always [d]. *)
Lemma parseRarity_unparseable_not_default :
  unparseable_rarity "N/A" /\ ~ (parseRarity "N/A" == 128)%Q
  /\ ~ (parseRarity "1/9007199254740993" == 9007199254740993)%Q.
Proof.
  split; [split; reflexivity|].
  split; vm_compute; discriminate.
Qed.

(** ** De-duplication across the sections of a table *)

Section Dedup.

Lemma has_item_In arr i : has_item arr i = true <-> In i (names arr).
Proof.
  unfold has_item, names. rewrite existsb_exists, in_map_iff. split.
  - intros (d & Hd & E). apply String.eqb_eq in E. now exists d.
  - intros (d & E & Hd). exists d. split; [exact Hd|]. now apply String.eqb_eq.
Qed.

Lemma in_other_tables_false a u t i :
  in_other_tables a u t i = false ->
  ~ In i (names a) /\ ~ In i (names u) /\ ~ In i (names t).
Proof.
  unfold in_other_tables. rewrite !orb_false_iff. intros [[Ha Hu] Ht].
  repeat split; intros H; apply has_item_In in H; congruence.
Qed.

(** Every drop that [parseMainDropTable] leaves in [main], by the primary
    pattern or by an alternative one, is in none of the other sequences. *)
Lemma parseMainDropTable_others content a u t d :
  In d (parseMainDropTable content a u [] t) ->
  in_other_tables a u t (item d) = false.
Proof.
  unfold parseMainDropTable. rewrite app_nil_l.
  destruct (_ =? 0)%nat; intros H; apply filter_In in H as [_ H];
    now apply negb_true_iff in H.
Qed.

(** The tables of the catalogue keep their main items apart as well. *)
Lemma fallback_others monsterName fb d :
  getFallbackDropData monsterName = Some fb -> In d (main fb) ->
  in_other_tables (always fb) (uniques fb) (tertiary fb) (item d) = false.
Proof.
  unfold getFallbackDropData.
  assert (A : forall tbl,
             forallb (fun d => negb (in_other_tables (always tbl) (uniques tbl)
                                       (tertiary tbl) (item d))) (main tbl) = true ->
             In d (main tbl) ->
             in_other_tables (always tbl) (uniques tbl) (tertiary tbl) (item d)
             = false).
  { intros tbl H Hd. rewrite forallb_forall in H. apply negb_true_iff. auto. }
  destruct (Js.includes _ "cerberus").
  - intros [= <-]. apply A. vm_compute. reflexivity.
  - destruct (_ || _); [|discriminate].
    intros [= <-]. apply A. vm_compute. reflexivity.
Qed.

End Dedup.

(** C2, as the code has it. After [parseDropTables] returns, no item of
    [main] occurs in [always], [uniques] or [tertiary]. *)
Theorem parseDropTables_main_apart (wikiContent monsterName : string) :
  let t := parseDropTables wikiContent monsterName in
  disjoint_items (main t) (always t)
  /\ disjoint_items (main t) (uniques t)
  /\ disjoint_items (main t) (tertiary t).
Proof.
  intros t.
  assert (H : forall d, In d (main t) ->
              in_other_tables (always t) (uniques t) (tertiary t) (item d) = false).
  { subst t. unfold parseDropTables.
    match goal with
    | |- context [parseMainDropTable wikiContent ?a ?u [] ?te] =>
        set (al := a); set (un := u); set (te' := te)
    end.
    destruct (all_empty _).
    - destruct (getFallbackDropData monsterName) as [fb|] eqn:E.
      + intros d. now apply (fallback_others monsterName).
      + cbn [main always uniques tertiary]. intros d.
        apply parseMainDropTable_others.
    - cbn [main always uniques tertiary]. intros d.
      apply parseMainDropTable_others. }
  repeat split; intros i Hi; unfold names in Hi; apply in_map_iff in Hi
    as (d & <- & Hd); apply H, in_other_tables_false in Hd; tauto.
Qed.

(** C2 as stated fails: on the page [repeatedLines] Bones is kept twice in
    [always] and once more in [tertiary], and Coins twice in [main]. *)
Lemma parseDropTables_keeps_duplicates :
  let t := parseDropTables repeatedLines "Goblin" in
  names (always t) = ["Bones"; "Bones"]
  /\ names (tertiary t) = ["Bones"]
  /\ names (main t) = ["Coins"; "Coins"]
  /\ ~ deduplicated t.
Proof.
  assert (E : let t := parseDropTables repeatedLines "Goblin" in
              names (always t) = ["Bones"; "Bones"]
              /\ names (tertiary t) = ["Bones"]
              /\ names (main t) = ["Coins"; "Coins"]).
  { vm_compute. repeat split. }
  cbv zeta in *. destruct E as (Ea & Et & Em). repeat split; try assumption.
  intros (Hnd & _). rewrite Ea in Hnd.
  apply NoDup_cons_iff in Hnd as [Hin _]. apply Hin. now left.
Qed.

(** ** Cache *)

Section CacheFacts.

Lemma cacheSet_length key v c :
  (length (cacheSet key v c) <= S (length c))%nat.
Proof.
  induction c as [|[k e] c IH]; simpl; [lia|].
  destruct (String.eqb k key); simpl; lia.
Qed.

Lemma cacheSet_new key v c :
  ~ In key (keys c) -> cacheSet key v c = c ++ [(key, v)].
Proof.
  induction c as [|[k e] c IH]; simpl; [reflexivity|]. intros H.
  destruct (String.eqb_spec k key) as [->|]; [tauto|].
  rewrite IH; tauto.
Qed.

Lemma cacheGet_set key v c : cacheGet key (cacheSet key v c) = Some v.
Proof.
  induction c as [|[k e] c IH]; simpl.
  - now rewrite String.eqb_refl.
  - destruct (String.eqb k key) eqn:E; simpl; now rewrite E.
Qed.

Lemma cacheDelete_length key c :
  In key (keys c) -> (S (length (cacheDelete key c)) <= length c)%nat.
Proof.
  unfold cacheDelete.
  induction c as [|[k e] c IH]; simpl; [tauto|]. intros H.
  destruct (String.eqb_spec k key) as [->|Hne]; simpl.
  - pose proof (filter_length_le (fun kv => negb (String.eqb (fst kv) key)) c). lia.
  - destruct H as [H|H]; [congruence|]. specialize (IH H). lia.
Qed.

(** The loop of [evictLRUEntry] keeps the first entry whose time stamp is
    below every time stamp seen before it; with no time stamp below [now] it
    keeps [null]. *)
Lemma oldestEntry_none now c :
  Forall (fun kv => now <= timestamp (snd kv)) c ->
  oldestEntry now c = (None, now).
Proof.
  unfold oldestEntry. induction c as [|kv c IH]; intros H; [reflexivity|].
  inversion H as [|? ? Hkv Hc]; subst. simpl.
  replace (_ <? _) with false by (symmetry; apply Z.ltb_ge; lia). auto.
Qed.

Lemma oldestEntry_fold acc c :
  let r := fold_left
             (fun (acc : option string * Z) (kv : string * CacheEntry) =>
                if timestamp (snd kv) <? snd acc
                then (Some (fst kv), timestamp (snd kv)) else acc) c acc in
  snd r <= snd acc
  /\ Forall (fun kv => snd r <= timestamp (snd kv)) c
  /\ (fst r = fst acc /\ snd r = snd acc
      \/ exists kv, In kv c /\ fst r = Some (fst kv) /\ snd r = timestamp (snd kv)).
Proof.
  revert acc. induction c as [|kv c IH]; intros acc; simpl.
  - split; [lia|]. split; [constructor | now left].
  - destruct (timestamp (snd kv) <? snd acc) eqn:E.
    + apply Z.ltb_lt in E.
      destruct (IH (Some (fst kv), timestamp (snd kv))) as (A & B & C).
      simpl in A. split; [lia|]. split; [constructor; [exact A | exact B]|].
      right. destruct C as [[C1 C2]|(kv' & Hin & C1 & C2)].
      * exists kv. simpl in *. auto.
      * exists kv'. auto.
    + apply Z.ltb_ge in E. destruct (IH acc) as (A & B & C).
      split; [lia|]. split; [constructor; [lia | exact B]|].
      destruct C as [C|(kv' & Hin & C1 & C2)]; [now left|].
      right. exists kv'. auto.
Qed.

(** With an entry stored before [now], the loop ends on a cached key whose
    time stamp is the smallest. *)
Lemma oldestEntry_some now c :
  Exists (fun kv => timestamp (snd kv) < now) c ->
  exists kv, In kv c /\ fst (oldestEntry now c) = Some (fst kv)
             /\ Forall (fun e => timestamp (snd kv) <= timestamp (snd e)) c.
Proof.
  intros H. destruct (oldestEntry_fold (None, now) c) as (A & B & C).
  fold (oldestEntry now c) in *. simpl in A.
  destruct C as [[_ C]|(kv & Hin & C1 & C2)].
  - exfalso. apply Exists_exists in H as (kv & Hin & Hlt).
    rewrite Forall_forall in B. specialize (B kv Hin). simpl in C. lia.
  - exists kv. split; [exact Hin|]. split; [exact C1|]. now rewrite <- C2.
Qed.

(** An insertion keeps the bound when the clock has advanced past the time
    stamps of the cache and no key is empty. *)
Lemma put_keeps_bound clock key table c :
  cacheOk (atEvict clock) c ->
  (length (put clock key table c) <= MAX_CACHE_SIZE)%nat.
Proof.
  intros (Hlen & Hall). unfold put.
  destruct (MAX_CACHE_SIZE <=? length c)%nat eqn:E.
  - apply Nat.leb_le in E.
    assert (Hex : Exists (fun kv => timestamp (snd kv) < atEvict clock) c).
    { destruct c as [|kv c]; [unfold MAX_CACHE_SIZE in E; simpl in E; lia|].
      inversion Hall as [|? ? [_ Hkv] _]; subst. now left. }
    apply oldestEntry_some in Hex as (kv & Hin & Hk & _).
    unfold evictLRUEntry. rewrite Hk.
    rewrite List.Forall_forall in Hall. destruct (Hall kv Hin) as [-> _].
    pose proof (cacheDelete_length (fst kv) c (in_map fst c kv Hin)).
    pose proof (cacheSet_length key {| data := table; timestamp := atStore clock |}
                  (cacheDelete (fst kv) c)).
    lia.
  - apply Nat.leb_gt in E.
    pose proof (cacheSet_length key {| data := table; timestamp := atStore clock |} c).
    lia.
Qed.

(** When an entry was stored before [now] and no key is empty, the entry
    that [evictLRUEntry] deletes has the smallest time stamp of the cache. *)
Lemma evictLRUEntry_oldest now c :
  cacheOk now c -> c <> [] ->
  exists kv,
    In kv c /\ evictLRUEntry now c = cacheDelete (fst kv) c
    /\ Forall (fun e => timestamp (snd kv) <= timestamp (snd e)) c.
Proof.
  intros [_ Hall] Hne.
  assert (Hex : Exists (fun kv => timestamp (snd kv) < now) c).
  { destruct c as [|kv c]; [congruence|].
    inversion Hall as [|? ? [_ Hkv] _]; subst. now left. }
  apply oldestEntry_some in Hex as (kv & Hin & Hk & Hmin).
  exists kv. split; [exact Hin|]. split; [|exact Hmin].
  unfold evictLRUEntry. rewrite Hk.
  rewrite List.Forall_forall in Hall. now destruct (Hall kv Hin) as [-> _].
Qed.

Lemma Forall_cacheSet (Q : string * CacheEntry -> Prop) key v c :
  Forall Q c -> Q (key, v) -> Forall Q (cacheSet key v c).
Proof.
  intros Hc Hv. induction c as [|[k e] c IH]; simpl; [now constructor|].
  inversion Hc as [|? ? Hke Hc']; subst.
  destruct (String.eqb_spec k key) as [->|]; constructor; auto.
Qed.

Lemma Forall_evict (Q : string * CacheEntry -> Prop) now c :
  Forall Q c -> Forall Q (evictLRUEntry now c).
Proof.
  intros H. unfold evictLRUEntry.
  destruct (fst (oldestEntry now c)) as [k|]; [|exact H].
  destruct (is_empty k); [exact H|].
  unfold cacheDelete. rewrite List.Forall_forall in *. intros kv Hkv.
  apply filter_In in Hkv as [Hkv _]. auto.
Qed.

Lemma put_keeps_ok now clock key table c :
  cacheOk now c -> is_empty key = false -> now <= atEvict clock ->
  cacheOk (Z.max now (atStore clock + 1)) (put clock key table c).
Proof.
  intros Hok Hkey Hnow.
  assert (Hok' : cacheOk (atEvict clock) c).
  { destruct Hok as [Hlen Hall]. split; [exact Hlen|].
    eapply List.Forall_impl; [|exact Hall]. simpl. intros kv [? ?]. split; [auto|lia]. }
  split; [now apply put_keeps_bound|].
  destruct Hok as [_ Hall]. unfold put. apply Forall_cacheSet.
  - assert (Hall' : Forall (fun kv => is_empty (fst kv) = false
                      /\ timestamp (snd kv) < Z.max now (atStore clock + 1)) c).
    { eapply List.Forall_impl; [|exact Hall]. simpl. intros kv [? ?]. split; [auto|lia]. }
    destruct (_ <=? _)%nat; [now apply Forall_evict | exact Hall'].
  - simpl. split; [exact Hkey | lia].
Qed.

(** The bound holds after any sequence of insertions during which the clock
    advances and no key is empty. *)
Lemma putAll_keeps_bound calls : forall now c,
  cacheOk now c -> advancing now calls ->
  (length (putAll calls c) <= MAX_CACHE_SIZE)%nat.
Proof.
  induction calls as [|[[clock key] table] calls IH]; intros now c Hok Hadv.
  - apply Hok.
  - destruct Hadv as (Hkey & Hnow & Hadv). unfold putAll. simpl.
    apply (IH (Z.max now (atStore clock + 1))); [|exact Hadv].
    now apply put_keeps_ok.
Qed.

End CacheFacts.

(** C1 at a failing input. When 101 tables are inserted under different
    keys while [Date.now()] keeps returning the same value, no entry is older
    than the starting value of [oldestTime], [evictLRUEntry] deletes nothing,
    and the cache ends with 101 entries.  So it does when the 101st insertion
    reads a clock that has been set back. *)
Theorem put_exceeds_bound_same_instant :
  length (putAll (sameInstant 0 100) []) = 100%nat
  /\ evictLRUEntry 0 (putAll (sameInstant 0 100) []) = putAll (sameInstant 0 100) []
  /\ length (putAll (sameInstant 0 101) []) = 101%nat
  /\ length (put (frozenClock 500) (monsterKey 100) kingBlackDragonDrops
               (putAll (sameInstant 1000 100) [])) = 101%nat.
Proof. vm_compute. repeat split. Qed.

(** ** Fallback paths of [simulateKills] *)

Section Fallback.

Variable rng : nat -> Q.
Variable clock : Clock.

(** The [catch] block: with a table in the catalogue the call returns the
    simulation of that table and leaves the cache as it was. *)
Lemma simulateKills_catch acquired monsterName killCount dropCache fallbackData :
  throws acquired = true ->
  getFallbackDropData monsterName = Some fallbackData ->
  cachedTable (atLookup clock) (Js.toLowerCase monsterName) dropCache = None ->
  simulateKills rng clock acquired monsterName killCount dropCache
  = (Simulated (runSimulation rng fallbackData killCount), dropCache).
Proof.
  intros Ha Hf Hc. unfold simulateKills. rewrite Hc.
  destruct acquired; try discriminate Ha; now rewrite Hf.
Qed.

(** The sibling path: when the page yields no drop at all, the table of the
    catalogue is stored under the lower-cased name before the result is
    returned. *)
Lemma simulateKills_empty_page_caches pageTitle content monsterName killCount
    dropCache fallbackData :
  is_empty content = false ->
  (let dropData := parseDropTables content pageTitle in
   all_empty [always dropData; main dropData; uniques dropData;
              tertiary dropData] = true) ->
  getFallbackDropData monsterName = Some fallbackData ->
  cachedTable (atLookup clock) (Js.toLowerCase monsterName) dropCache = None ->
  let (outcome, cache') :=
    simulateKills rng clock (Page pageTitle content) monsterName killCount
      dropCache in
  outcome = Simulated (runSimulation rng fallbackData killCount)
  /\ cacheGet (Js.toLowerCase monsterName) cache'
     = Some {| data := fallbackData; timestamp := atStore clock |}.
Proof.
  intros Hcontent Hempty Hf Hc. unfold simulateKills.
  rewrite Hc, Hcontent. cbv zeta in Hempty. rewrite Hempty, Hf.
  split; [reflexivity|]. unfold put. apply cacheGet_set.
Qed.

End Fallback.

(** C4. When the acquisition throws for a monster name that the fallback
    catalogue knows, and the cache holds no fresh table for it,
    [simulateKills] returns the simulation of the catalogue table and no
    error; so it does for [simulateKills("cerberus", 5)]. *)
Theorem simulateKills_fetch_error_uses_fallback
    (rng : nat -> Q) (clock : Clock) (acquired : Acquisition)
    (monsterName : string) (killCount : Z) (dropCache : Cache)
    (fallbackData : DropTable) :
  throws acquired = true ->
  getFallbackDropData monsterName = Some fallbackData ->
  cachedTable (atLookup clock) (Js.toLowerCase monsterName) dropCache = None ->
  fst (simulateKills rng clock acquired monsterName killCount dropCache)
  = Simulated (runSimulation rng fallbackData killCount).
Proof.
  intros Ha Hf Hc. now rewrite (simulateKills_catch _ _ _ _ _ _ _ Ha Hf Hc).
Qed.

Lemma simulateKills_fetch_error_uses_fallback_witness :
  fst (simulateKills (fun _ => 1 # 2) (frozenClock 0) FetchRejects "cerberus" 5 [])
  = Simulated (runSimulation (fun _ => 1 # 2) getCerberusHardcodedDrops 5).
Proof.
  apply simulateKills_fetch_error_uses_fallback; reflexivity.
Defined.

(** C3 at a failing input. [simulateKills("cerberus", 5)] on an empty cache,
    with an acquisition that throws, answers from the catalogue and returns
    with the cache still empty: no entry is stored for the key. *)
Theorem simulateKills_fetch_error_stores_nothing
    (rng : nat -> Q) (clock : Clock) :
  simulateKills rng clock FetchRejects "cerberus" 5 []
  = (Simulated (runSimulation rng getCerberusHardcodedDrops 5), [])
  /\ cacheGet "cerberus"
       (snd (simulateKills rng clock FetchRejects "cerberus" 5 [])) = None.
Proof.
  split.
  - now apply simulateKills_catch.
  - now rewrite (simulateKills_catch rng clock FetchRejects "cerberus" 5 []
                   getCerberusHardcodedDrops).
Qed.

(** ** Loot accounting

    The simulation never reads the loot it has accumulated: on two states
    that differ only in their loot it draws the same random values, records
    the same notable drops and adds the same quantities. *)

Section Accounting.

Variable rng : nat -> Q.
Variable R : gmap string LootValue -> gmap string LootValue -> Prop.
Variable ok : string -> Prop.
Hypothesis R_add : additive ok R.

Lemma oblivious_ret {A} (a : A) : oblivious R (ret a).
Proof. intros st1 st2 H. now split. Qed.

Lemma oblivious_bind {A B} (post : A -> Prop) (m : Sim A) (f : A -> Sim B) :
  (forall st, post (fst (m st))) ->
  oblivious R m -> (forall a, post a -> oblivious R (f a)) ->
  oblivious R (bind m f).
Proof.
  intros Hpost Hm Hf st1 st2 H. unfold bind.
  specialize (Hm st1 st2 H). specialize (Hpost st2).
  destruct (m st1) as [a1 s1], (m st2) as [a2 s2]. simpl in *.
  destruct Hm as [-> Hrel]. now apply Hf.
Qed.

Lemma oblivious_then {A B} (m : Sim A) (k : Sim B) :
  oblivious R m -> oblivious R k -> oblivious R (bind m (fun _ => k)).
Proof.
  intros Hm Hk. apply (oblivious_bind (fun _ => True)); auto.
Qed.

Lemma oblivious_random : oblivious R (Math_random rng).
Proof.
  intros st1 st2 (Hd & Hu & Hl). unfold Math_random. simpl.
  rewrite Hd. repeat split; auto.
Qed.

Lemma oblivious_addToLoot item q : ok item -> oblivious R (addToLoot item q).
Proof.
  intros Hok st1 st2 (Hd & Hu & Hl). unfold addToLoot. simpl.
  repeat split; auto. now apply R_add.
Qed.

Lemma oblivious_pushUnique d killNumber : oblivious R (pushUnique d killNumber).
Proof.
  intros st1 st2 (Hd & Hu & Hl). unfold pushUnique. simpl.
  rewrite Hu. repeat split; auto.
Qed.

Lemma oblivious_when b (m : Sim unit) : oblivious R m -> oblivious R (when b m).
Proof. destruct b; simpl; [auto | intros _; apply oblivious_ret]. Qed.

Lemma oblivious_forEach {A} (arr : list A) (body : A -> Sim unit) :
  (forall x, In x arr -> oblivious R (body x)) -> oblivious R (forEach arr body).
Proof.
  induction arr as [|x arr IH]; intros H; simpl; [apply oblivious_ret|].
  apply oblivious_then; [apply H; now left|].
  apply IH. intros y Hy. apply H. now right.
Qed.

Lemma oblivious_forLoop n from (body : Z -> Sim unit) :
  (forall i, oblivious R (body i)) -> oblivious R (forLoop n from body).
Proof.
  intros H. revert from. induction n as [|n IH]; intros from; simpl;
    [apply oblivious_ret|].
  apply oblivious_then; auto.
Qed.

Lemma oblivious_getRandomQuantity q : oblivious R (getRandomQuantity rng q).
Proof.
  unfold getRandomQuantity. destruct (_ =? _); [apply oblivious_ret|].
  apply (oblivious_bind (fun _ => True)); auto using oblivious_random.
  intros u _. apply oblivious_ret.
Qed.

(** Adding a sampled quantity of a drop. *)
Lemma oblivious_award d :
  ok (item d) ->
  oblivious R (qty <- getRandomQuantity rng (quantity d) ;; addToLoot (item d) qty).
Proof.
  intros Hok. apply (oblivious_bind (fun _ => True));
    auto using oblivious_getRandomQuantity.
  intros q _. now apply oblivious_addToLoot.
Qed.

Lemma oblivious_selectWeightedDrop drops :
  oblivious R (selectWeightedDrop rng drops).
Proof.
  unfold selectWeightedDrop. destruct drops as [|d0 [|d1 rest]];
    try apply oblivious_ret.
  destruct (Qeq_bool _ 0); [apply oblivious_ret|].
  apply (oblivious_bind (fun _ => True)); auto using oblivious_random.
  intros u _. destruct (pickByWeight _ _); apply oblivious_ret.
Qed.

End Accounting.

(** The steps that behave alike whatever the loot is. *)
Create HintDb oblivious.
#[global] Hint Resolve oblivious_ret oblivious_random oblivious_pushUnique
  oblivious_getRandomQuantity oblivious_selectWeightedDrop : oblivious.

(** A step that reads a value and goes on with it. *)
Ltac reads :=
  apply (oblivious_bind _ (fun _ => True));
  [ intros; exact I | solve [auto with oblivious] | intros ? _ ].

(** The steps after the [always] drops, in both modes, for a table whose
    later items satisfy [ok]. *)

Section Steps.

Variable rng : nat -> Q.
Variable R : gmap string LootValue -> gmap string LootValue -> Prop.
Variable ok : string -> Prop.
Hypothesis R_add : additive ok R.

Variable dropData : DropTable.
Hypothesis later_ok : forall i, In i (laterItems dropData) -> ok i.

Lemma main_ok d : In d (main dropData) -> ok (item d).
Proof.
  intros H. apply later_ok. unfold laterItems, names.
  apply in_or_app. left. now apply in_map.
Qed.

Lemma uniques_ok d : In d (uniques dropData) -> ok (item d).
Proof.
  intros H. apply later_ok. unfold laterItems, names.
  apply in_or_app. right. apply in_or_app. left. now apply in_map.
Qed.

Lemma tertiary_ok d : In d (tertiary dropData) -> ok (item d).
Proof.
  intros H. apply later_ok. unfold laterItems, names.
  apply in_or_app. right. apply in_or_app. right. now apply in_map.
Qed.

Lemma at_index_In {A} (arr : list A) i x : at_index arr i = Some x -> In x arr.
Proof.
  unfold at_index. destruct (i <? 0); [discriminate|]. apply nth_error_In.
Qed.

Lemma oblivious_mainRolls : oblivious R (mainRolls rng dropData).
Proof.
  unfold mainRolls. apply oblivious_forLoop. intros _.
  apply (oblivious_bind R (fun o => forall d, o = Some d -> In d (main dropData))).
  - intros st d H. eapply selectWeightedDrop_In, H.
  - apply oblivious_selectWeightedDrop.
  - intros [d|] H; [|apply oblivious_ret].
    eapply oblivious_award; [exact R_add|]. now apply main_ok, H.
Qed.

Lemma oblivious_rollUniqueTable chance killNumber :
  oblivious R (rollUniqueTable rng dropData chance killNumber).
Proof.
  unfold rollUniqueTable.
  reads. apply oblivious_when.
  reads. destruct (at_index _ _) as [d|] eqn:E; [|apply oblivious_ret].
  apply at_index_In, uniques_ok in E.
  reads. apply oblivious_then; [|apply oblivious_pushUnique].
  eapply oblivious_addToLoot; [exact R_add | exact E].
Qed.

Lemma oblivious_uniqueRolls killNumber :
  oblivious R (uniqueRolls rng dropData killNumber).
Proof.
  unfold uniqueRolls. destruct (sharedUniqueChance dropData) as [chance|].
  - apply oblivious_rollUniqueTable.
  - apply oblivious_forEach. intros d Hd.
    reads. apply oblivious_when.
    reads. apply oblivious_then; [|apply oblivious_pushUnique].
    eapply oblivious_addToLoot; [exact R_add | now apply uniques_ok].
Qed.

Lemma oblivious_tertiaryRolls killNumber :
  oblivious R (tertiaryRolls rng dropData killNumber).
Proof.
  unfold tertiaryRolls. apply oblivious_forEach. intros d Hd.
  reads. apply oblivious_when.
  reads. apply oblivious_then.
  - eapply oblivious_addToLoot; [exact R_add | now apply tertiary_ok].
  - apply oblivious_when, oblivious_pushUnique.
Qed.

Lemma oblivious_randomKillNumber killCount :
  oblivious R (randomKillNumber rng killCount).
Proof.
  unfold randomKillNumber.
  reads. apply oblivious_ret.
Qed.

#[local] Hint Resolve oblivious_randomKillNumber : oblivious.

Lemma oblivious_approxMain killCount :
  oblivious R (approxMain rng dropData killCount).
Proof.
  unfold approxMain. apply oblivious_when, oblivious_forEach.
  intros [d w] Hd. apply in_map_iff in Hd as (d' & [= <- <-] & Hd).
  reads. apply oblivious_when.
  eapply oblivious_addToLoot; [exact R_add | now apply main_ok].
Qed.

Lemma oblivious_approxUniques killCount :
  oblivious R (approxUniques rng dropData killCount).
Proof.
  unfold approxUniques. destruct (sharedUniqueChance dropData) as [chance|].
  - apply oblivious_forLoop. intros i. apply oblivious_rollUniqueTable.
  - apply oblivious_forEach. intros d Hd. unfold approxUniqueItem.
    reads. apply oblivious_forLoop. intros _.
    reads. apply oblivious_then.
    + eapply oblivious_addToLoot; [exact R_add | now apply uniques_ok].
    + reads. apply oblivious_pushUnique.
Qed.

Lemma oblivious_approxTertiary killCount :
  oblivious R (approxTertiary rng dropData killCount).
Proof.
  unfold approxTertiary. apply oblivious_forEach. intros d Hd.
  unfold approxTertiaryItem.
  reads. apply oblivious_when, oblivious_then.
  - eapply oblivious_addToLoot; [exact R_add | now apply tertiary_ok].
  - apply oblivious_when, oblivious_forLoop. intros _.
    reads. apply oblivious_pushUnique.
Qed.

(** Everything that follows the [always] drops of a kill, and of an
    approximated run. *)
Lemma oblivious_afterAlways killNumber :
  oblivious R (mainRolls rng dropData ;;; uniqueRolls rng dropData killNumber ;;;
               tertiaryRolls rng dropData killNumber).
Proof.
  apply oblivious_then; [apply oblivious_mainRolls|].
  apply oblivious_then; [apply oblivious_uniqueRolls | apply oblivious_tertiaryRolls].
Qed.

Lemma oblivious_afterApproxAlways killCount :
  oblivious R (approxMain rng dropData killCount ;;;
               approxUniques rng dropData killCount ;;;
               approxTertiary rng dropData killCount).
Proof.
  apply oblivious_then; [apply oblivious_approxMain|].
  apply oblivious_then; [apply oblivious_approxUniques | apply oblivious_approxTertiary].
Qed.

End Steps.

(** ** What the [always] drops contribute *)

Section Contributions.

Variable rng : nat -> Q.

(** [credit] writes the property [item] only. *)
Lemma credit_other item q l i : item <> i -> credit item q l !! i = l !! i.
Proof.
  intros Hne. unfold credit.
  destruct (l !! item) as [[n|member appended]|]; cbv beta iota;
    [now rewrite lookup_insert_ne..|].
  destruct (String.eqb item "__proto__"); [reflexivity|].
  destruct (inherited item); now rewrite lookup_insert_ne.
Qed.

Lemma inherited_proto i : inherited i = false -> String.eqb i "__proto__" = false.
Proof.
  intros H. destruct (String.eqb_spec i "__proto__") as [->|]; [|reflexivity].
  discriminate H.
Qed.

(** Under a name that is not inherited, a number stays a number and grows
    by the quantity that is added. *)
Lemma amount_add l item q i :
  inherited i = false -> numeric l i ->
  numeric (credit item q l) i
  /\ amount (credit item q l) i
     = amount l i + (if String.eqb item i then q else 0).
Proof.
  intros Hi Hn. destruct (String.eqb_spec item i) as [->|Hne].
  - unfold numeric, amount, credit in *.
    destruct (l !! i) as [[n|member appended]|]; [|contradiction|].
    + rewrite lookup_insert_eq. now split.
    + rewrite (inherited_proto i Hi), Hi, lookup_insert_eq. split; [exact I | lia].
  - unfold numeric, amount in *. rewrite credit_other by exact Hne.
    split; [exact Hn | lia].
Qed.

Lemma shifted_additive delta : additive (fun _ => True) (shifted delta).
Proof.
  intros item q l1 l2 _ H i Hi. destruct (H i Hi) as (H1 & H2 & E).
  destruct (amount_add l1 item q i Hi H1) as [N1 ->].
  destruct (amount_add l2 item q i Hi H2) as [N2 ->].
  repeat split; auto. lia.
Qed.

(** Leaving the property [i] alone, for additions to other items. *)
Lemma untouched_additive i (v : option LootValue) :
  additive (fun item => item <> i) (fun l _ => l !! i = v).
Proof.
  intros item q l1 l2 Hne H. now rewrite credit_other.
Qed.

(** A further shift of the left-hand loot by [q] of [item]. *)
Lemma shifted_credit delta item q l1 l2 :
  shifted delta l1 l2 ->
  shifted (fun i => delta i + (if String.eqb item i then q else 0))
    (credit item q l1) l2.
Proof.
  intros H i Hi. destruct (H i Hi) as (H1 & H2 & E).
  destruct (amount_add l1 item q i Hi H1) as [N1 ->].
  repeat split; auto. lia.
Qed.

Lemma related_ext d1 d2 st1 st2 :
  (forall i, d1 i = d2 i) ->
  related (shifted d1) st1 st2 -> related (shifted d2) st1 st2.
Proof.
  intros E (Hd & Hu & Hl). repeat split; auto; try (now apply Hl).
  rewrite <- E. now apply Hl.
Qed.

Lemma snd_bind {A B} (m : Sim A) (f : A -> Sim B) st :
  snd (bind m f st) = snd (f (fst (m st)) (snd (m st))).
Proof. unfold bind. now destruct (m st). Qed.

Lemma snd_then {A B} (m : Sim A) (k : Sim B) st :
  snd (bind m (fun _ => k) st) = snd (k (snd (m st))).
Proof. apply snd_bind. Qed.

Lemma snd_forEach_cons {A} (x : A) arr (body : A -> Sim unit) st :
  snd (forEach (x :: arr) body st) = snd (forEach arr body (snd (body x st))).
Proof. cbn [forEach]. apply snd_then. Qed.

Lemma snd_forLoop_S n from (body : Z -> Sim unit) st :
  snd (forLoop (S n) from body st)
  = snd (forLoop n (from + 1) body (snd (body from st))).
Proof. cbn [forLoop]. apply snd_then. Qed.

Lemma oblivious_alwaysDrops R ok t :
  additive ok R -> (forall d, In d (always t) -> ok (item d)) ->
  oblivious R (alwaysDrops rng t).
Proof.
  intros HR H. unfold alwaysDrops. apply oblivious_forEach. intros d Hd.
  eapply oblivious_award; [exact HR | now apply H].
Qed.

Lemma oblivious_approxAlways R ok t killCount :
  additive ok R -> (forall d, In d (always t) -> ok (item d)) ->
  oblivious R (approxAlways t killCount).
Proof.
  intros HR H. unfold approxAlways. apply oblivious_forEach. intros d Hd.
  eapply oblivious_addToLoot; [exact HR | now apply H].
Qed.

(** *** Exact mode *)

(** The [always] drops of a kill, against the same drops without the
    entries of fixed quantity: the same random values are read, and the loot
    differs by the fixed quantities. *)
Lemma alwaysDrops_shift (arr : list Drop) : forall delta st1 st2,
  related (shifted delta) st1 st2 ->
  related
    (shifted (fun i => delta i
                + totalFor i (fun d => min (quantity d))
                    (List.filter fixedQuantity arr)))
    (snd (forEach arr (fun drop =>
            qty <- getRandomQuantity rng (quantity drop) ;;
            addToLoot (item drop) qty) st1))
    (snd (forEach (List.filter (fun d => negb (fixedQuantity d)) arr)
            (fun drop =>
               qty <- getRandomQuantity rng (quantity drop) ;;
               addToLoot (item drop) qty) st2)).
Proof.
  induction arr as [|e arr IH]; intros delta st1 st2 H.
  - simpl. eapply related_ext; [|exact H]. intros i. simpl. lia.
  - cbn [List.filter]. destruct (fixedQuantity e) eqn:Hfix; cbn [negb].
    + rewrite snd_forEach_cons.
      eapply related_ext; [|apply IH with
        (delta := fun i => delta i
                    + (if String.eqb (item e) i then min (quantity e) else 0))].
      * intros i. cbn [totalFor]. lia.
      * unfold getRandomQuantity. unfold fixedQuantity in Hfix. rewrite Hfix.
        destruct H as (Hd & Hu & Hl).
        split; [exact Hd|]. split; [exact Hu|].
        cbn [bind ret addToLoot snd fst loot]. apply shifted_credit, Hl.
    + rewrite !snd_forEach_cons.
      apply IH.
      apply (oblivious_award rng _ _ (shifted_additive delta) e I st1 st2 H).
Qed.

Lemma simulateKill_shift t j delta st1 st2 :
  related (shifted delta) st1 st2 ->
  related (shifted (fun i => delta i + fixedPerKill t i))
    (snd (simulateKill rng t j st1))
    (snd (simulateKill rng (withoutFixed t) j st2)).
Proof.
  intros H. unfold simulateKill. cbv zeta.
  rewrite (snd_then (alwaysDrops rng t)),
    (snd_then (alwaysDrops rng (withoutFixed t))).
  change (mainRolls rng (withoutFixed t)) with (mainRolls rng t).
  change (uniqueRolls rng (withoutFixed t)) with (uniqueRolls rng t).
  change (tertiaryRolls rng (withoutFixed t)) with (tertiaryRolls rng t).
  apply (oblivious_afterAlways rng _ _ (shifted_additive _) t (fun _ _ => I) (j + 1)).
  apply alwaysDrops_shift, H.
Qed.

Lemma kills_shift t n : forall from delta st1 st2,
  related (shifted delta) st1 st2 ->
  related (shifted (fun i => delta i + Z.of_nat n * fixedPerKill t i))
    (snd (forLoop n from (simulateKill rng t) st1))
    (snd (forLoop n from (simulateKill rng (withoutFixed t)) st2)).
Proof.
  induction n as [|n IH]; intros from delta st1 st2 H.
  - simpl. eapply related_ext; [|exact H]. intros i. lia.
  - rewrite !snd_forLoop_S.
    eapply related_ext; [|apply IH, simulateKill_shift, H].
    intros i. cbv beta. lia.
Qed.

(** *** Approximated mode *)

Lemma approxAlways_shift killCount (arr : list Drop) : forall delta st1 st2,
  related (shifted delta) st1 st2 ->
  related
    (shifted (fun i => delta i
                + totalFor i
                    (fun d => Math_round (avgQuantity (quantity d)
                                          * inject_Z killCount)) arr))
    (snd (forEach arr (fun drop =>
            addToLoot (item drop)
              (Math_round (avgQuantity (quantity drop) * inject_Z killCount)))
            st1))
    st2.
Proof.
  induction arr as [|e arr IH]; intros delta st1 st2 H.
  - simpl. eapply related_ext; [|exact H]. intros i. simpl. lia.
  - rewrite snd_forEach_cons.
    eapply related_ext; [|apply IH with
      (delta := fun i => delta i
                  + (if String.eqb (item e) i
                     then Math_round (avgQuantity (quantity e) * inject_Z killCount)
                     else 0))].
    + intros i. cbn [totalFor]. lia.
    + destruct H as (Hd & Hu & Hl).
      split; [exact Hd|]. split; [exact Hu|].
      cbn [addToLoot snd loot]. apply shifted_credit, Hl.
Qed.

Lemma runOptimized_shift t killCount :
  related (shifted (approximatedAlways t killCount))
    (snd (runOptimizedSimulation rng t killCount initial))
    (snd (runOptimizedSimulation rng (withAlways [] t) killCount initial)).
Proof.
  unfold runOptimizedSimulation.
  rewrite (snd_then (approxAlways t killCount)),
    (snd_then (approxAlways (withAlways [] t) killCount)).
  change (approxMain rng (withAlways [] t)) with (approxMain rng t).
  change (approxUniques rng (withAlways [] t)) with (approxUniques rng t).
  change (approxTertiary rng (withAlways [] t)) with (approxTertiary rng t).
  apply (oblivious_afterApproxAlways rng _ _ (shifted_additive _) t
           (fun _ _ => I) killCount).
  eapply related_ext;
    [|apply (approxAlways_shift killCount (always t) (fun _ => 0) initial initial)].
  - intros i. unfold approximatedAlways. lia.
  - repeat split; try (intros i; lia).
Qed.

(** *** Items that no section yields *)

Lemma runSimulation_absent t killCount i :
  ~ In i (names (always t)) -> ~ In i (laterItems t) ->
  Result.loot (runSimulation rng t killCount) !! i = None.
Proof.
  intros Ha Hl.
  set (R := fun (l _ : gmap string LootValue) => l !! i = None).
  pose proof (untouched_additive i None) as HR. fold R in HR.
  assert (Hal : forall d, In d (always t) -> item d <> i).
  { intros d Hd E. apply Ha. rewrite <- E. unfold names. now apply in_map. }
  assert (Hla : forall x, In x (laterItems t) -> x <> i).
  { intros x Hx E. apply Hl. now rewrite <- E. }
  assert (H0 : related R initial initial) by (repeat split).
  unfold runSimulation. destruct (1000 <? killCount); cbn [finish Result.loot].
  - assert (O : oblivious R (runOptimizedSimulation rng t killCount)).
    { unfold runOptimizedSimulation. apply oblivious_then.
      - eapply oblivious_approxAlways; eauto.
      - eapply oblivious_afterApproxAlways; eauto. }
    apply (O initial initial H0).
  - assert (O : oblivious R (forLoop (Z.to_nat killCount) 0 (simulateKill rng t))).
    { apply oblivious_forLoop. intros j. unfold simulateKill. cbv zeta.
      apply oblivious_then.
      - eapply oblivious_alwaysDrops; eauto.
      - eapply oblivious_afterAlways; eauto. }
    apply (O initial initial H0).
Qed.

Lemma runSimulation_untouched t killCount i :
  ~ In i (names (always t)) -> ~ In i (laterItems t) ->
  amount (Result.loot (runSimulation rng t killCount)) i = 0.
Proof.
  intros Ha Hl. unfold amount. now rewrite runSimulation_absent.
Qed.

End Contributions.

Section AlwaysTotals.

Variable rng : nat -> Q.

Lemma amount_lookup (l : gmap string LootValue) i v :
  amount l i = v -> v <> 0 -> l !! i = Some (Count v).
Proof.
  unfold amount. destruct (l !! i) as [[n|member appended]|];
    intros H Hv; congruence.
Qed.

Lemma names_withoutFixed t i :
  (forall d, In d (always t) -> item d = i -> fixedQuantity d = true) ->
  ~ In i (names (always (withoutFixed t))).
Proof.
  intros H Hin. unfold names, withoutFixed, withAlways in Hin. cbn [always] in Hin.
  apply in_map_iff in Hin as (d & E & Hd). apply filter_In in Hd as [Hd Hfix].
  rewrite (H d Hd E) in Hfix. discriminate.
Qed.

Lemma related_initial : related (shifted (fun _ => 0)) initial initial.
Proof.
  repeat split; try reflexivity; unfold numeric; now rewrite lookup_empty.
Qed.

(** Exact mode: the run of a table against the run of the table without its
    fixed [always] entries. *)
Lemma exact_contribution t killCount :
  0 <= killCount <= 1000 ->
  let r := runSimulation rng t killCount in
  let r' := runSimulation rng (withoutFixed t) killCount in
  Result.uniqueDrops r = Result.uniqueDrops r'
  /\ forall i, inherited i = false ->
               amount (Result.loot r) i
               = amount (Result.loot r') i + killCount * fixedPerKill t i.
Proof.
  intros Hk r r'. subst r r'. unfold runSimulation.
  replace (1000 <? killCount) with false by (symmetry; apply Z.ltb_ge; lia).
  cbn [finish Result.loot Result.uniqueDrops].
  destruct (kills_shift rng t (Z.to_nat killCount) 0 (fun _ => 0) initial initial
              related_initial) as (_ & Hu & Hl).
  split; [exact Hu|]. intros i Hi. destruct (Hl i Hi) as (_ & _ & ->).
  rewrite Z2Nat.id by lia. lia.
Qed.

Lemma exact_only_always t killCount i :
  0 <= killCount <= 1000 ->
  inherited i = false ->
  ~ In i (laterItems t) ->
  (forall d, In d (always t) -> item d = i -> fixedQuantity d = true) ->
  amount (Result.loot (runSimulation rng t killCount)) i
  = killCount * fixedPerKill t i.
Proof.
  intros Hk Hi Hl Hfix.
  destruct (exact_contribution t killCount Hk) as [_ H]. rewrite (H i Hi).
  rewrite runSimulation_untouched; [lia | now apply names_withoutFixed | exact Hl].
Qed.

(** Approximated mode: the run of a table against the run of the table
    without [always] entries. *)
Lemma approximated_contribution t killCount :
  1000 < killCount ->
  let r := runSimulation rng t killCount in
  let r' := runSimulation rng (withAlways [] t) killCount in
  Result.uniqueDrops r = Result.uniqueDrops r'
  /\ forall i, inherited i = false ->
               amount (Result.loot r) i
               = amount (Result.loot r') i + approximatedAlways t killCount i.
Proof.
  intros Hk r r'. subst r r'. unfold runSimulation.
  replace (1000 <? killCount) with true by (symmetry; apply Z.ltb_lt; lia).
  cbn [finish Result.loot Result.uniqueDrops].
  destruct (runOptimized_shift rng t killCount) as (_ & Hu & Hl).
  split; [exact Hu|]. intros i Hi. now destruct (Hl i Hi) as (_ & _ & ->).
Qed.

Lemma approximated_only_always t killCount i :
  1000 < killCount ->
  inherited i = false ->
  ~ In i (laterItems t) ->
  amount (Result.loot (runSimulation rng t killCount)) i
  = approximatedAlways t killCount i.
Proof.
  intros Hk Hi Hl.
  destruct (approximated_contribution t killCount Hk) as [_ H]. rewrite (H i Hi).
  rewrite runSimulation_untouched; [lia | simpl; tauto | exact Hl].
Qed.

(** The steps after the [always] drops of the approximated mode leave the
    property of an item alone that only [always] entries yield. *)
Lemma approximated_always_entry t killCount i :
  ~ In i (laterItems t) ->
  loot (snd (runOptimizedSimulation rng t killCount initial)) !! i
  = loot (snd (approxAlways t killCount initial)) !! i.
Proof.
  intros Hl. unfold runOptimizedSimulation. rewrite snd_then.
  set (st := snd (approxAlways t killCount initial)).
  set (R := fun (l _ : gmap string LootValue) => l !! i = loot st !! i).
  assert (Hla : forall x, In x (laterItems t) -> x <> i).
  { intros x Hx E. apply Hl. now rewrite <- E. }
  apply (oblivious_afterApproxAlways rng R _ (untouched_additive i _) t Hla
           killCount st st).
  repeat split.
Qed.

End AlwaysTotals.

Lemma ashes_not_later : ~ In "Infernal ashes" (laterItems getCerberusHardcodedDrops).
Proof.
  intros H. vm_compute in H.
  repeat (destruct H as [H|H]; [discriminate H|]). exact H.
Qed.

(** *** The rounding of the approximated mode, against the specification *)

Lemma Qfloor_between (x : Q) (z : Z) :
  (inject_Z z <= x)%Q -> (x < inject_Z (z + 1))%Q -> Qfloor x = z.
Proof.
  intros Hle Hlt.
  assert (H1 : z <= Qfloor x).
  { rewrite <- (Qfloor_Z z). now apply Qfloor_resp_le. }
  assert (H2 : Qfloor x < z + 1).
  { rewrite Zlt_Qlt. eapply Qle_lt_trans; [apply Qfloor_le | exact Hlt]. }
  lia.
Qed.

(** [Math.round] is the rounding of the specification. *)
Lemma Math_round_nearest (x : Q) : Math_round x = Spec.round x.
Proof.
  unfold Math_round, Spec.round.
  pose proof (Qfloor_le x) as Hlo. pose proof (Qlt_floor x) as Hhi.
  rewrite inject_Z_plus in Hhi. change (inject_Z 1) with 1%Q in Hhi.
  destruct (Qle_bool (1 # 2) (x - inject_Z (Qfloor x))) eqn:E.
  - apply Qle_bool_iff in E. apply Qfloor_between.
    + rewrite inject_Z_plus. change (inject_Z 1) with 1%Q. Lqa.lra.
    + rewrite !inject_Z_plus. change (inject_Z 1) with 1%Q. Lqa.lra.
  - assert (H : ~ (1 # 2 <= x - inject_Z (Qfloor x))%Q).
    { intros H. apply Qle_bool_iff in H. congruence. }
    apply Qfloor_between.
    + Lqa.lra.
    + rewrite inject_Z_plus. change (inject_Z 1) with 1%Q. Lqa.lra.
Qed.

Lemma alwaysTotal_round (q : Quantity) (killCount : Z) :
  Math_round (avgQuantity q * inject_Z killCount) = Spec.alwaysTotal q killCount.
Proof.
  unfold Spec.alwaysTotal. rewrite <- Math_round_nearest. unfold Math_round.
  apply Qfloor_comp. unfold avgQuantity. rewrite inject_Z_plus. reflexivity.
Qed.

(** The total of the specification, in integers: twice the total is
    [(min + max) * killCount], or one more. *)
Lemma alwaysTotal_nearest (q : Quantity) (killCount : Z) :
  2 * Spec.alwaysTotal q killCount - 1
  <= (min q + max q) * killCount
  <= 2 * Spec.alwaysTotal q killCount.
Proof.
  rewrite <- alwaysTotal_round. unfold Math_round, avgQuantity.
  rewrite (Qfloor_comp _ (((min q + max q) * killCount + 1) # 2)).
  - unfold Qfloor. cbn [Qnum Qden].
    pose proof (Z.div_mod ((min q + max q) * killCount + 1) 2 ltac:(lia)).
    pose proof (Z.mod_pos_bound ((min q + max q) * killCount + 1) 2 ltac:(lia)).
    lia.
  - unfold Qeq, Qplus, Qmult, Qdiv, Qinv, inject_Z. cbn. lia.
Qed.

Lemma approximatedAlways_total t killCount i :
  approximatedAlways t killCount i
  = totalFor i (fun d => Spec.alwaysTotal (quantity d) killCount) (always t).
Proof.
  unfold approximatedAlways. induction (always t) as [|d ds IH]; [reflexivity|].
  cbn [totalFor]. now rewrite IH, alwaysTotal_round.
Qed.

(** The texts of the approximated mode: under the name of an inherited
    member other than [__proto__], the totals are appended one after the
    other. *)
Lemma credits_text i (f : Drop -> Z) (arr : list Drop) :
  inherited i = true -> i <> "__proto__" ->
  forall (appended : list Z) st,
    loot st !! i
    = (if decide (appended = []) then None else Some (Text i appended)) ->
    let added := map f (List.filter (fun d => String.eqb (item d) i) arr) in
    loot (snd (forEach arr (fun d => addToLoot (item d) (f d)) st)) !! i
    = (if decide (appended ++ added = []) then None
       else Some (Text i (appended ++ added))).
Proof.
  intros Hi Hp. induction arr as [|d arr IH]; intros appended st Hst; cbv zeta.
  - cbn [List.filter map forEach ret snd]. now rewrite app_nil_r.
  - rewrite snd_forEach_cons. cbn [List.filter].
    destruct (String.eqb_spec (item d) i) as [E|Hne].
    + cbn [map]. replace (appended ++ f d :: map f (List.filter _ arr))
        with ((appended ++ [f d]) ++ map f (List.filter
                (fun d => String.eqb (item d) i) arr))
        by now rewrite <- app_assoc.
      apply IH. cbn [addToLoot snd loot]. rewrite E. unfold credit.
      rewrite Hst. apply String.eqb_neq in Hp.
      destruct (decide (appended ++ [f d] = [])) as [F|_];
        [now apply app_eq_nil in F as [_ F]|].
      destruct (decide (appended = [])) as [->|_].
      * now rewrite Hp, Hi, lookup_insert_eq.
      * now rewrite lookup_insert_eq.
    + apply IH. cbn [addToLoot snd loot]. now rewrite credit_other.
Qed.

(** Nothing is ever stored under [__proto__]. *)
Lemma proto_additive :
  additive (fun _ => True)
    (fun (l _ : gmap string LootValue) => l !! "__proto__" = None).
Proof.
  intros item q l1 l2 _ H.
  destruct (String.eqb_spec item "__proto__") as [->|Hne].
  - unfold credit. now rewrite H.
  - now rewrite credit_other.
Qed.

Lemma approximated_proto rng t killCount :
  loot (snd (runOptimizedSimulation rng t killCount initial)) !! "__proto__"
  = None.
Proof.
  set (R := fun (l _ : gmap string LootValue) => l !! "__proto__" = None).
  assert (O : oblivious R (runOptimizedSimulation rng t killCount)).
  { unfold runOptimizedSimulation. apply oblivious_then.
    - apply (oblivious_approxAlways R (fun _ => True) t killCount
               proto_additive). intros; exact I.
    - apply (oblivious_afterApproxAlways rng R (fun _ => True) proto_additive t).
      intros; exact I. }
  apply (O initial initial). repeat split.
Qed.

(** The text of the approximated mode for an item that only [always]
    entries yield: the totals of the specification, in the order of the
    entries. *)
Lemma approximated_text rng t killCount i :
  1000 < killCount ->
  inherited i = true -> i <> "__proto__" ->
  ~ In i (laterItems t) -> In i (names (always t)) ->
  Result.loot (runSimulation rng t killCount) !! i
  = Some (Text i (map (fun d => Spec.alwaysTotal (quantity d) killCount)
                    (List.filter (fun d => String.eqb (item d) i) (always t)))).
Proof.
  intros Hk Hi Hp Hlater Hin. unfold runSimulation.
  replace (1000 <? killCount) with true by (symmetry; apply Z.ltb_lt; lia).
  cbn [finish Result.loot]. rewrite approximated_always_entry by exact Hlater.
  unfold approxAlways. cbv zeta.
  pose proof (credits_text i
                (fun d => Math_round (avgQuantity (quantity d) * inject_Z killCount))
                (always t) Hi Hp [] initial eq_refl) as H.
  cbv zeta beta in H. rewrite H. clear H. cbn [app].
  assert (E : map (fun d => Math_round (avgQuantity (quantity d)
                                          * inject_Z killCount))
                (List.filter (fun d => String.eqb (item d) i) (always t))
              = map (fun d => Spec.alwaysTotal (quantity d) killCount)
                  (List.filter (fun d => String.eqb (item d) i) (always t))).
  { apply map_ext. intros d. apply alwaysTotal_round. }
  rewrite E. destruct (decide (_ = [])) as [F|_]; [|reflexivity].
  exfalso. unfold names in Hin. apply in_map_iff in Hin as (d & Ed & Hd).
  assert (Hf : In d (List.filter (fun d => String.eqb (item d) i) (always t)))
    by (apply filter_In; split; [exact Hd | now apply String.eqb_eq]).
  apply (in_map (fun d => Spec.alwaysTotal (quantity d) killCount)) in Hf.
  rewrite F in Hf. destruct Hf.
Qed.

(** C8. An [always] entry of quantity [{3, 3}] named like a member of
    [Object.prototype]: after one kill its property of [loot] is not the
    number 3.  A page with the line
    [{{DropsLine|name=constructor|quantity=3|rarity=Always}}] in its section
    of certain drops is parsed into a table with that entry; for every
    random stream, [loot.constructor] is then the text of the inherited
    function followed by the numeral 3.  For an entry named [__proto__]
    nothing is stored at all, while an entry named [Bones] yields the number
    3. *)
Theorem exact_mode_inherited_item_not_counted (rng : nat -> Q) :
  let entry := fun i =>
    {| item := i; quantity := {| min := 3; max := 3 |};
       rarity := 1; rarityText := "Always" |} in
  let page :=
    "===100%==={{DropsLine|name=constructor|quantity=3|rarity=Always}}{{DropsTableBottom}}"
  in
  let t := parseDropTables page "Goblin" in
  t = {| name := "Goblin"; mainTableRolls := 1; uniqueTableChance := None;
         always := [entry "constructor"]; uniques := []; main := [];
         tertiary := [] |}
  /\ fixedQuantity (entry "constructor") = true
  /\ Result.loot (runSimulation rng t 1) !! "constructor"
     = Some (Text "constructor" [3])
  /\ Result.loot (runSimulation rng t 1) !! "constructor" <> Some (Count 3)
  /\ Result.loot (runSimulation rng (onlyAlways (entry "__proto__")) 1) = ∅
  /\ Result.loot (runSimulation rng (onlyAlways (entry "Bones")) 1) !! "Bones"
     = Some (Count 3).
Proof.
  intros entry page t.
  assert (Ht : t = {| name := "Goblin"; mainTableRolls := 1;
                      uniqueTableChance := None;
                      always := [entry "constructor"]; uniques := [];
                      main := []; tertiary := [] |}) by (vm_compute; reflexivity).
  split; [exact Ht|]. rewrite Ht. clear Ht t.
  split; [reflexivity|].
  split; [vm_compute; reflexivity|].
  split; [intros H; vm_compute in H; discriminate H|].
  split; vm_compute; reflexivity.
Qed.

(** X11. In exact mode an [always] entry of fixed quantity [{q, q}] whose
    item is not named like a member of [Object.prototype] adds
    [q * killCount] to the loot of its item whatever the random values are:
    the run equals the run of the table without these entries, with
    [killCount] times their quantities added; an item that only such entries
    yield ends with exactly that total.  One kill of a table with the single
    [always] entry of quantity [{3, 3}] yields 3 of its item, and one kill of
    the hardcoded Cerberus table yields exactly one Infernal ashes. *)
Theorem exact_mode_fixed_always :
  (forall (rng : nat -> Q) (t : DropTable) (killCount : Z),
      0 <= killCount <= 1000 ->
      let r := runSimulation rng t killCount in
      let r' := runSimulation rng (withoutFixed t) killCount in
      Result.uniqueDrops r = Result.uniqueDrops r'
      /\ (forall i,
            inherited i = false ->
            amount (Result.loot r) i
            = amount (Result.loot r') i + killCount * fixedPerKill t i)
      /\ (forall i,
            inherited i = false ->
            ~ In i (laterItems t) ->
            (forall d, In d (always t) -> item d = i -> fixedQuantity d = true) ->
            amount (Result.loot r) i = killCount * fixedPerKill t i))
  /\ (forall (rng : nat -> Q) (e : Drop) (n : string) (rolls : Z)
             (chance : option Q),
        inherited (item e) = false ->
        quantity e = {| min := 3; max := 3 |} ->
        Result.loot
          (runSimulation rng
             {| name := n; mainTableRolls := rolls; uniqueTableChance := chance;
                always := [e]; uniques := []; main := []; tertiary := [] |} 1)
        !! item e = Some (Count 3))
  /\ (forall rng : nat -> Q,
        Result.loot (runSimulation rng getCerberusHardcodedDrops 1)
        !! "Infernal ashes" = Some (Count 1)).
Proof.
  split; [|split].
  - intros rng t killCount Hk r r'.
    destruct (exact_contribution rng t killCount Hk) as [Hu Hl].
    split; [exact Hu|]. split; [exact Hl|].
    intros i Hi Hlater Hfix. now apply exact_only_always.
  - intros rng e n rolls chance Hi Hq.
    apply amount_lookup; [|discriminate].
    rewrite exact_only_always; [| lia | exact Hi | simpl; tauto |].
    + unfold fixedPerKill, fixedQuantity. cbn [always List.filter].
      rewrite Hq. cbn [min max Z.eqb Pos.eqb totalFor].
      now rewrite String.eqb_refl, Hq.
    + intros d [<-|[]] _. unfold fixedQuantity. now rewrite Hq.
  - intros rng. apply amount_lookup; [|discriminate].
    rewrite exact_only_always;
      [reflexivity | lia | reflexivity | exact ashes_not_later |].
    intros d [<-|[]] _. reflexivity.
Qed.

Lemma exact_mode_fixed_always_witness :
  amount (Result.loot (runSimulation (fun _ => 1 # 3) kingBlackDragonDrops 7))
    "Dragon bones" = 7.
Proof.
  destruct exact_mode_fixed_always as (H & _ & _).
  destruct (H (fun _ => 1 # 3) kingBlackDragonDrops 7) as (_ & _ & Honly); [lia|].
  rewrite Honly; [reflexivity | reflexivity | |].
  - intros Hin. vm_compute in Hin.
    repeat (destruct Hin as [Hin|Hin]; [discriminate Hin|]). exact Hin.
  - intros d [<-|[]] _. reflexivity.
Defined.

(** C9. An [always] entry named like a member of [Object.prototype] in
    approximated mode: a page with the line
    [{{DropsLine|name=constructor|quantity=1-2|rarity=Always}}] in its
    section of certain drops is parsed into a table with that entry of range
    [{1, 2}]; with 2001 kills the total [round(1.5 * 2001) = 3002] is not
    stored as a number: [loot.constructor] is the text of the inherited
    function followed by the numeral 3002, for every random stream.  For an
    entry named [__proto__] nothing is stored at all, while an entry named
    [Ashes] yields the number 3002. *)
Theorem approximated_mode_inherited_item_not_counted (rng : nat -> Q) :
  let entry := fun i =>
    {| item := i; quantity := {| min := 1; max := 2 |};
       rarity := 1; rarityText := "Always" |} in
  let page :=
    "===100%==={{DropsLine|name=constructor|quantity=1-2|rarity=Always}}{{DropsTableBottom}}"
  in
  let t := parseDropTables page "Goblin" in
  t = {| name := "Goblin"; mainTableRolls := 1; uniqueTableChance := None;
         always := [entry "constructor"]; uniques := []; main := [];
         tertiary := [] |}
  /\ Spec.alwaysTotal {| min := 1; max := 2 |} 2001 = 3002
  /\ Result.loot (runSimulation rng t 2001) !! "constructor"
     = Some (Text "constructor" [3002])
  /\ Result.loot (runSimulation rng t 2001) !! "constructor"
     <> Some (Count 3002)
  /\ Result.loot (runSimulation rng (onlyAlways (entry "__proto__")) 2001) = ∅
  /\ Result.loot (runSimulation rng (onlyAlways (entry "Ashes")) 2001) !! "Ashes"
     = Some (Count 3002).
Proof.
  intros entry page t.
  assert (Ht : t = {| name := "Goblin"; mainTableRolls := 1;
                      uniqueTableChance := None;
                      always := [entry "constructor"]; uniques := [];
                      main := []; tertiary := [] |}) by (vm_compute; reflexivity).
  split; [exact Ht|]. rewrite Ht. clear Ht t.
  split; [vm_compute; reflexivity|].
  split; [vm_compute; reflexivity|].
  split; [intros H; vm_compute in H; discriminate H|].
  split; vm_compute; reflexivity.
Qed.

(** X24. In approximated mode every [always] drop adds the total of the
    specification, [round(((min + max) / 2) * killCount)] with halves going
    up, and reads no random value.  For the items that are not named like a
    member of [Object.prototype], the run equals the run of the table
    without [always] entries with these totals added, and an item that only
    [always] entries yield ends with exactly their sum.  Under the name of
    an inherited member, an item that only [always] entries yield holds the
    text of that member followed by the totals of its entries, in order, and
    nothing is ever stored under [__proto__].  The property of an item that
    only [always] entries yield, whatever its name, is the same in any two
    runs.  Twice the total is [(min + max) * killCount], or one more. *)
Theorem approximated_mode_always (rng : nat -> Q) (t : DropTable) (killCount : Z) :
  1000 < killCount ->
  let r := runSimulation rng t killCount in
  let r' := runSimulation rng (withAlways [] t) killCount in
  let total := fun d => Spec.alwaysTotal (quantity d) killCount in
  Result.uniqueDrops r = Result.uniqueDrops r'
  /\ (forall i,
        inherited i = false ->
        amount (Result.loot r) i
        = amount (Result.loot r') i + totalFor i total (always t))
  /\ (forall i,
        inherited i = false -> ~ In i (laterItems t) ->
        amount (Result.loot r) i = totalFor i total (always t))
  /\ (forall i,
        inherited i = true -> i <> "__proto__" ->
        ~ In i (laterItems t) -> In i (names (always t)) ->
        Result.loot r !! i
        = Some (Text i (map total
                          (List.filter (fun d => String.eqb (item d) i)
                             (always t)))))
  /\ Result.loot r !! "__proto__" = None
  /\ (forall (rng2 : nat -> Q) i,
        ~ In i (laterItems t) ->
        Result.loot (runSimulation rng2 t killCount) !! i = Result.loot r !! i)
  /\ (forall d,
        2 * total d - 1
        <= (min (quantity d) + max (quantity d)) * killCount
        <= 2 * total d).
Proof.
  intros Hk r r' total.
  destruct (approximated_contribution rng t killCount Hk) as [Hu Hl].
  assert (Hmode : (1000 <? killCount) = true) by (apply Z.ltb_lt; lia).
  split; [exact Hu|]. split; [|split; [|split; [|split; [|split]]]].
  - intros i Hi. subst r r' total. cbv zeta in Hl.
    now rewrite (Hl i Hi), approximatedAlways_total.
  - intros i Hi Hlater. subst r total.
    now rewrite approximated_only_always, approximatedAlways_total.
  - intros i Hi Hp Hlater Hin. now apply approximated_text.
  - subst r. unfold runSimulation. rewrite Hmode. cbn [finish Result.loot].
    apply approximated_proto.
  - intros rng2 i Hlater. subst r. unfold runSimulation. rewrite Hmode.
    cbn [finish Result.loot].
    now rewrite !approximated_always_entry.
  - intros d. exact (alwaysTotal_nearest (quantity d) killCount).
Qed.

Lemma approximated_mode_always_witness :
  let t := onlyAlways {| item := "Ashes"; quantity := {| min := 1; max := 2 |};
                         rarity := 1; rarityText := "Always" |} in
  amount (Result.loot (runSimulation (fun _ => 1 # 3) t 2001)) "Ashes" = 3002.
Proof.
  intros t.
  destruct (approximated_mode_always (fun _ => 1 # 3) t 2001)
    as (_ & _ & H & _); [lia|].
  rewrite H; [reflexivity | reflexivity |].
  intros Hin. vm_compute in Hin. exact Hin.
Defined.

(** ** The jittered count of the approximated mode *)

Section Jitter.

Lemma Q2R_nonneg q : (0 <= q)%Q -> (0 <= Q2R q)%R.
Proof. intros H. apply Qle_Rle in H. now rewrite RMicromega.Q2R_0 in H. Qed.

Lemma expected_nonneg (killCount : Z) (rarity : Q) :
  (0 < rarity)%Q -> 0 <= killCount -> (0 <= inject_Z killCount / rarity)%Q.
Proof.
  intros Hr Hk. apply Qle_shift_div_l; [exact Hr|].
  rewrite Qmult_0_l. unfold Qle. simpl. lia.
Qed.

(** [e + (u - 1/2) * sqrt e = (sqrt e - 1/4)^2 - 1/16 + u * sqrt e]. *)
Lemma jitterArg_lower (e u : Q) :
  (0 <= e)%Q -> (0 <= u)%Q -> (- (1 / 16) <= jitterArg e u)%R.
Proof.
  intros He Hu. apply Q2R_nonneg in He, Hu. unfold jitterArg.
  pose proof (sqrt_pos (Q2R e)) as Hs.
  pose proof (sqrt_sqrt (Q2R e) He) as Hss.
  set (s := sqrt (Q2R e)) in *.
  pose proof (Rmult_le_pos _ _ Hu Hs) as Hus.
  pose proof (Rle_0_sqr (s - 1 / 4)) as Hsq. unfold Rsqr in Hsq.
  rewrite <- Hss. nra.
Qed.

Lemma Int_part_nonneg (x : R) : (0 <= x)%R -> 0 <= Int_part x.
Proof.
  intros Hx. unfold Int_part. destruct (archimed x) as [Hup _].
  assert (H : (0 < IZR (up x))%R) by lra.
  apply lt_IZR in H. lia.
Qed.

Lemma jitter_nonneg (e u : Q) : (0 <= e)%Q -> (0 <= u)%Q -> 0 <= jitter e u.
Proof.
  intros He Hu. unfold jitter, Math_round_R. apply Int_part_nonneg.
  pose proof (jitterArg_lower e u He Hu). lra.
Qed.

End Jitter.

(** ** The loops that emit the jittered counts *)

Section ApproximatedLoops.

Variable rng : nat -> Q.
Hypothesis rng_unit : unitDraws rng.

Lemma grows_refl st : grows st st.
Proof. intros i. lia. Qed.

Lemma grows_trans st1 st2 st3 : grows st1 st2 -> grows st2 st3 -> grows st1 st3.
Proof. intros H1 H2 i. specialize (H1 i). specialize (H2 i). lia. Qed.

Lemma Qfloor_nonneg x : (0 <= x)%Q -> 0 <= Qfloor x.
Proof. intros H. apply (Qfloor_resp_le 0 x) in H. exact H. Qed.

Lemma inject_Z_nonneg z : 0 <= z -> (0 <= inject_Z z)%Q.
Proof. intros H. unfold Qle. simpl. lia. Qed.

(** A sampled quantity is at least the minimum of its range. *)
Lemma getRandomQuantity_min q st :
  min q <= max q ->
  min q <= fst (getRandomQuantity rng q st)
  /\ loot (snd (getRandomQuantity rng q st)) = loot st
  /\ uniqueDrops (snd (getRandomQuantity rng q st)) = uniqueDrops st.
Proof.
  intros Hq. unfold getRandomQuantity. destruct (min q =? max q).
  - simpl. repeat split. lia.
  - unfold bind, Math_random, ret. cbn [fst snd loot uniqueDrops draws].
    repeat split.
    assert (0 <= Math_floor (rng (draws st) * inject_Z (max q - min q + 1))); [|lia].
    apply Qfloor_nonneg, Qmult_le_0_compat; [apply rng_unit|].
    apply inject_Z_nonneg. lia.
Qed.

Lemma addToLoot_grows item q st :
  0 <= q ->
  grows st (snd (addToLoot item q st))
  /\ uniqueDrops (snd (addToLoot item q st)) = uniqueDrops st.
Proof.
  intros Hq. split; [|reflexivity]. intros i. cbn [addToLoot snd loot].
  destruct (String.eqb_spec item i) as [->|Hne].
  - unfold amount, credit.
    destruct (loot st !! i) as [[n|member appended]|] eqn:E.
    + rewrite lookup_insert_eq. lia.
    + rewrite lookup_insert_eq. lia.
    + destruct (String.eqb i "__proto__"); [rewrite E; lia|].
      destruct (inherited i); rewrite lookup_insert_eq; lia.
  - unfold amount. rewrite credit_other by exact Hne. lia.
Qed.

Lemma award_grows d st :
  validQuantity (quantity d) ->
  let st' := snd ((qty <- getRandomQuantity rng (quantity d) ;;
                   addToLoot (item d) qty) st) in
  grows st st' /\ uniqueDrops st' = uniqueDrops st.
Proof.
  intros [H1 H2] st'. subst st'. rewrite snd_bind.
  destruct (getRandomQuantity_min (quantity d) st H2) as (Hq & Hl & Hu).
  set (q := fst (getRandomQuantity rng (quantity d) st)) in *.
  set (st1 := snd (getRandomQuantity rng (quantity d) st)) in *.
  destruct (addToLoot_grows (item d) q st1) as [Hg Hu']; [lia|].
  split; [|congruence].
  intros i. specialize (Hg i). unfold amount in *. rewrite <- Hl. exact Hg.
Qed.

Lemma randomKill_push d killCount st :
  let st' := snd ((killNumber <- randomKillNumber rng killCount ;;
                   pushUnique d killNumber) st) in
  loot st' = loot st /\ events st' = events st + 1.
Proof.
  cbn. split; [reflexivity|]. unfold events. cbn. rewrite length_app. simpl. lia.
Qed.

(** A loop whose every turn lets the loot grow and records [c] events. *)
Lemma forLoop_grows (body : Z -> Sim unit) (c : Z) n :
  (forall j st, grows st (snd (body j st))
                /\ events (snd (body j st)) = events st + c) ->
  forall from st,
    grows st (snd (forLoop n from body st))
    /\ events (snd (forLoop n from body st)) = events st + Z.of_nat n * c.
Proof.
  intros Hbody. induction n as [|n IH]; intros from st.
  - simpl. split; [apply grows_refl | lia].
  - rewrite snd_forLoop_S. destruct (Hbody from st) as [Hg He].
    destruct (IH (from + 1) (snd (body from st))) as [Hg' He'].
    split; [eapply grows_trans; eauto | lia].
Qed.

(** The unique item with its own rate: [jitter] times a quantity and an
    event. *)
Lemma approxUniqueItem_count killCount d st :
  validQuantity (quantity d) ->
  let actualDrops :=
    jitter (inject_Z killCount / rarity d) (rng (draws st)) in
  let st' := snd (approxUniqueItem rng killCount d st) in
  0 <= actualDrops ->
  grows st st' /\ events st' = events st + actualDrops.
Proof.
  intros Hq actualDrops st' Hn. subst st'. unfold approxUniqueItem.
  rewrite snd_bind. cbn [Math_random fst snd]. fold actualDrops.
  match goal with
  | |- context [forLoop ?n ?z ?body ?s] =>
      assert (Hbody : forall j st0, grows st0 (snd (body j st0))
                        /\ events (snd (body j st0)) = events st0 + 1);
      [| destruct (forLoop_grows body 1 n Hbody z s) as [Hg He]]
  end.
  - intros _ s. rewrite snd_bind.
    destruct (getRandomQuantity_min (quantity d) s) as (Hmin & Hl & Hu);
      [apply Hq|].
    set (q := fst (getRandomQuantity rng (quantity d) s)) in *.
    set (s1 := snd (getRandomQuantity rng (quantity d) s)) in *.
    rewrite snd_then.
    destruct (addToLoot_grows (item d) q s1) as [Hg Hu']; [destruct Hq; lia|].
    destruct (randomKill_push d killCount (snd (addToLoot (item d) q s1)))
      as [Hl' He'].
    split.
    + intros i. specialize (Hg i). unfold amount in *.
      rewrite Hl', <- Hl. exact Hg.
    + rewrite He'. unfold events. now rewrite Hu', Hu.
  - split; [exact Hg|]. rewrite He. unfold events. cbn. lia.
Qed.

(** The tertiary item: a total for [jitter] drops and, for a rarity of 1000
    or more, as many events. *)
Lemma approxTertiaryItem_count killCount d st :
  validQuantity (quantity d) ->
  let actualDrops :=
    jitter (inject_Z killCount / rarity d) (rng (draws st)) in
  let st' := snd (approxTertiaryItem rng killCount d st) in
  0 <= actualDrops ->
  grows st st'
  /\ events st' = events st + (if Qle_bool 1000 (rarity d) then actualDrops else 0).
Proof.
  intros Hq actualDrops st' Hn. subst st'. unfold approxTertiaryItem.
  rewrite snd_bind. cbn [Math_random fst snd]. fold actualDrops.
  set (s0 := {| loot := loot st; uniqueDrops := uniqueDrops st;
                draws := S (draws st) |}).
  assert (H0 : grows st s0 /\ events s0 = events st) by (split; [intros i; cbn; lia | reflexivity]).
  destruct H0 as [Hg0 He0].
  destruct (0 <? actualDrops) eqn:Hpos; cbn [when].
  - rewrite snd_then.
    set (total := Math_round (inject_Z actualDrops * avgQuantity (quantity d))).
    destruct (addToLoot_grows (item d) total s0) as [Hg Hu].
    { apply Qfloor_nonneg. apply Qle_trans with (0 + (1 # 2))%Q; [discriminate|].
      apply Qplus_le_l, Qmult_le_0_compat; [now apply inject_Z_nonneg|].
      unfold avgQuantity. apply Qle_shift_div_l; [reflexivity|].
      rewrite Qmult_0_l. apply inject_Z_nonneg. destruct Hq. lia. }
    set (s1 := snd (addToLoot (item d) total s0)) in *.
    assert (He1 : events s1 = events st) by (unfold events; now rewrite Hu).
    destruct (Qle_bool 1000 (rarity d)); cbn [when].
    + match goal with
      | |- context [forLoop ?n ?z ?body ?s] =>
          assert (Hbody : forall j st0, grows st0 (snd (body j st0))
                            /\ events (snd (body j st0)) = events st0 + 1);
          [| destruct (forLoop_grows body 1 n Hbody z s) as [Hg' He]]
      end.
      * intros _ s. destruct (randomKill_push d killCount s) as [Hl He].
        split; [|exact He]. intros i. unfold amount. rewrite Hl. lia.
      * split; [eapply grows_trans; eauto|]. rewrite He, He1. lia.
    + split; [exact Hg|]. cbn [ret snd]. rewrite He1. lia.
  - split; [exact Hg0|]. cbn [ret snd]. rewrite He0.
    destruct (Qle_bool _ _); lia.
Qed.

End ApproximatedLoops.

(** C10. For a rarity above 0, a kill count of at least 0 and a draw [u] in
    [[0, 1)], the argument [expected + (u - 1/2) * sqrt expected] of the
    rounding, with [expected = killCount / rarity], is at least [-1/16], and
    the jittered count is not negative, so the loop over it runs exactly that
    many times.  For drops of the data model, the loop for a unique item
    records that many notable drops, the loop for a tertiary item of rarity
    1000 or more as well, and neither lets the loot of any item shrink. *)
Theorem jittered_count_never_negative :
  (forall (rarity : Q) (killCount : Z) (u : Q),
      (0 < rarity)%Q -> 0 <= killCount -> (0 <= u)%Q -> (u < 1)%Q ->
      let expectedDrops := (inject_Z killCount / rarity)%Q in
      (- (1 / 16) <= jitterArg expectedDrops u)%R
      /\ 0 <= jitter expectedDrops u
      /\ Z.of_nat (Z.to_nat (jitter expectedDrops u)) = jitter expectedDrops u)
  /\ (forall (rng : nat -> Q) (killCount : Z) (d : Drop) (st : SimState),
        unitDraws rng -> (0 < rarity d)%Q -> 0 <= killCount ->
        validQuantity (quantity d) ->
        let actualDrops :=
          jitter (inject_Z killCount / rarity d) (rng (draws st)) in
        (let st' := snd (approxUniqueItem rng killCount d st) in
         grows st st' /\ events st' = events st + actualDrops)
        /\ (let st' := snd (approxTertiaryItem rng killCount d st) in
            grows st st'
            /\ events st' = events st
                            + (if Qle_bool 1000 (rarity d) then actualDrops else 0))).
Proof.
  split.
  - intros rarity killCount u Hr Hk Hu _ expectedDrops.
    pose proof (expected_nonneg killCount rarity Hr Hk) as He.
    pose proof (jitter_nonneg expectedDrops u He Hu) as Hj.
    split; [now apply jitterArg_lower|]. split; [exact Hj | now apply Z2Nat.id].
  - intros rng killCount d st Hrng Hr Hk Hq actualDrops.
    assert (Hn : 0 <= actualDrops).
    { apply jitter_nonneg; [now apply expected_nonneg | apply Hrng]. }
    split.
    + now apply approxUniqueItem_count.
    + now apply approxTertiaryItem_count.
Qed.

Lemma jittered_count_never_negative_witness :
  0 <= jitter (inject_Z 2000 / 512) 0
  /\ events (snd (approxUniqueItem (fun _ => 0%Q) 2000
                    (drop "Dragon pickaxe" 1 1 1500 "1/1500") initial))
     = jitter (inject_Z 2000 / 1500) 0.
Proof.
  destruct jittered_count_never_negative as [Hcount Hloops].
  split.
  - apply (Hcount 512%Q 2000 0%Q); [reflexivity | lia | discriminate | reflexivity].
  - destruct (Hloops (fun _ => 0%Q) 2000 (drop "Dragon pickaxe" 1 1 1500 "1/1500")
                initial) as [[_ He] _].
    + intros n. split; [discriminate | reflexivity].
    + reflexivity.
    + lia.
    + unfold validQuantity. simpl. lia.
    + exact He.
Defined.

(** ** Rarities are positive *)

Section PositiveRarity.

Lemma rarityMap_positive k v : rarityMap !! k = Some v -> (0 < v)%Q.
Proof.
  unfold rarityMap. intros H. apply elem_of_list_to_map_2 in H.
  repeat (apply elem_of_cons in H as [H|H]; [injection H as -> ->; reflexivity|]).
  now apply elem_of_nil in H.
Qed.

Lemma default_rarity_positive k : (0 < default 128 (rarityMap !! k))%Q.
Proof.
  destruct (rarityMap !! k) as [v|] eqn:E; [|reflexivity].
  simpl. now apply rarityMap_positive in E.
Qed.

(** No rarity that the parser produces is zero, so that [1 / rarity] and
    [1000 / rarity] are defined for every parsed drop. *)
Lemma parseRarity_positive s : (0 < parseRarity s)%Q.
Proof.
  unfold parseRarity. destruct (is_empty s); [reflexivity|].
  set (cleaned := Js.trim s).
  assert (Hrest : (0 < match Js.parseInt cleaned with
                       | Some numericValue =>
                           if 0 <? numericValue then inject_Z numericValue
                           else default 128 (rarityMap !! Js.toLowerCase cleaned)
                       | None => default 128 (rarityMap !! Js.toLowerCase cleaned)
                       end)%Q).
  { destruct (Js.parseInt cleaned) as [v|]; [|apply default_rarity_positive].
    destruct (0 <? v) eqn:E; [|apply default_rarity_positive].
    apply Z.ltb_lt in E. unfold Qlt. simpl. lia. }
  destruct (Js.includes cleaned "/"); [|exact Hrest].
  destruct (Js.split "/" cleaned) as [|p0 [|p1 ps]]; try exact Hrest.
  destruct (0 <? Js.int_or (Js.parseInt p1) 1) eqn:Ed; [|exact Hrest].
  destruct (0 <? Js.int_or (Js.parseInt p0) 1) eqn:En; [|exact Hrest].
  cbn [andb]. apply Z.ltb_lt in Ed, En.
  apply Qlt_shift_div_l; unfold Qlt; simpl; lia.
Qed.

End PositiveRarity.

(** ** Worked examples *)

Section Examples.

Example dropsLine_matches :
  map groups
    (Regex.exec_all Patterns.dropsLine
       "{{DropsLine|name=Coins|quantity=5-10 (noted)|rarity=1/4|gemw=No}} {{DropsLine|name=Bones|quantity=1|rarity=Always}}")
  = [("Coins", "5-10 (noted)", "1/4"); ("Bones", "1", "Always")].
Proof. reflexivity. Qed.

Example section_is_lazy :
  option_map groups
    (Regex.match_ Patterns.alwaysSection "===100%===one===two===")
  = Some ("one", "", "").
Proof. reflexivity. Qed.

Example table_row_matches :
  map groups (Regex.exec_all Patterns.dropsLineAlt3 "| Hammer || 2 || Rare |")
  = [("Hammer ", "2 ", "Rare ")].
Proof. reflexivity. Qed.

Example unique_rate_read :
  parseUniqueTableChance
    "''There is a 1/64 chance of hitting the unique drop table''"
  = Some (1 / 64)%Q.
Proof. reflexivity. Qed.

Example rolls_read :
  parseMainTableRolls "It rolls the main drop table 3 times." = 3.
Proof. reflexivity. Qed.

Example parseInt_examples :
  map Js.parseInt ["42"; " 7px"; "-3"; "0x1F"; "abc"; ""]
  = [Some 42; Some 7; Some (-3); Some 31; None; None].
Proof. reflexivity. Qed.

Example page_parsed :
  let t := parseDropTables repeatedLines "Goblin" in
  (name t, mainTableRolls t, uniqueTableChance t, map quantity (main t))
  = ("Goblin", 1, None,
     [{| min := 1; max := 5 |}; {| min := 10; max := 10 |}]).
Proof. reflexivity. Qed.

Example cerberus_three_kills :
  amount
    (Result.loot
       (runSimulation (fun n => Z.of_nat (n * 37 mod 100) # 100)
          getCerberusHardcodedDrops 3))
    "Infernal ashes" = 3.
Proof. reflexivity. Qed.

End Examples.

(** ** The cache as a map

    The keys of a [Map] are unique; the statements below assume it of the
    list that stands for the map, and the operations keep it. *)

Section CacheMap.

Lemma filter_filter {A} (f g : A -> bool) (l : list A) :
  List.filter f (List.filter g l) = List.filter (fun x => g x && f x) l.
Proof.
  induction l as [|x l IH]; simpl; [reflexivity|].
  destruct (g x); simpl; [destruct (f x)|]; now rewrite IH.
Qed.

Lemma cacheGet_absent key c : ~ In key (keys c) -> cacheGet key c = None.
Proof.
  induction c as [|[k e] c IH]; simpl; [reflexivity|]. intros H.
  destruct (String.eqb_spec k key) as [->|]; [tauto|]. apply IH. tauto.
Qed.

Lemma cacheGet_In key c v : cacheGet key c = Some v -> In (key, v) c.
Proof.
  induction c as [|[k e] c IH]; simpl; [discriminate|].
  destruct (String.eqb_spec k key) as [->|].
  - intros [= ->]. now left.
  - intros H. right. now apply IH.
Qed.

Lemma cacheGet_unique key v c :
  List.NoDup (keys c) -> In (key, v) c -> cacheGet key c = Some v.
Proof.
  induction c as [|[k e] c IH]; simpl; [tauto|]. intros Hnd Hin.
  inversion Hnd as [|? ? Hk Hc]; subst.
  destruct Hin as [[= -> ->]|Hin].
  - now rewrite String.eqb_refl.
  - destruct (String.eqb_spec k key) as [->|].
    + exfalso. apply Hk. now apply (in_map fst c (key, v)).
    + now apply IH.
Qed.

Lemma keys_cacheDelete key c :
  keys (cacheDelete key c)
  = List.filter (fun k => negb (String.eqb k key)) (keys c).
Proof.
  unfold cacheDelete, keys. induction c as [|[k e] c IH]; simpl; [reflexivity|].
  destruct (String.eqb k key); simpl; now rewrite IH.
Qed.

Lemma NoDup_filter_keys (f : string * CacheEntry -> bool) c :
  List.NoDup (keys c) -> List.NoDup (keys (List.filter f c)).
Proof.
  unfold keys. induction c as [|kv c IH]; simpl; [auto|]. intros Hnd.
  inversion Hnd as [|? ? Hk Hc]; subst.
  destruct (f kv); simpl; [|auto]. constructor; [|auto].
  intros Hin. apply Hk. apply in_map_iff in Hin as (x & Hx & Hin).
  apply filter_In in Hin as [Hin _]. apply in_map_iff. eauto.
Qed.

Lemma keys_cacheSet_present key v c :
  In key (keys c) -> keys (cacheSet key v c) = keys c.
Proof.
  unfold keys. induction c as [|[k e] c IH]; simpl; [tauto|]. intros H.
  destruct (String.eqb_spec k key) as [->|Hne]; simpl; [reflexivity|].
  destruct H as [H|H]; [congruence|]. now rewrite IH.
Qed.

Lemma keys_cacheSet_new key v c :
  ~ In key (keys c) -> keys (cacheSet key v c) = keys c ++ [key].
Proof. intros H. rewrite (cacheSet_new _ _ _ H). unfold keys. now rewrite map_app. Qed.

Lemma NoDup_cacheSet key v c :
  List.NoDup (keys c) -> List.NoDup (keys (cacheSet key v c)).
Proof.
  intros Hnd. destruct (in_dec string_dec key (keys c)) as [Hin|Hin].
  - now rewrite keys_cacheSet_present.
  - rewrite keys_cacheSet_new by exact Hin.
    apply List.NoDup_app; [exact Hnd | repeat constructor; simpl; tauto |].
    intros a Ha [<-|[]]. tauto.
Qed.

Lemma NoDup_evict now c :
  List.NoDup (keys c) -> List.NoDup (keys (evictLRUEntry now c)).
Proof.
  intros H. unfold evictLRUEntry.
  destruct (fst (oldestEntry now c)) as [k|]; [|exact H].
  destruct (is_empty k); [exact H|]. now apply NoDup_filter_keys.
Qed.

Lemma NoDup_put clock key table c :
  List.NoDup (keys c) -> List.NoDup (keys (put clock key table c)).
Proof.
  intros H. unfold put. apply NoDup_cacheSet.
  destruct (_ <=? _)%nat; [now apply NoDup_evict | exact H].
Qed.

Lemma cacheDelete_absent key c : ~ In key (keys c) -> cacheDelete key c = c.
Proof.
  unfold cacheDelete. induction c as [|[k e] c IH]; simpl; [reflexivity|].
  intros H. destruct (String.eqb_spec k key) as [->|]; [tauto|].
  simpl. rewrite IH; tauto.
Qed.

Lemma cacheDelete_exact key c :
  List.NoDup (keys c) -> In key (keys c) ->
  S (length (cacheDelete key c)) = length c.
Proof.
  induction c as [|[k e] c IH]; simpl; [tauto|]. intros Hnd Hin.
  inversion Hnd as [|? ? Hk Hc]; subst.
  destruct (String.eqb_spec k key) as [->|Hne].
  - fold (cacheDelete key c). now rewrite cacheDelete_absent.
  - unfold cacheDelete in *. simpl.
    destruct (String.eqb_spec k key); [congruence|]. simpl.
    destruct Hin as [Hin|Hin]; [congruence|]. now rewrite IH.
Qed.

Lemma cacheGet_delete key' key c :
  cacheGet key' (cacheDelete key c)
  = if String.eqb key key' then None else cacheGet key' c.
Proof.
  unfold cacheDelete. induction c as [|[k e] c IH]; simpl.
  - now destruct (String.eqb key key').
  - destruct (String.eqb_spec k key) as [->|Hne]; simpl.
    + rewrite IH. destruct (String.eqb_spec key key'); reflexivity.
    + rewrite IH. destruct (String.eqb_spec k key') as [->|]; [|reflexivity].
      destruct (String.eqb_spec key key'); [congruence|reflexivity].
Qed.

Lemma cacheGet_set_other key' key v c :
  key' <> key -> cacheGet key' (cacheSet key v c) = cacheGet key' c.
Proof.
  intros Hne. induction c as [|[k e] c IH]; simpl.
  - destruct (String.eqb_spec key key'); [congruence|reflexivity].
  - destruct (String.eqb_spec k key) as [->|]; simpl.
    + destruct (String.eqb_spec key key'); [congruence|reflexivity].
    + now rewrite IH.
Qed.

(** The two loops of [cleanupExpiredCache] amount to a filter. *)
Lemma delete_all ks : forall c,
  fold_left (fun c key => cacheDelete key c) ks c
  = List.filter (fun kv => negb (existsb (String.eqb (fst kv)) ks)) c.
Proof.
  induction ks as [|k ks IH]; intros c; simpl.
  - induction c as [|kv c IHc]; simpl; [reflexivity|]. now rewrite <- IHc.
  - rewrite IH. unfold cacheDelete. rewrite filter_filter.
    apply filter_ext. intros kv. now rewrite negb_orb.
Qed.

Lemma same_key_same_entry c kv kv' :
  List.NoDup (keys c) -> In kv c -> In kv' c -> fst kv = fst kv' -> kv = kv'.
Proof.
  intros Hnd H H' E. destruct kv as [k v], kv' as [k' v']. simpl in E. subst k'.
  pose proof (cacheGet_unique _ _ _ Hnd H) as G.
  rewrite (cacheGet_unique _ _ _ Hnd H') in G. congruence.
Qed.

Lemma cleanup_filter now c :
  List.NoDup (keys c) -> cleanupExpiredCache now c = List.filter (fresh now) c.
Proof.
  intros Hnd. unfold cleanupExpiredCache. rewrite delete_all.
  apply filter_ext_in. intros kv Hkv. unfold fresh.
  rewrite Z.ltb_antisym. f_equal.
  destruct (CACHE_DURATION <=? now - timestamp (snd kv)) eqn:E.
  - apply existsb_exists. exists (fst kv). split; [|apply String.eqb_refl].
    apply in_map. apply filter_In. auto.
  - apply not_true_is_false. intros H.
    apply existsb_exists in H as (k & Hk & Heq).
    apply String.eqb_eq in Heq. apply in_map_iff in Hk as (kv' & <- & Hin).
    apply filter_In in Hin as [Hin Hexp].
    rewrite (same_key_same_entry c kv kv' Hnd Hkv Hin Heq) in E. congruence.
Qed.

Lemma cachedTable_filter_fresh now key c :
  List.NoDup (keys c) ->
  cachedTable now key (List.filter (fresh now) c) = cachedTable now key c.
Proof.
  unfold cachedTable. induction c as [|[k e] c IH]; simpl; [reflexivity|].
  intros Hnd. inversion Hnd as [|? ? Hk Hc]; subst.
  destruct (fresh now (k, e)) eqn:Ef; simpl.
  - destruct (String.eqb k key); [reflexivity | now apply IH].
  - destruct (String.eqb_spec k key) as [->|]; [|now apply IH].
    unfold fresh in Ef. simpl in Ef. rewrite Ef.
    rewrite cacheGet_absent; [reflexivity|].
    intros Hin. apply Hk. unfold keys in *.
    apply in_map_iff in Hin as (x & Hx & Hin).
    apply filter_In in Hin as [Hin _]. apply in_map_iff. eauto.
Qed.

End CacheMap.

(** X1. [cleanupExpiredCache] at time [now] keeps, in their order, exactly
    the entries that are less than an hour old and deletes the others; a
    look-up at the same time gives the same answer before and after it, also
    for the keys it has deleted. *)
Theorem cleanupExpiredCache_keeps_fresh (now : Z) (c : Cache) :
  List.NoDup (keys c) ->
  cleanupExpiredCache now c = List.filter (fresh now) c
  /\ Forall (fun kv => now - timestamp (snd kv) < CACHE_DURATION)
       (cleanupExpiredCache now c)
  /\ (forall key, cachedTable now key (cleanupExpiredCache now c)
                  = cachedTable now key c)
  /\ List.NoDup (keys (cleanupExpiredCache now c)).
Proof.
  intros Hnd. rewrite (cleanup_filter now c Hnd).
  split; [reflexivity|]. split; [|split].
  - apply List.Forall_forall. intros kv Hkv. apply filter_In in Hkv as [_ H].
    now apply Z.ltb_lt in H.
  - intros key. now apply cachedTable_filter_fresh.
  - now apply NoDup_filter_keys.
Qed.

Lemma cleanupExpiredCache_keeps_fresh_witness :
  let c := [("cerberus", {| data := getCerberusHardcodedDrops; timestamp := 0 |});
            ("kbd", {| data := kingBlackDragonDrops; timestamp := 3000000 |})] in
  cleanupExpiredCache 3600000 c
  = [("kbd", {| data := kingBlackDragonDrops; timestamp := 3000000 |})]
  /\ cachedTable 3600000 "cerberus" c = None.
Proof.
  intros c.
  destruct (cleanupExpiredCache_keeps_fresh 3600000 c) as (E & _ & L & _).
  - repeat constructor; simpl; intuition discriminate.
  - split; [rewrite E; reflexivity|]. rewrite <- L, E. reflexivity.
Defined.

(** X2. Insert and look-up round trip: the table that a call has stored
    under a key is what the look-up returns for that key as long as less than
    an hour has passed since it was stored, and from then on the look-up
    returns nothing, whatever the cache held before. *)
Theorem put_then_cachedTable (clock : Clock) (key : string) (table : DropTable)
    (c : Cache) (now : Z) :
  cachedTable now key (put clock key table c)
  = if now - atStore clock <? CACHE_DURATION then Some table else None.
Proof. unfold cachedTable, put. now rewrite cacheGet_set. Qed.

(** X3. Below the size limit an insertion evicts nothing: every other key
    keeps its entry, a key that is present keeps its place in the insertion
    order, and a new key goes to the end. *)
Theorem put_below_capacity (clock : Clock) (key : string) (table : DropTable)
    (c : Cache) :
  (length c < MAX_CACHE_SIZE)%nat ->
  (forall key', key' <> key ->
                cacheGet key' (put clock key table c) = cacheGet key' c)
  /\ (In key (keys c) -> keys (put clock key table c) = keys c)
  /\ (~ In key (keys c) -> keys (put clock key table c) = keys c ++ [key]).
Proof.
  intros Hlen. unfold put.
  replace (MAX_CACHE_SIZE <=? length c)%nat with false
    by (symmetry; apply Nat.leb_gt; exact Hlen).
  split; [|split].
  - intros key' Hne. now apply cacheGet_set_other.
  - apply keys_cacheSet_present.
  - apply keys_cacheSet_new.
Qed.

Lemma put_below_capacity_witness :
  let c := [("kbd", {| data := kingBlackDragonDrops; timestamp := 5 |})] in
  keys (put (frozenClock 9) "cerberus" getCerberusHardcodedDrops c)
  = ["kbd"; "cerberus"]
  /\ cacheGet "kbd" (put (frozenClock 9) "cerberus" getCerberusHardcodedDrops c)
     = Some {| data := kingBlackDragonDrops; timestamp := 5 |}.
Proof.
  intros c.
  destruct (put_below_capacity (frozenClock 9) "cerberus"
              getCerberusHardcodedDrops c) as (A & _ & B).
  - unfold MAX_CACHE_SIZE. simpl. lia.
  - split.
    + apply B. simpl. intuition discriminate.
    + apply A. discriminate.
Defined.

(** X4. At the size limit, when the clock has advanced past the stored time
    stamps, inserting a new key deletes one entry whose time stamp is the
    smallest and appends the new one: the cache keeps exactly 100 entries,
    the evicted key is gone and every other key keeps its entry. *)
Theorem put_at_capacity_evicts_oldest (clock : Clock) (key : string)
    (table : DropTable) (c : Cache) :
  List.NoDup (keys c) -> cacheOk (atEvict clock) c ->
  length c = MAX_CACHE_SIZE -> ~ In key (keys c) ->
  exists kv,
    In kv c
    /\ Forall (fun e => timestamp (snd kv) <= timestamp (snd e)) c
    /\ put clock key table c
       = cacheDelete (fst kv) c
         ++ [(key, {| data := table; timestamp := atStore clock |})]
    /\ length (put clock key table c) = MAX_CACHE_SIZE
    /\ cacheGet (fst kv) (put clock key table c) = None
    /\ (forall key', key' <> key -> key' <> fst kv ->
                     cacheGet key' (put clock key table c) = cacheGet key' c).
Proof.
  intros Hnd Hok Hlen Hnew.
  assert (Hne : c <> []) by (intros ->; discriminate Hlen).
  destruct (evictLRUEntry_oldest _ _ Hok Hne) as (kv & Hin & He & Hmin).
  exists kv. split; [exact Hin|]. split; [exact Hmin|].
  assert (Hk : In (fst kv) (keys c)) by now apply in_map.
  assert (Hkey : fst kv <> key) by (intros E; apply Hnew; now rewrite <- E).
  assert (Hnew' : ~ In key (keys (cacheDelete (fst kv) c))).
  { rewrite keys_cacheDelete. intros H. apply filter_In in H as [H _]. auto. }
  assert (Hput : put clock key table c
                 = cacheDelete (fst kv) c
                   ++ [(key, {| data := table; timestamp := atStore clock |})]).
  { unfold put. rewrite Hlen, Nat.leb_refl, He. now apply cacheSet_new. }
  split; [exact Hput|]. split; [|split].
  - rewrite Hput, length_app. simpl.
    pose proof (cacheDelete_exact _ _ Hnd Hk). lia.
  - unfold put. rewrite Hlen, Nat.leb_refl, He.
    rewrite cacheGet_set_other by exact Hkey.
    now rewrite cacheGet_delete, String.eqb_refl.
  - intros key' H1 H2. unfold put. rewrite Hlen, Nat.leb_refl, He.
    rewrite cacheGet_set_other by exact H1. rewrite cacheGet_delete.
    destruct (String.eqb_spec (fst kv) key'); [congruence|reflexivity].
Qed.

(** X5. At the size limit, storing a table again under a key that is still
    in the cache replaces the entry where it stands and still evicts: when
    another entry is older, the cache is left with 99 entries. *)
Theorem put_present_key_at_capacity (clock : Clock) (key : string)
    (table : DropTable) (c : Cache) (e : CacheEntry) (older : string * CacheEntry) :
  List.NoDup (keys c) -> cacheOk (atEvict clock) c ->
  length c = MAX_CACHE_SIZE ->
  cacheGet key c = Some e -> In older c ->
  timestamp (snd older) < timestamp e ->
  length (put clock key table c) = 99%nat
  /\ cacheGet key (put clock key table c)
     = Some {| data := table; timestamp := atStore clock |}.
Proof.
  intros Hnd Hok Hlen Hget Hold Hlt.
  split; [|unfold put; apply cacheGet_set].
  assert (Hne : c <> []) by (intros ->; discriminate Hlen).
  destruct (evictLRUEntry_oldest _ _ Hok Hne) as (kv & Hin & He & Hmin).
  assert (Hk : In (fst kv) (keys c)) by now apply in_map.
  assert (Hkey : fst kv <> key).
  { intros E. apply cacheGet_In in Hget.
    pose proof (same_key_same_entry c kv (key, e) Hnd Hin Hget E) as ->.
    rewrite List.Forall_forall in Hmin. specialize (Hmin older Hold).
    simpl in Hmin. lia. }
  assert (Hstill : In key (keys (cacheDelete (fst kv) c))).
  { rewrite keys_cacheDelete. apply filter_In. split.
    - apply cacheGet_In in Hget. now apply (in_map fst c (key, e)).
    - destruct (String.eqb_spec key (fst kv)); [congruence|reflexivity]. }
  unfold put. rewrite Hlen, Nat.leb_refl, He.
  pose proof (f_equal (@length _) (keys_cacheSet_present key
                {| data := table; timestamp := atStore clock |} _ Hstill)) as L.
  unfold keys in L. rewrite !length_map in L. rewrite L.
  pose proof (cacheDelete_exact _ _ Hnd Hk) as D. rewrite Hlen in D.
  unfold MAX_CACHE_SIZE in D. lia.
Qed.

Lemma fullCache_ok :
  List.NoDup (keys fullCache) /\ cacheOk 10 fullCache
  /\ length fullCache = MAX_CACHE_SIZE.
Proof.
  split; [|split; [split|]].
  - apply NoDup_ListNoDup. refine (bool_decide_unpack _ _). vm_compute. exact I.
  - apply Nat.leb_le. vm_compute. reflexivity.
  - refine (bool_decide_unpack _ _). vm_compute. exact I.
  - vm_compute. reflexivity.
Defined.

Lemma put_at_capacity_evicts_oldest_witness :
  length (put (frozenClock 10) "cerberus" getCerberusHardcodedDrops fullCache)
  = MAX_CACHE_SIZE.
Proof.
  destruct fullCache_ok as (Hnd & Hok & Hlen).
  destruct (put_at_capacity_evicts_oldest (frozenClock 10) "cerberus"
              getCerberusHardcodedDrops fullCache Hnd Hok Hlen)
    as (kv & _ & _ & _ & L & _).
  - intros H. apply list_elem_of_In in H. revert H.
    refine (bool_decide_unpack _ _). vm_compute. exact I.
  - exact L.
Defined.

Lemma put_present_key_at_capacity_witness :
  length (put (frozenClock 10) "kbd" kingBlackDragonDrops fullCache) = 99%nat.
Proof.
  destruct fullCache_ok as (Hnd & Hok & Hlen).
  apply (put_present_key_at_capacity (frozenClock 10) "kbd" kingBlackDragonDrops
           fullCache {| data := kingBlackDragonDrops; timestamp := 5 |}
           ("m", {| data := kingBlackDragonDrops; timestamp := 0 |}) Hnd Hok Hlen).
  - vm_compute. reflexivity.
  - vm_compute. left. reflexivity.
  - simpl. lia.
Defined.

(** ** The cache in [simulateKills] *)

Section CacheInCalls.

Lemma fallback_not_empty monsterName fb :
  getFallbackDropData monsterName = Some fb ->
  all_empty [always fb; main fb; uniques fb; tertiary fb] = false.
Proof.
  unfold getFallbackDropData.
  destruct (Js.includes _ "cerberus"); [now intros [= <-]|].
  destruct (_ || _); [now intros [= <-]|discriminate].
Qed.

(** What a call that missed the cache and got a page has done when it
    returns a simulation. *)
Lemma simulateKills_page_stores rng clock pageTitle content monsterName killCount
    dropCache r :
  cachedTable (atLookup clock) (Js.toLowerCase monsterName) dropCache = None ->
  fst (simulateKills rng clock (Page pageTitle content) monsterName killCount
         dropCache) = Simulated r ->
  exists table,
    simulateKills rng clock (Page pageTitle content) monsterName killCount dropCache
    = (Simulated (runSimulation rng table killCount),
       put clock (Js.toLowerCase monsterName) table dropCache)
    /\ all_empty [always table; main table; uniques table; tertiary table] = false.
Proof.
  intros Hmiss. unfold simulateKills. rewrite Hmiss.
  destruct (is_empty content); [discriminate|].
  destruct (all_empty _) eqn:E.
  - destruct (getFallbackDropData monsterName) as [fb|] eqn:F; [|discriminate].
    intros _. exists fb. split; [reflexivity|]. now apply fallback_not_empty in F.
  - intros _. eexists. split; [reflexivity|exact E].
Qed.

End CacheInCalls.

(** X6. A call that missed the cache, got a page and returned a simulation
    has stored the table it simulated; a later call for the same name in any
    letter case, made less than an hour after the entry was stored, simulates
    that table whatever the wiki would answer, and leaves the cache as it
    is. *)
Theorem simulateKills_second_call_cached
    (rng1 rng2 : nat -> Q) (clock1 clock2 : Clock) (pageTitle content : string)
    (acquired2 : Acquisition) (name1 name2 : string) (killCount1 killCount2 : Z)
    (dropCache : Cache) (r : Result.t) :
  cachedTable (atLookup clock1) (Js.toLowerCase name1) dropCache = None ->
  fst (simulateKills rng1 clock1 (Page pageTitle content) name1 killCount1
         dropCache) = Simulated r ->
  Js.toLowerCase name2 = Js.toLowerCase name1 ->
  atLookup clock2 - atStore clock1 < CACHE_DURATION ->
  let cache1 :=
    snd (simulateKills rng1 clock1 (Page pageTitle content) name1 killCount1
           dropCache) in
  exists table,
    r = runSimulation rng1 table killCount1
    /\ simulateKills rng2 clock2 acquired2 name2 killCount2 cache1
       = (Simulated (runSimulation rng2 table killCount2), cache1).
Proof.
  intros Hmiss Hr Hname Hnow cache1.
  destruct (simulateKills_page_stores _ _ _ _ _ _ _ _ Hmiss Hr)
    as (table & Hcall & _).
  exists table. subst cache1. rewrite Hcall in *. simpl in *.
  split; [congruence|].
  unfold simulateKills, cachedTable. rewrite Hname. unfold put at 1.
  rewrite cacheGet_set. simpl.
  now replace (_ <? _) with true by (symmetry; apply Z.ltb_lt; exact Hnow).
Qed.

Lemma simulateKills_second_call_cached_witness :
  let first :=
    simulateKills (fun _ => 1 # 2) (frozenClock 0) (Page "Goblin" repeatedLines)
      "goblin" 3 [] in
  exists table,
    runSimulation (fun _ => 1 # 2) (parseDropTables repeatedLines "Goblin") 3
    = runSimulation (fun _ => 1 # 2) table 3
    /\ simulateKills (fun _ => 1 # 3) (frozenClock 1000) FetchRejects "GOBLIN" 7
         (snd first)
       = (Simulated (runSimulation (fun _ => 1 # 3) table 7), snd first).
Proof.
  apply (simulateKills_second_call_cached (fun _ => 1 # 2) (fun _ => 1 # 3)
           (frozenClock 0) (frozenClock 1000) "Goblin" repeatedLines
           FetchRejects "goblin" "GOBLIN" 3 7 []).
  - reflexivity.
  - vm_compute. reflexivity.
  - reflexivity.
  - vm_compute. reflexivity.
Defined.

(** X7. A call changes the cache in one way only: after a page has been
    fetched, it stores the table that it simulates, which has at least one
    drop, under the lower-cased name.  A call that returns an error, a call
    served from the cache and a call whose request failed leave the cache as
    it was; in particular a hit does not renew the time stamp. *)
Theorem simulateKills_cache_effect
    (rng : nat -> Q) (clock : Clock) (acquired : Acquisition)
    (monsterName : string) (killCount : Z) (dropCache : Cache) :
  let outcome := fst (simulateKills rng clock acquired monsterName killCount
                        dropCache) in
  let cache' := snd (simulateKills rng clock acquired monsterName killCount
                       dropCache) in
  (cache' = dropCache
   \/ exists pageTitle content table,
        acquired = Page pageTitle content
        /\ cachedTable (atLookup clock) (Js.toLowerCase monsterName) dropCache
           = None
        /\ all_empty [always table; main table; uniques table; tertiary table]
           = false
        /\ outcome = Simulated (runSimulation rng table killCount)
        /\ cache' = put clock (Js.toLowerCase monsterName) table dropCache)
  /\ (forall error, outcome = Error error -> cache' = dropCache)
  /\ (forall table,
        cachedTable (atLookup clock) (Js.toLowerCase monsterName) dropCache
        = Some table ->
        outcome = Simulated (runSimulation rng table killCount)
        /\ cache' = dropCache)
  /\ (throws acquired = true -> cache' = dropCache).
Proof.
  cbv zeta.
  destruct (cachedTable (atLookup clock) (Js.toLowerCase monsterName) dropCache)
    as [cached|] eqn:Hc.
  { unfold simulateKills. rewrite Hc. simpl.
    split; [now left|]. split; [reflexivity|]. split; [|reflexivity].
    intros table [= <-]. split; reflexivity. }
  assert (Hcases :
    snd (simulateKills rng clock acquired monsterName killCount dropCache)
    = dropCache
    \/ exists pageTitle content table,
         acquired = Page pageTitle content
         /\ all_empty [always table; main table; uniques table; tertiary table]
            = false
         /\ simulateKills rng clock acquired monsterName killCount dropCache
            = (Simulated (runSimulation rng table killCount),
               put clock (Js.toLowerCase monsterName) table dropCache)).
  { destruct (simulateKills rng clock acquired monsterName killCount dropCache)
      as [[r|e] c'] eqn:Hcall.
    - destruct acquired as [| | | | | |pageTitle content].
      1-6: left; unfold simulateKills in Hcall; rewrite Hc in Hcall;
           try destruct (getFallbackDropData monsterName);
           now inversion Hcall.
      right. exists pageTitle, content.
      destruct (simulateKills_page_stores rng clock pageTitle content monsterName
                  killCount dropCache r Hc) as (table & Ht & Hne).
      + now rewrite Hcall.
      + exists table. split; [reflexivity|]. split; [exact Hne|].
        now rewrite <- Hcall, Ht.
    - left. simpl. unfold simulateKills in Hcall. rewrite Hc in Hcall.
      destruct acquired as [| | | | | |pageTitle content].
      1-6: try destruct (getFallbackDropData monsterName); now inversion Hcall.
      destruct (is_empty content); [now inversion Hcall|].
      destruct (all_empty _); [|discriminate Hcall].
      destruct (getFallbackDropData monsterName); [discriminate Hcall|].
      now inversion Hcall. }
  split; [|split; [|split]].
  - destruct Hcases as [H|(pageTitle & content & table & Ha & Hne & Hcall)];
      [now left|].
    right. exists pageTitle, content, table. rewrite Hcall. simpl. auto.
  - intros error He.
    destruct Hcases as [H|(pageTitle & content & table & Ha & Hne & Hcall)];
      [exact H|].
    rewrite Hcall in He. discriminate He.
  - discriminate.
  - intros Hthrows.
    destruct Hcases as [H|(pageTitle & content & table & Ha & Hne & Hcall)];
      [exact H|].
    subst acquired. discriminate Hthrows.
Qed.

(** ** Invariants of a simulation

    An invariant of the accumulated state that survives reading a random
    value, adding an acceptable quantity of an item of the table and
    recording a notable drop at an acceptable kill number survives a whole
    run, in both modes. *)

Section Preserves.

Variable I : SimState -> Prop.

Lemma preserves_ret {A} (a : A) (post : A -> Prop) :
  post a -> preserves I (ret a) post.
Proof. intros H st HI. now split. Qed.

Lemma preserves_bind {A B} (m : Sim A) (f : A -> Sim B) (mid : A -> Prop)
    (post : B -> Prop) :
  preserves I m mid -> (forall a, mid a -> preserves I (f a) post) ->
  preserves I (bind m f) post.
Proof.
  intros Hm Hf st HI. unfold bind. specialize (Hm st HI).
  destruct (m st) as [a st']. simpl in Hm. destruct Hm as [HI' Ha].
  now apply Hf.
Qed.

Lemma preserves_then {A B} (m : Sim A) (k : Sim B) (mid : A -> Prop)
    (post : B -> Prop) :
  preserves I m mid -> preserves I k post ->
  preserves I (bind m (fun _ => k)) post.
Proof. intros Hm Hk. apply (preserves_bind _ _ mid); auto. Qed.

Lemma preserves_any {A} (m : Sim A) (post : A -> Prop) :
  preserves I m post -> preserves I m (fun _ => True).
Proof. intros H st HI. split; [now apply H | exact Logic.I]. Qed.

Lemma preserves_when (b : bool) (m : Sim unit) :
  (b = true -> preserves I m (fun _ => True)) ->
  preserves I (when b m) (fun _ => True).
Proof. destruct b; simpl; [auto | intros _; now apply preserves_ret]. Qed.

Lemma preserves_forEach {A} (arr : list A) (body : A -> Sim unit) :
  (forall x, In x arr -> preserves I (body x) (fun _ => True)) ->
  preserves I (forEach arr body) (fun _ => True).
Proof.
  induction arr as [|x arr IH]; intros H; simpl; [now apply preserves_ret|].
  apply (preserves_then _ _ (fun _ => True)); [apply H; now left|].
  apply IH. intros y Hy. apply H. now right.
Qed.

Lemma preserves_forLoop n : forall from (body : Z -> Sim unit),
  (forall i, from <= i < from + Z.of_nat n ->
             preserves I (body i) (fun _ => True)) ->
  preserves I (forLoop n from body) (fun _ => True).
Proof.
  induction n as [|n IH]; intros from body H; simpl; [now apply preserves_ret|].
  apply (preserves_then _ _ (fun _ => True)); [apply H; lia|].
  apply IH. intros i Hi. apply H. lia.
Qed.

End Preserves.

Section RunInvariant.

Variable rng : nat -> Q.
Variable dropData : DropTable.
Variable killCount : Z.

Variable I : SimState -> Prop.
Variable okQuantity : Z -> Prop.
Variable okKill : Z -> Prop.

Hypothesis I_random : forall st, I st -> I (snd (Math_random rng st)).
Hypothesis I_add : forall d q st,
  In d (allDrops dropData) -> okQuantity q -> I st ->
  I (snd (addToLoot (item d) q st)).
Hypothesis I_push : forall d killNumber st,
  notable dropData d -> okKill killNumber -> I st ->
  I (snd (pushUnique d killNumber st)).

Hypothesis sampled_ok : forall d st,
  In d (allDrops dropData) ->
  okQuantity (fst (getRandomQuantity rng (quantity d) st)).
Hypothesis rounded_ok : forall d n,
  In d (allDrops dropData) -> 1 <= n ->
  okQuantity (Math_round (inject_Z n * avgQuantity (quantity d))).
Hypothesis always_ok : forall d,
  In d (always dropData) ->
  okQuantity (Math_round (avgQuantity (quantity d) * inject_Z killCount)).
Hypothesis kill_ok : forall i, 0 <= i < killCount -> okKill (i + 1).
Hypothesis randomKill_ok : forall st,
  okKill (fst (randomKillNumber rng killCount st)).

Lemma in_always d : In d (always dropData) -> In d (allDrops dropData).
Proof. intros H. unfold allDrops. apply in_or_app. now left. Qed.

Lemma in_main d : In d (main dropData) -> In d (allDrops dropData).
Proof.
  intros H. unfold allDrops. apply in_or_app. right. apply in_or_app. now left.
Qed.

Lemma in_uniques d : In d (uniques dropData) -> In d (allDrops dropData).
Proof.
  intros H. unfold allDrops. apply in_or_app. right. apply in_or_app. right.
  apply in_or_app. now left.
Qed.

Lemma in_tertiary d : In d (tertiary dropData) -> In d (allDrops dropData).
Proof.
  intros H. unfold allDrops. apply in_or_app. right. apply in_or_app. right.
  apply in_or_app. now right.
Qed.

Lemma keeps_random : preserves I (Math_random rng) (fun _ => True).
Proof. intros st HI. split; [now apply I_random | exact Logic.I]. Qed.

Lemma keeps_addToLoot d q :
  In d (allDrops dropData) -> okQuantity q ->
  preserves I (addToLoot (item d) q) (fun _ => True).
Proof. intros Hd Hq st HI. split; [now apply I_add | exact Logic.I]. Qed.

Lemma keeps_pushUnique d killNumber :
  notable dropData d -> okKill killNumber ->
  preserves I (pushUnique d killNumber) (fun _ => True).
Proof. intros Hd Hk st HI. split; [now apply I_push | exact Logic.I]. Qed.

Lemma keeps_getRandomQuantity d :
  In d (allDrops dropData) ->
  preserves I (getRandomQuantity rng (quantity d)) okQuantity.
Proof.
  intros Hd st HI. split; [|now apply sampled_ok].
  unfold getRandomQuantity. destruct (_ =? _); [exact HI|].
  rewrite snd_bind. now apply I_random in HI.
Qed.

Lemma keeps_award d :
  In d (allDrops dropData) ->
  preserves I (qty <- getRandomQuantity rng (quantity d) ;; addToLoot (item d) qty)
    (fun _ => True).
Proof.
  intros Hd. apply (preserves_bind _ _ _ okQuantity).
  - now apply keeps_getRandomQuantity.
  - intros q Hq. now apply keeps_addToLoot.
Qed.

Lemma keeps_selectWeightedDrop drops :
  preserves I (selectWeightedDrop rng drops)
    (fun o => forall d, o = Some d -> In d drops).
Proof.
  intros st HI. split; [|intros d H; eapply selectWeightedDrop_In, H].
  unfold selectWeightedDrop. destruct drops as [|d0 [|d1 rest]]; try exact HI.
  destruct (Qeq_bool _ 0); [exact HI|].
  rewrite snd_bind. apply I_random in HI.
  now destruct (pickByWeight _ _).
Qed.

Lemma keeps_randomKillNumber :
  preserves I (randomKillNumber rng killCount) okKill.
Proof.
  intros st HI. split; [|apply randomKill_ok].
  unfold randomKillNumber. rewrite snd_bind. now apply I_random in HI.
Qed.

(** *** The steps of a kill *)

Lemma keeps_alwaysDrops :
  preserves I (alwaysDrops rng dropData) (fun _ => True).
Proof.
  unfold alwaysDrops. apply preserves_forEach. intros d Hd.
  now apply keeps_award, in_always.
Qed.

Lemma keeps_mainRolls : preserves I (mainRolls rng dropData) (fun _ => True).
Proof.
  unfold mainRolls. apply preserves_forLoop. intros _ _.
  eapply preserves_bind; [apply keeps_selectWeightedDrop|].
  intros [d|] H; [|now apply preserves_ret].
  apply keeps_award, in_main. now apply H.
Qed.

Lemma keeps_rollUniqueTable chance killNumber :
  okKill killNumber ->
  preserves I (rollUniqueTable rng dropData chance killNumber) (fun _ => True).
Proof.
  intros Hk. unfold rollUniqueTable.
  eapply preserves_bind; [apply keeps_random|]. intros u _.
  apply preserves_when. intros _.
  eapply preserves_bind; [apply keeps_random|]. intros v _.
  destruct (at_index _ _) as [d|] eqn:E; [|now apply preserves_ret].
  apply at_index_In in E.
  eapply preserves_bind; [apply keeps_getRandomQuantity, in_uniques, E|].
  intros q Hq. eapply preserves_then.
  - apply keeps_addToLoot; [now apply in_uniques | exact Hq].
  - apply keeps_pushUnique; [now left | exact Hk].
Qed.

Lemma keeps_uniqueRolls killNumber :
  okKill killNumber ->
  preserves I (uniqueRolls rng dropData killNumber) (fun _ => True).
Proof.
  intros Hk. unfold uniqueRolls.
  destruct (sharedUniqueChance dropData) as [chance|].
  - now apply keeps_rollUniqueTable.
  - apply preserves_forEach. intros d Hd.
    eapply preserves_bind; [apply keeps_random|]. intros u _.
    apply preserves_when. intros _.
    eapply preserves_bind; [apply keeps_getRandomQuantity, in_uniques, Hd|].
    intros q Hq. eapply preserves_then.
    + apply keeps_addToLoot; [now apply in_uniques | exact Hq].
    + apply keeps_pushUnique; [now left | exact Hk].
Qed.

Lemma keeps_tertiaryRolls killNumber :
  okKill killNumber ->
  preserves I (tertiaryRolls rng dropData killNumber) (fun _ => True).
Proof.
  intros Hk. unfold tertiaryRolls. apply preserves_forEach. intros d Hd.
  eapply preserves_bind; [apply keeps_random|]. intros u _.
  apply preserves_when. intros _.
  eapply preserves_bind; [apply keeps_getRandomQuantity, in_tertiary, Hd|].
  intros q Hq. eapply preserves_then.
  - apply keeps_addToLoot; [now apply in_tertiary | exact Hq].
  - apply preserves_when. intros Hrare.
    apply keeps_pushUnique; [right; now split | exact Hk].
Qed.

Lemma keeps_simulateKill i :
  0 <= i < killCount ->
  preserves I (simulateKill rng dropData i) (fun _ => True).
Proof.
  intros Hi. unfold simulateKill. cbv zeta.
  eapply preserves_then; [apply keeps_alwaysDrops|].
  eapply preserves_then; [apply keeps_mainRolls|].
  eapply preserves_then; [apply keeps_uniqueRolls, kill_ok, Hi|].
  apply keeps_tertiaryRolls, kill_ok, Hi.
Qed.

Lemma keeps_kills :
  preserves I (forLoop (Z.to_nat killCount) 0 (simulateKill rng dropData))
    (fun _ => True).
Proof.
  apply preserves_forLoop. intros i Hi. apply keeps_simulateKill. lia.
Qed.

(** *** The steps of the approximated mode *)

Lemma keeps_approxAlways :
  preserves I (approxAlways dropData killCount) (fun _ => True).
Proof.
  unfold approxAlways. apply preserves_forEach. intros d Hd.
  apply keeps_addToLoot; [now apply in_always | now apply always_ok].
Qed.

Lemma keeps_approxMain :
  preserves I (approxMain rng dropData killCount) (fun _ => True).
Proof.
  unfold approxMain. apply preserves_when. intros _.
  apply preserves_forEach. intros [d w] Hd.
  apply in_map_iff in Hd as (d' & [= <- <-] & Hd).
  eapply preserves_bind; [apply keeps_random|]. intros u _.
  apply preserves_when. intros Hpos. apply Z.ltb_lt in Hpos.
  apply keeps_addToLoot; [now apply in_main|].
  apply rounded_ok; [now apply in_main | lia].
Qed.

Lemma keeps_approxUniqueItem d :
  In d (uniques dropData) ->
  preserves I (approxUniqueItem rng killCount d) (fun _ => True).
Proof.
  intros Hd. unfold approxUniqueItem.
  eapply preserves_bind; [apply keeps_random|]. intros u _.
  apply preserves_forLoop. intros _ _.
  eapply preserves_bind; [apply keeps_getRandomQuantity, in_uniques, Hd|].
  intros q Hq. eapply preserves_then.
  - apply keeps_addToLoot; [now apply in_uniques | exact Hq].
  - eapply preserves_bind; [apply keeps_randomKillNumber|].
    intros kn Hkn. apply keeps_pushUnique; [now left | exact Hkn].
Qed.

Lemma keeps_approxUniques :
  preserves I (approxUniques rng dropData killCount) (fun _ => True).
Proof.
  unfold approxUniques. destruct (sharedUniqueChance dropData) as [chance|].
  - apply preserves_forLoop. intros i Hi.
    apply keeps_rollUniqueTable, kill_ok. lia.
  - apply preserves_forEach. intros d Hd. now apply keeps_approxUniqueItem.
Qed.

Lemma keeps_approxTertiary :
  preserves I (approxTertiary rng dropData killCount) (fun _ => True).
Proof.
  unfold approxTertiary. apply preserves_forEach. intros d Hd.
  unfold approxTertiaryItem.
  eapply preserves_bind; [apply keeps_random|]. intros u _.
  apply preserves_when. intros Hpos. apply Z.ltb_lt in Hpos.
  eapply preserves_then.
  - apply keeps_addToLoot; [now apply in_tertiary|].
    apply rounded_ok; [now apply in_tertiary | lia].
  - apply preserves_when. intros Hrare.
    apply preserves_forLoop. intros _ _.
    eapply preserves_bind; [apply keeps_randomKillNumber|].
    intros kn Hkn. apply keeps_pushUnique; [right; now split | exact Hkn].
Qed.

Lemma keeps_runOptimizedSimulation :
  preserves I (runOptimizedSimulation rng dropData killCount) (fun _ => True).
Proof.
  unfold runOptimizedSimulation.
  eapply preserves_then; [apply keeps_approxAlways|].
  eapply preserves_then; [apply keeps_approxMain|].
  eapply preserves_then; [apply keeps_approxUniques|].
  apply keeps_approxTertiary.
Qed.

End RunInvariant.

(** ** Bounds of what is drawn *)

Section Draws.

Variable rng : nat -> Q.
Hypothesis rng_unit : unitDraws rng.

(** [Math.floor(u * n)] for a draw [u] and a positive integer [n]. *)
Lemma floor_of_draw (u : Q) (n : Z) :
  (0 <= u)%Q -> (u < 1)%Q -> 1 <= n -> 0 <= Math_floor (u * inject_Z n) < n.
Proof.
  intros H0 H1 Hn. unfold Math_floor. split.
  - apply Qfloor_nonneg, Qmult_le_0_compat; [exact H0|].
    apply inject_Z_nonneg. lia.
  - assert (Hlt : (u * inject_Z n < inject_Z n)%Q).
    { apply Qlt_le_trans with (1 * inject_Z n)%Q.
      - apply Qmult_lt_compat_r; [|exact H1]. unfold Qlt. simpl. lia.
      - rewrite Qmult_1_l. apply Qle_refl. }
    rewrite Zlt_Qlt. eapply Qle_lt_trans; [apply Qfloor_le | exact Hlt].
Qed.

Lemma getRandomQuantity_bounds q st :
  min q <= max q ->
  min q <= fst (getRandomQuantity rng q st) <= max q.
Proof.
  intros Hq. unfold getRandomQuantity. destruct (min q =? max q) eqn:E.
  - simpl. lia.
  - unfold bind, Math_random, ret. cbn [fst snd].
    destruct (rng_unit (draws st)) as [H0 H1].
    pose proof (floor_of_draw (rng (draws st)) (max q - min q + 1) H0 H1).
    lia.
Qed.

Lemma randomKillNumber_bounds killCount st :
  1 <= killCount ->
  1 <= fst (randomKillNumber rng killCount st) <= killCount.
Proof.
  intros Hk. unfold randomKillNumber, bind, Math_random, ret. cbn [fst snd].
  destruct (rng_unit (draws st)) as [H0 H1].
  pose proof (floor_of_draw (rng (draws st)) killCount H0 H1). lia.
Qed.

End Draws.


(** X8. A sampled quantity lies in the range of the drop, both ends
    included, when the range is in order and the draw lies in [[0, 1)]; a
    range of one value is returned without reading a random value, any other
    range reads one. *)
Theorem getRandomQuantity_in_range
    (rng : nat -> Q) (q : Quantity) (st : SimState) :
  unitDraws rng -> min q <= max q ->
  min q <= fst (getRandomQuantity rng q st) <= max q
  /\ (min q = max q -> getRandomQuantity rng q st = (min q, st))
  /\ (min q < max q -> draws (snd (getRandomQuantity rng q st)) = S (draws st)).
Proof.
  intros Hu Hq. split; [now apply getRandomQuantity_bounds|].
  unfold getRandomQuantity. split.
  - intros E. now replace (min q =? max q) with true by (symmetry; lia).
  - intros Hlt. now replace (min q =? max q) with false by (symmetry; lia).
Qed.

Lemma getRandomQuantity_in_range_witness :
  10000 <= fst (getRandomQuantity (fun _ => 999 # 1000)
                  {| min := 10000; max := 20000 |} initial) <= 20000.
Proof.
  refine (proj1 (getRandomQuantity_in_range (fun _ => 999 # 1000)
                   {| min := 10000; max := 20000 |} initial _ _)).
  - intros n. split; [discriminate | reflexivity].
  - simpl. lia.
Defined.




(** The notable drops that a run records. *)
Lemma events_sound
    (rng : nat -> Q) (t : DropTable) (killCount : Z) :
  unitDraws rng ->
  Forall (fun e => 1 <= UniqueDrop.killNumber e <= killCount
                   /\ exists d, notable t d
                                /\ e = eventOf d (UniqueDrop.killNumber e))
    (Result.uniqueDrops (runSimulation rng t killCount)).
Proof.
  intros Hu.
  set (P := fun e => 1 <= UniqueDrop.killNumber e <= killCount
                     /\ exists d, notable t d
                                  /\ e = eventOf d (UniqueDrop.killNumber e)).
  set (I := fun st : SimState => Forall P (uniqueDrops st)).
  assert (I0 : I initial) by constructor.
  assert (I_random : forall st, I st -> I (snd (Math_random rng st)))
    by (intros st H; exact H).
  assert (I_add : forall d q st, In d (allDrops t) -> True -> I st ->
                                 I (snd (addToLoot (item d) q st)))
    by (intros d q st _ _ H; exact H).
  assert (I_push : forall d kn st, notable t d -> 1 <= kn <= killCount -> I st ->
                                   I (snd (pushUnique d kn st))).
  { intros d kn st Hd Hkn H. unfold I. cbn [pushUnique snd uniqueDrops].
    apply Forall_app. split; [exact H|]. constructor; [|constructor].
    split; [exact Hkn|]. exists d. now split. }
  assert (Hfinal : I (snd (if 1000 <? killCount
                           then runOptimizedSimulation rng t killCount initial
                           else forLoop (Z.to_nat killCount) 0
                                  (simulateKill rng t) initial))).
  { destruct (1000 <? killCount) eqn:E.
    - apply Z.ltb_lt in E.
      apply (keeps_runOptimizedSimulation rng t killCount I (fun _ => True)
               (fun kn => 1 <= kn <= killCount)); auto.
      + intros j Hj. lia.
      + intros st. apply randomKillNumber_bounds; [exact Hu | lia].
    - apply (keeps_kills rng t killCount I (fun _ => True)
               (fun kn => 1 <= kn <= killCount)); auto.
      intros j Hj. lia. }
  unfold runSimulation. destruct (1000 <? killCount); apply Hfinal.
Qed.

(** X10. With draws in [[0, 1)], every notable drop that a simulation
    reports, in either mode, carries a kill number between 1 and the kill
    count and the name and rarity text of a unique drop of the table or of a
    tertiary drop whose rarity is 1000 or more. *)
Theorem runSimulation_events_sound
    (rng : nat -> Q) (t : DropTable) (killCount : Z) :
  unitDraws rng ->
  Forall (fun e => 1 <= UniqueDrop.killNumber e <= killCount
                   /\ exists d, notable t d
                                /\ e = eventOf d (UniqueDrop.killNumber e))
    (Result.uniqueDrops (runSimulation rng t killCount)).
Proof. intros Hu. now apply events_sound. Qed.

Lemma runSimulation_events_sound_witness :
  Forall (fun e => 1 <= UniqueDrop.killNumber e <= 2
                   /\ exists d, notable kingBlackDragonDrops d
                                /\ e = eventOf d (UniqueDrop.killNumber e))
    (Result.uniqueDrops (runSimulation (fun _ => 0%Q) kingBlackDragonDrops 2)).
Proof.
  apply runSimulation_events_sound.
  intros n. split; [discriminate | reflexivity].
Defined.

(** ** Ranges of the [always] drops *)

Section AlwaysRanges.

Variable rng : nat -> Q.

(** [Math.round] is exact on the total of a fixed quantity. *)
Lemma round_fixed (q : Quantity) (killCount : Z) :
  min q = max q ->
  Math_round (avgQuantity q * inject_Z killCount) = killCount * min q.
Proof.
  intros E. unfold Math_round, avgQuantity. rewrite <- E.
  rewrite (Qfloor_comp _ (inject_Z (killCount * min q) + (1 # 2))%Q).
  - unfold Qfloor, Qplus, inject_Z. cbn [Qnum Qden].
    change (Z.pos (1 * 2)) with 2.
    symmetry. apply (Z.div_unique_pos _ 2 _ 1); lia.
  - unfold Qeq, Qplus, Qmult, Qdiv, Qinv, inject_Z. cbn. lia.
Qed.

Lemma approximatedAlways_fixed t killCount i :
  (forall d, In d (always t) -> item d = i -> fixedQuantity d = true) ->
  approximatedAlways t killCount i = killCount * fixedPerKill t i.
Proof.
  unfold approximatedAlways, fixedPerKill.
  induction (always t) as [|d ds IH]; intros H; [simpl; lia|].
  cbn [totalFor List.filter].
  rewrite IH by (intros x Hx; apply H; now right).
  destruct (String.eqb_spec (item d) i) as [E|Hne].
  - rewrite (H d (or_introl eq_refl) E). cbn [totalFor].
    destruct (String.eqb_spec (item d) i); [|contradiction].
    rewrite round_fixed; [lia|].
    pose proof (H d (or_introl eq_refl) E) as F. unfold fixedQuantity in F. lia.
  - destruct (fixedQuantity d); cbn [totalFor]; [|lia].
    destruct (String.eqb_spec (item d) i); [contradiction|lia].
Qed.

Hypothesis rng_unit : unitDraws rng.

(** The [always] drops of one kill add to an item between the sum of the
    minima and the sum of the maxima of its entries. *)
Lemma alwaysDrops_range i (arr : list Drop) :
  inherited i = false ->
  (forall d, In d arr -> min (quantity d) <= max (quantity d)) ->
  forall st,
    numeric (loot st) i ->
    let st' := snd (forEach arr (fun drop =>
                      qty <- getRandomQuantity rng (quantity drop) ;;
                      addToLoot (item drop) qty) st) in
    numeric (loot st') i
    /\ amount (loot st) i + totalFor i (fun d => min (quantity d)) arr
       <= amount (loot st') i
       <= amount (loot st) i + totalFor i (fun d => max (quantity d)) arr.
Proof.
  intros Hi. induction arr as [|d arr IH]; intros Hq st Hn; cbv zeta.
  - simpl. split; [exact Hn | lia].
  - rewrite snd_forEach_cons. cbn [totalFor].
    assert (Hd : min (quantity d) <= max (quantity d)) by (apply Hq; now left).
    specialize (IH (fun x Hx => Hq x (or_intror Hx))).
    set (st1 := snd ((qty <- getRandomQuantity rng (quantity d) ;;
                      addToLoot (item d) qty) st)).
    assert (H1 : numeric (loot st1) i
                 /\ amount (loot st1) i
                    = amount (loot st) i
                      + (if String.eqb (item d) i
                         then fst (getRandomQuantity rng (quantity d) st) else 0)).
    { subst st1. rewrite snd_bind. cbn [addToLoot snd loot].
      destruct (getRandomQuantity_min rng rng_unit (quantity d) st Hd)
        as (_ & -> & _).
      now apply amount_add. }
    destruct H1 as [Hn1 H1].
    destruct (IH st1 Hn1) as [Hn' IH']. split; [exact Hn'|].
    pose proof (getRandomQuantity_bounds rng rng_unit (quantity d) st Hd).
    destruct (String.eqb (item d) i); lia.
Qed.

Lemma simulateKill_range t i j st :
  inherited i = false ->
  ~ In i (laterItems t) ->
  (forall d, In d (always t) -> min (quantity d) <= max (quantity d)) ->
  numeric (loot st) i ->
  let st' := snd (simulateKill rng t j st) in
  numeric (loot st') i
  /\ amount (loot st) i + totalFor i (fun d => min (quantity d)) (always t)
     <= amount (loot st') i
     <= amount (loot st) i + totalFor i (fun d => max (quantity d)) (always t).
Proof.
  intros Hi Hl Hq Hn. cbv zeta. unfold simulateKill. cbv zeta.
  rewrite (snd_then (alwaysDrops rng t)).
  set (st1 := snd (alwaysDrops rng t st)).
  pose proof (alwaysDrops_range i (always t) Hi Hq st Hn) as Ha. cbv zeta in Ha.
  fold (alwaysDrops rng t) in Ha. fold st1 in Ha.
  set (R := fun (l _ : gmap string LootValue) => l !! i = loot st1 !! i).
  assert (HR : additive (fun item => item <> i) R)
    by apply untouched_additive.
  assert (Hla : forall x, In x (laterItems t) -> x <> i)
    by (intros x Hx E; apply Hl; now rewrite <- E).
  destruct (oblivious_afterAlways rng R _ HR t Hla (j + 1) st1 st1)
    as (_ & _ & _ & Hsame); [repeat split|].
  unfold R in Hsame. unfold numeric, amount in *. rewrite Hsame. exact Ha.
Qed.

Lemma kills_range t i n :
  inherited i = false ->
  ~ In i (laterItems t) ->
  (forall d, In d (always t) -> min (quantity d) <= max (quantity d)) ->
  forall from st,
    numeric (loot st) i ->
    let st' := snd (forLoop n from (simulateKill rng t) st) in
    numeric (loot st') i
    /\ amount (loot st) i
       + Z.of_nat n * totalFor i (fun d => min (quantity d)) (always t)
       <= amount (loot st') i
       <= amount (loot st) i
          + Z.of_nat n * totalFor i (fun d => max (quantity d)) (always t).
Proof.
  intros Hi Hl Hq. induction n as [|n IH]; intros from st Hn; cbv zeta.
  - simpl. split; [exact Hn | lia].
  - rewrite snd_forLoop_S.
    destruct (simulateKill_range t i from st Hi Hl Hq Hn) as [Hn1 H1].
    destruct (IH (from + 1) (snd (simulateKill rng t from st)) Hn1) as [Hn' IH'].
    split; [exact Hn' | lia].
Qed.

End AlwaysRanges.

(** X12. For an item that only the [always] entries yield, all of fixed
    quantity, and whose name is not one of a member of [Object.prototype],
    the loot holds the kill count times the sum of those quantities in both
    modes: the approximated mode rounds an exact product, so the count does
    not change at the threshold of 1000 kills. *)
Theorem fixed_always_any_mode
    (rng : nat -> Q) (t : DropTable) (killCount : Z) (i : string) :
  0 <= killCount ->
  inherited i = false ->
  ~ In i (laterItems t) ->
  (forall d, In d (always t) -> item d = i -> fixedQuantity d = true) ->
  amount (Result.loot (runSimulation rng t killCount)) i
  = killCount * fixedPerKill t i.
Proof.
  intros Hk Hi Hl Hfix. destruct (Z_le_gt_dec killCount 1000) as [Hsmall|Hlarge].
  - apply exact_only_always; [lia | exact Hi | exact Hl | exact Hfix].
  - rewrite approximated_only_always by (try lia; assumption).
    now apply approximatedAlways_fixed.
Qed.

Lemma fixed_always_any_mode_witness :
  amount (Result.loot (runSimulation (fun _ => 1 # 3) getCerberusHardcodedDrops 1001))
    "Infernal ashes" = 1001 * 1
  /\ amount (Result.loot (runSimulation (fun _ => 1 # 3) getCerberusHardcodedDrops 1000))
       "Infernal ashes" = 1000 * 1.
Proof.
  split.
  - apply (fixed_always_any_mode (fun _ => 1 # 3) getCerberusHardcodedDrops 1001
             "Infernal ashes"); [lia | reflexivity | apply ashes_not_later |].
    intros d [<-|[]] _. reflexivity.
  - apply (fixed_always_any_mode (fun _ => 1 # 3) getCerberusHardcodedDrops 1000
             "Infernal ashes"); [lia | reflexivity | apply ashes_not_later |].
    intros d [<-|[]] _. reflexivity.
Defined.

(** X13. In exact mode, with draws in [[0, 1)], the loot of an item that
    only the [always] entries yield, and whose name is not one of a member
    of [Object.prototype], is a number between the kill count times the sum
    of the minima and the kill count times the sum of the maxima of its
    entries. *)
Theorem exact_mode_always_range
    (rng : nat -> Q) (t : DropTable) (killCount : Z) (i : string) :
  unitDraws rng -> 0 <= killCount <= 1000 ->
  inherited i = false ->
  ~ In i (laterItems t) ->
  (forall d, In d (always t) -> min (quantity d) <= max (quantity d)) ->
  numeric (Result.loot (runSimulation rng t killCount)) i
  /\ killCount * totalFor i (fun d => min (quantity d)) (always t)
     <= amount (Result.loot (runSimulation rng t killCount)) i
     <= killCount * totalFor i (fun d => max (quantity d)) (always t).
Proof.
  intros Hu Hk Hi Hl Hq. unfold runSimulation.
  replace (1000 <? killCount) with false by (symmetry; apply Z.ltb_ge; lia).
  cbn [finish Result.loot].
  assert (H0 : numeric (loot initial) i)
    by (unfold numeric, initial; cbn [loot]; now rewrite lookup_empty).
  destruct (kills_range rng Hu t i (Z.to_nat killCount) Hi Hl Hq 0 initial H0)
    as [Hn H].
  rewrite Z2Nat.id in H by lia.
  assert (E : amount (loot initial) i = 0)
    by (unfold amount, initial; cbn [loot]; now rewrite lookup_empty).
  rewrite E in H. split; [exact Hn | lia].
Qed.

Lemma exact_mode_always_range_witness :
  let t := {| name := "Goblin"; mainTableRolls := 1; uniqueTableChance := None;
              always := [drop "Bones" 1 3 1 "Always"]; uniques := [];
              main := [drop "Coins" 5 25 2 "1/2"]; tertiary := [] |} in
  let l := Result.loot (runSimulation (fun n => Z.of_nat (n * 37 mod 100) # 100)
                          t 4) in
  numeric l "Bones" /\ 4 * (1 + 0) <= amount l "Bones" <= 4 * (3 + 0).
Proof.
  intros t l.
  apply (exact_mode_always_range (fun n => Z.of_nat (n * 37 mod 100) # 100) t 4
           "Bones").
  - intros n. split.
    + unfold Qle. simpl. lia.
    + unfold Qlt. simpl. pose proof (Nat.mod_upper_bound (n * 37) 100). lia.
  - lia.
  - reflexivity.
  - intros [H|[]]. discriminate H.
  - intros d [<-|[]]. simpl. lia.
Defined.

(** ** Soundness of the matcher

    Whatever the backtracking matcher returns is a match of the pattern. *)

Section MatcherSound.
Import Regex.

Lemma star_sound g (m : matcher) (R : mstate -> mstate -> Prop) fuel :
  (forall st k res, m st k = Some res -> exists st', R st st' /\ k st' = Some res) ->
  forall st k res,
    star g m fuel st k = Some res ->
    exists st', iterate R st st' /\ k st' = Some res.
Proof.
  intros Hm. induction fuel as [|f IH]; intros st k res; simpl.
  - intros H. exists st. split; [constructor | exact H].
  - set (again := m st _).
    assert (Hagain : forall r, again = Some r ->
              exists st', iterate R st st' /\ k st' = Some r).
    { intros r Hr. apply Hm in Hr as (st1 & H1 & Hk).
      destruct (_ <? _)%nat; [|discriminate].
      apply IH in Hk as (st2 & H2 & Hk). exists st2. split; [|exact Hk].
      econstructor; eauto. }
    destruct g.
    + destruct again as [r|] eqn:E.
      * intros [= <-]. now apply Hagain.
      * intros H. exists st. split; [constructor | exact H].
    + destruct (k st) as [r|] eqn:E.
      * intros [= <-]. exists st. split; [constructor | exact E].
      * intros H. now apply Hagain.
Qed.

Lemma run_sound r : forall st k res,
  run r st k = Some res -> exists st', matches r st st' /\ k st' = Some res.
Proof.
  induction r as [|p|r1 IH1 r2 IH2|r1 IH1 r2 IH2|g r IH|i r IH];
    intros st k res; simpl.
  - intros H. now exists st.
  - destruct (rest st) as [|c s] eqn:E; [discriminate|].
    destruct (p c) eqn:Ep; [|discriminate]. intros H.
    exists (MState s (caps st)). split; [|exact H]. exists c. auto.
  - intros H. apply IH1 in H as (st1 & H1 & H).
    apply IH2 in H as (st2 & H2 & H). exists st2. split; [|exact H]. eauto.
  - destruct (run r1 st k) as [x|] eqn:E.
    + intros [= <-]. apply IH1 in E as (st1 & H1 & H). eauto.
    + intros H. apply IH2 in H as (st1 & H1 & H). eauto.
  - intros H. eapply star_sound in H; [exact H | exact IH].
  - intros H. apply IH in H as (st1 & H1 & H). eexists. split; [|exact H]. eauto.
Qed.

(** A match found by [search] starts at a suffix of the text. *)
Lemma search_sound r s : forall pre st,
  search r s = Some (pre, st) ->
  exists s0, s = pre +:+ s0 /\ matches r (MState s0 no_caps) st.
Proof.
  induction s as [|c s IH]; intros pre st; simpl.
  - destruct (run r _ Some) as [x|] eqn:E; [|discriminate].
    intros [= <- <-]. apply run_sound in E as (st1 & H1 & [= <-]).
    exists EmptyString. auto.
  - destruct (run r _ Some) as [x|] eqn:E.
    + intros [= <- <-]. apply run_sound in E as (st1 & H1 & [= <-]).
      exists (String c s). auto.
    + destruct (search r s) as [[pre' st']|] eqn:Es; [|discriminate].
      intros [= <- <-]. destruct (IH _ _ eq_refl) as (s0 & -> & H).
      exists s0. split; [now rewrite append_cons | exact H].
Qed.

Lemma consumed_app (w t : string) : consumed (w +:+ t) t = w.
Proof.
  unfold consumed. rewrite length_append.
  replace (String.length w + String.length t - String.length t)%nat
    with (String.length w) by lia.
  induction w as [|c w IH].
  - rewrite append_nil_l. now destruct t.
  - rewrite append_cons. cbn [String.length substring]. now rewrite IH.
Qed.

(** A match consumes a prefix of the remaining text. *)
Lemma matches_suffix r : forall st st',
  matches r st st' -> exists w, rest st = w +:+ rest st'.
Proof.
  induction r as [|p|r1 IH1 r2 IH2|r1 IH1 r2 IH2|g r IH|i r IH];
    intros st st'; simpl.
  - intros ->. now exists EmptyString.
  - intros (c & _ & E & _). exists (String c EmptyString). now rewrite E.
  - intros (mid & H1 & H2). apply IH1 in H1 as (w1 & E1).
    apply IH2 in H2 as (w2 & E2). exists (w1 +:+ w2).
    now rewrite E1, E2, append_assoc.
  - intros [H|H]; eauto.
  - intros H. induction H as [st|st st1 st2 H1 _ (w2 & E2)].
    + now exists EmptyString.
    + apply IH in H1 as (w1 & E1). exists (w1 +:+ w2).
      now rewrite E1, E2, append_assoc.
  - intros (st1 & H & ->). simpl. eauto.
Qed.

(** The characters that a pattern over the class [p] consumes. *)
Lemma matches_within p r : within p r -> forall st st',
  matches r st st' ->
  exists w, rest st = w +:+ rest st' /\ all_chars p w = true.
Proof.
  induction r as [|q|r1 IH1 r2 IH2|r1 IH1 r2 IH2|g r IH|i r IH];
    simpl; intros Hp st st'.
  - intros ->. now exists EmptyString.
  - intros (c & Hq & E & _). exists (String c EmptyString). rewrite E.
    split; [reflexivity|]. simpl. now rewrite (Hp c Hq).
  - destruct Hp as [Hp1 Hp2]. intros (mid & H1 & H2).
    apply (IH1 Hp1) in H1 as (w1 & E1 & A1).
    apply (IH2 Hp2) in H2 as (w2 & E2 & A2). exists (w1 +:+ w2).
    rewrite E1, E2, append_assoc, all_chars_app, A1, A2. auto.
  - destruct Hp as [Hp1 Hp2]. intros [H|H]; eauto.
  - intros H. induction H as [st|st st1 st2 H1 _ (w2 & E2 & A2)].
    + now exists EmptyString.
    + apply (IH Hp) in H1 as (w1 & E1 & A1). exists (w1 +:+ w2).
      rewrite E1, E2, append_assoc, all_chars_app, A1, A2. auto.
  - intros (st1 & H & ->). simpl. eauto.
Qed.

(** A match leaves the captures of the other groups alone. *)
Lemma matches_other_caps r : forall st st' j,
  matches r st st' -> ~ In j (groupsOf r) -> caps st' j = caps st j.
Proof.
  induction r as [|q|r1 IH1 r2 IH2|r1 IH1 r2 IH2|g r IH|i r IH];
    simpl; intros st st' j.
  - now intros ->.
  - intros (c & _ & _ & ->). reflexivity.
  - intros (mid & H1 & H2) Hj.
    rewrite (IH2 _ _ j H2), (IH1 _ _ j H1); auto;
      intros Hin; apply Hj, in_or_app; auto.
  - intros [H|H] Hj; [apply (IH1 _ _ j H) | apply (IH2 _ _ j H)];
      intros Hin; apply Hj, in_or_app; auto.
  - intros H Hj. induction H as [st|st st1 st2 H1 _ E2]; [reflexivity|].
    now rewrite E2, (IH _ _ j H1).
  - intros (st1 & H & ->) Hj. simpl. unfold set_cap.
    destruct (Nat.eqb_spec j i) as [->|]; [tauto|]. apply (IH _ _ j H). tauto.
Qed.

(** A property of all characters of the text and of the captures survives a
    match. *)
Lemma matches_all_chars p r : forall st st',
  matches r st st' ->
  all_chars p (rest st) = true -> (forall j, all_chars p (caps st j) = true) ->
  all_chars p (rest st') = true /\ forall j, all_chars p (caps st' j) = true.
Proof.
  induction r as [|q|r1 IH1 r2 IH2|r1 IH1 r2 IH2|g r IH|i r IH];
    simpl; intros st st'.
  - now intros ->.
  - intros (c & _ & E & ->) Hr Hc. rewrite E in Hr. simpl in Hr.
    apply andb_true_iff in Hr as [_ Hr]. auto.
  - intros (mid & H1 & H2) Hr Hc.
    destruct (IH1 _ _ H1 Hr Hc) as [Hr1 Hc1]. now apply (IH2 _ _ H2).
  - intros [H|H]; eauto.
  - intros H. induction H as [st|st st1 st2 H1 _ IH2]; [auto|].
    intros Hr Hc. destruct (IH _ _ H1 Hr Hc) as [Hr1 Hc1]. now apply IH2.
  - intros (st1 & H & ->) Hr Hc. simpl.
    destruct (IH _ _ H Hr Hc) as [Hr1 Hc1]. split; [exact Hr1|].
    intros j. unfold set_cap. destruct (Nat.eqb j i); [|apply Hc1].
    apply matches_suffix in H as (w & E). rewrite E, consumed_app.
    rewrite E, all_chars_app in Hr. now apply andb_true_iff in Hr as [Hr _].
Qed.

(** A pattern that needs a character does not match where it is absent. *)
Lemma matches_needs a r : needs a r -> forall st st',
  matches r st st' -> no_char a (rest st) = true -> False.
Proof.
  induction r as [|q|r1 IH1 r2 IH2|r1 IH1 r2 IH2|g r IH|i r IH];
    simpl; intros Hn st st'; try contradiction.
  - intros (c & Hq & E & _) Hr. rewrite E in Hr. unfold no_char in Hr.
    simpl in Hr. rewrite (Hn c Hq), Ascii.eqb_refl in Hr. discriminate.
  - intros (mid & H1 & H2) Hr. destruct Hn as [Hn|Hn]; [now apply (IH1 Hn _ _ H1)|].
    apply (IH2 Hn _ _ H2).
    apply matches_suffix in H1 as (w & E). unfold no_char in *.
    rewrite E, all_chars_app in Hr. now apply andb_true_iff in Hr as [_ Hr].
  - destruct Hn as [Hn1 Hn2]. intros [H|H]; eauto.
  - intros (st1 & H & _). now apply (IH Hn _ _ H).
Qed.

Lemma no_char_suffix a pre s :
  no_char a (pre +:+ s) = true -> no_char a s = true.
Proof.
  unfold no_char. rewrite all_chars_app. intros H.
  now apply andb_true_iff in H as [_ H].
Qed.

Lemma search_needs a r s :
  needs a r -> no_char a s = true -> search r s = None.
Proof.
  intros Hn Hs. destruct (search r s) as [[pre st]|] eqn:E; [|reflexivity].
  exfalso. apply search_sound in E as (s0 & -> & H).
  apply (matches_needs a r Hn _ _ H). simpl. now apply no_char_suffix in Hs.
Qed.

Lemma exec_all_needs a r s :
  needs a r -> no_char a s = true -> exec_all r s = [].
Proof.
  intros Hn Hs. unfold exec_all. cbn [exec_loop].
  now rewrite (search_needs a r s Hn Hs).
Qed.

(** Every match that [exec_all] returns is a match of the pattern at some
    suffix of the text. *)
Lemma exec_loop_sound r fuel : forall s m,
  In m (exec_loop fuel r s) ->
  exists pre s0 st, s = pre +:+ s0 /\ matches r (MState s0 no_caps) st
                    /\ m = caps st.
Proof.
  induction fuel as [|f IH]; intros s m; simpl; [tauto|].
  destruct (search r s) as [[pre st]|] eqn:E; [|simpl; tauto].
  pose proof (search_sound _ _ _ _ E) as (s0 & Hs & Hm).
  assert (Hhere : exists pre s0 st', s = pre +:+ s0
                    /\ matches r (MState s0 no_caps) st' /\ caps st = caps st')
    by (exists pre, s0, st; auto).
  destruct (_ <? _)%nat.
  - intros [<-|Hin]; [exact Hhere|].
    apply IH in Hin as (pre' & s1 & st1 & E1 & H1 & ->).
    apply matches_suffix in Hm as (w & Ew). simpl in Ew.
    exists (pre +:+ w +:+ pre'), s1, st1. split; [|auto].
    now rewrite Hs, Ew, E1, !append_assoc.
  - intros [<-|[]]. exact Hhere.
Qed.

Lemma exec_all_sound r s m :
  In m (exec_all r s) ->
  exists pre s0 st, s = pre +:+ s0 /\ matches r (MState s0 no_caps) st
                    /\ m = caps st.
Proof. apply exec_loop_sound. Qed.

Lemma match_sound r s m :
  match_ r s = Some m ->
  exists pre s0 st, s = pre +:+ s0 /\ matches r (MState s0 no_caps) st
                    /\ m = caps st.
Proof.
  unfold match_. destruct (search r s) as [[pre st]|] eqn:E; [|discriminate].
  intros [= <-]. apply search_sound in E as (s0 & Hs & H). eauto 6.
Qed.

(** The captures of a match hold characters of the text only. *)
Lemma match_caps_chars p r s m :
  all_chars p s = true -> match_ r s = Some m ->
  forall j, all_chars p (m j) = true.
Proof.
  intros Hs Hm. apply match_sound in Hm as (pre & s0 & st & -> & H & ->).
  rewrite all_chars_app in Hs. apply andb_true_iff in Hs as [_ Hs].
  now apply (matches_all_chars p r _ _ H).
Qed.

End MatcherSound.

(** ** What the patterns of the parser capture *)

Section PatternFacts.
Import Regex.

Lemma needs_lit a s : mem a s = true -> needs a (lit s).
Proof.
  induction s as [|c s IH]; simpl; [discriminate|].
  destruct (Ascii.eqb_spec a c) as [->|Hne]; simpl.
  - intros _. destruct s; simpl; [|left];
      intros x H; apply Ascii.eqb_eq in H; now subst.
  - intros H. destruct s as [|c' s']; [discriminate|]. right. now apply IH.
Qed.

Lemma same_letter_bar x : same_letter "|" x = true -> x = "|"%char.
Proof.
  destruct x as [[] [] [] [] [] [] [] []]; vm_compute; intros H;
    first [reflexivity | discriminate H].
Qed.

Lemma needs_liti a s :
  (forall x, same_letter a x = true -> x = a) ->
  mem a s = true -> needs a (liti s).
Proof.
  intros Ha. induction s as [|c s IH]; simpl; [discriminate|].
  destruct (Ascii.eqb_spec a c) as [<-|Hne]; simpl.
  - intros _. destruct s; simpl; [|left]; exact Ha.
  - intros H. destruct s as [|c' s']; [discriminate|]. right. now apply IH.
Qed.

Lemma needs_liti_bar s : mem "|" s = true -> needs "|" (liti s).
Proof. apply needs_liti, same_letter_bar. Qed.

(** The four line patterns need a vertical bar. *)
Lemma dropsLine_needs_bar : needs "|" Patterns.dropsLine.
Proof. left. now apply needs_lit. Qed.

Lemma dropsLineAlt1_needs_bar : needs "|" Patterns.dropsLineAlt1.
Proof. right. right. left. now apply needs_liti_bar. Qed.

Lemma dropsLineAlt2_needs_bar : needs "|" Patterns.dropsLineAlt2.
Proof. left. now apply needs_liti_bar. Qed.

Lemma dropsLineAlt3_needs_bar : needs "|" Patterns.dropsLineAlt3.
Proof. left. now apply needs_lit. Qed.

(** Without a vertical bar a text has no drop line of any format. *)
Lemma parseSection_no_bar s :
  no_char "|" s = true -> parseSection s [] = [].
Proof.
  intros H. unfold parseSection. destruct (is_empty s); [reflexivity|].
  rewrite (exec_all_needs "|" _ s dropsLine_needs_bar H). simpl.
  unfold tryAlternativeParsing, tryPatterns.
  rewrite (exec_all_needs "|" _ s dropsLineAlt1_needs_bar H),
    (exec_all_needs "|" _ s dropsLineAlt2_needs_bar H),
    (exec_all_needs "|" _ s dropsLineAlt3_needs_bar H).
  reflexivity.
Qed.

Lemma firstMatch_caps_chars p ps s m :
  all_chars p s = true -> firstMatch ps s = Some m ->
  forall j, all_chars p (m j) = true.
Proof.
  intros Hs. induction ps as [|r ps IH]; simpl; [discriminate|].
  destruct (match_ r s) as [m'|] eqn:E.
  - intros [= <-]. now apply (match_caps_chars p r s).
  - exact IH.
Qed.

Lemma sectionDrops_no_bar ps s :
  no_char "|" s = true -> sectionDrops ps s = [].
Proof.
  intros H. unfold sectionDrops.
  destruct (firstMatch ps s) as [m|] eqn:E; [|reflexivity].
  apply parseSection_no_bar. unfold no_char.
  now apply (firstMatch_caps_chars _ ps s m H E).
Qed.

Lemma parseMainDropTable_no_bar s a u t :
  no_char "|" s = true -> parseMainDropTable s a u [] t = [].
Proof.
  intros H. unfold parseMainDropTable.
  rewrite (exec_all_needs "|" _ s dropsLine_needs_bar H). simpl.
  unfold tryAlternativeParsing, tryPatterns.
  rewrite (exec_all_needs "|" _ s dropsLineAlt1_needs_bar H),
    (exec_all_needs "|" _ s dropsLineAlt2_needs_bar H),
    (exec_all_needs "|" _ s dropsLineAlt3_needs_bar H).
  reflexivity.
Qed.

(** One or more characters of a class: the text consumed is not empty. *)
Lemma plus_consumes p st st' :
  matches (plus (Chr p)) st st' ->
  exists c w, consumed (rest st) (rest st') = String c w.
Proof.
  intros (mid & (c & _ & E & _) & H).
  apply (matches_suffix (Star true (Chr p))) in H as (w & Ew).
  exists c, w. rewrite E, Ew, <- append_cons. apply consumed_app.
Qed.

(** The first capture of a drop line is not empty. *)
Lemma dropsLine_name s m :
  In m (exec_all Patterns.dropsLine s) -> m 1%nat <> EmptyString.
Proof.
  intros H. apply exec_all_sound in H as (pre & s0 & st & _ & H & ->).
  unfold Patterns.dropsLine in H. cbn [seq] in H.
  destruct H as (m1 & _ & H). destruct H as (m2 & H & Hpost).
  destruct H as (st1 & Hg & ->).
  rewrite (matches_other_caps _ _ _ 1%nat Hpost).
  - cbn [caps]. unfold set_cap. cbn [Nat.eqb].
    destruct (plus_consumes _ _ _ Hg) as (c & w & ->). discriminate.
  - vm_compute. intros [H|[H|[]]]; discriminate H.
Qed.

(** The capture of the roll count holds digits only. *)
Lemma mainTableRolls_digits s m :
  match_ Patterns.mainTableRolls s = Some m ->
  all_chars Js.is_digit (m 1%nat) = true.
Proof.
  intros H. apply match_sound in H as (pre & s0 & st & _ & H & ->).
  unfold Patterns.mainTableRolls in H. cbn [seq] in H.
  destruct H as (m1 & _ & H). destruct H as (m2 & _ & H).
  destruct H as (m3 & H & Hpost). destruct H as (st1 & Hg & ->).
  rewrite (matches_other_caps _ _ _ 1%nat Hpost).
  - cbn [caps]. unfold set_cap. cbn [Nat.eqb].
    apply (matches_within Js.is_digit) in Hg as (w & -> & Hw);
      [now rewrite consumed_app|].
    split; intros c Hc; exact Hc.
  - vm_compute. tauto.
Qed.

Lemma parseMainTableRolls_positive s : 1 <= parseMainTableRolls s.
Proof.
  unfold parseMainTableRolls.
  destruct (match_ Patterns.mainTableRolls s) as [m|] eqn:E; [|lia].
  apply mainTableRolls_digits in E. apply int_or_pos; [|lia].
  intros n Hn. eapply parseInt_nonneg; [|exact Hn].
  now apply digits_no_char.
Qed.

End PatternFacts.

(** ** Tables that the parser returns *)

Section ParsedTables.

Lemma lineDrop_wellFormed s m :
  In m (Regex.exec_all Patterns.dropsLine s) -> wellFormed (lineDrop m).
Proof.
  intros H. split; [apply parseQuantity_bounds|].
  split; [intros _; apply parseRarity_positive|]. now apply (dropsLine_name s).
Qed.

Lemma lineDrops_wellFormed s :
  Forall wellFormed (map lineDrop (Regex.exec_all Patterns.dropsLine s)).
Proof.
  apply List.Forall_forall. intros d Hd.
  apply in_map_iff in Hd as (m & <- & Hm). now apply (lineDrop_wellFormed s).
Qed.

Lemma altDrops_wellFormed ms : Forall wellFormed (altDrops ms).
Proof.
  unfold altDrops. induction ms as [|m ms IH]; simpl; [constructor|].
  apply Forall_app. split; [|exact IH].
  destruct (negb (is_empty (m 1%nat)) && negb (is_empty (Js.trim (m 1%nat)))
            && negb (Js.includes (m 1%nat) "=")) eqn:E; [|constructor].
  constructor; [|constructor].
  apply andb_true_iff in E as [E _]. apply andb_true_iff in E as [_ E].
  split; [apply parseQuantity_bounds|].
  split; [intros _; apply parseRarity_positive|].
  cbn [item]. intros Hempty. rewrite Hempty in E. discriminate E.
Qed.

Lemma tryPatterns_wellFormed ps content : forall acc,
  Forall wellFormed acc -> Forall wellFormed (tryPatterns ps content acc).
Proof.
  induction ps as [|p ps IH]; intros acc Hacc; simpl; [exact Hacc|].
  assert (H : Forall wellFormed (acc ++ altDrops (Regex.exec_all p content)))
    by (apply Forall_app; split; [exact Hacc | apply altDrops_wellFormed]).
  destruct (_ <? _)%nat; [exact H | now apply IH].
Qed.

Lemma parseSection_wellFormed s acc :
  Forall wellFormed acc -> Forall wellFormed (parseSection s acc).
Proof.
  intros Hacc. unfold parseSection. destruct (is_empty s); [exact Hacc|].
  assert (H : Forall wellFormed
                (acc ++ map lineDrop (Regex.exec_all Patterns.dropsLine s)))
    by (apply Forall_app; split; [exact Hacc | apply lineDrops_wellFormed]).
  destruct (_ =? _)%nat; [|exact H].
  now apply tryPatterns_wellFormed.
Qed.

Lemma sectionDrops_wellFormed ps s : Forall wellFormed (sectionDrops ps s).
Proof.
  unfold sectionDrops. destruct (firstMatch ps s); [|constructor].
  apply parseSection_wellFormed. constructor.
Qed.

Lemma filter_wellFormed (f : Drop -> bool) l :
  Forall wellFormed l -> Forall wellFormed (List.filter f l).
Proof.
  intros H. apply List.Forall_forall. intros d Hd.
  apply filter_In in Hd as [Hd _]. rewrite List.Forall_forall in H. auto.
Qed.

Lemma parseMainDropTable_wellFormed s a u t :
  Forall wellFormed (parseMainDropTable s a u [] t).
Proof.
  unfold parseMainDropTable.
  assert (H : Forall wellFormed
                ([] ++ List.filter
                   (fun d => negb (in_other_tables a u t (item d)))
                   (map lineDrop (Regex.exec_all Patterns.dropsLine s))))
    by (apply filter_wellFormed, lineDrops_wellFormed).
  destruct (_ =? _)%nat; [|exact H].
  apply filter_wellFormed, tryPatterns_wellFormed, H.
Qed.

Lemma parseUniqueTableChance_positive s c :
  parseUniqueTableChance s = Some c -> (0 < c)%Q.
Proof.
  unfold parseUniqueTableChance. destruct (firstMatch _ s) as [m|]; [|discriminate].
  destruct (_ && _); [|discriminate].
  destruct (map Js.parseInt (Js.split "/" (m 1%nat))) as [|[num|] [|[denom|] ?]];
    try discriminate.
  destruct ((0 <? num) && (0 <? denom)) eqn:E; [|discriminate].
  intros [= <-]. apply andb_true_iff in E as [E1 E2].
  apply Z.ltb_lt in E1, E2.
  apply Qlt_shift_div_l; unfold Qlt; simpl; lia.
Qed.

Lemma catalogue_wellFormed monsterName fb :
  getFallbackDropData monsterName = Some fb ->
  1 <= mainTableRolls fb
  /\ (forall c, uniqueTableChance fb = Some c -> (0 < c)%Q)
  /\ Forall wellFormed (allDrops fb).
Proof.
  assert (W : forall i lo hi r txt,
            1 <= lo <= hi -> (0 < r)%Q -> i <> EmptyString ->
            wellFormed (drop i lo hi r txt))
    by (intros; repeat split; simpl; auto; lia).
  unfold getFallbackDropData.
  destruct (Js.includes _ "cerberus"); [|destruct (_ || _); [|discriminate]];
    intros [= <-]; (split; [simpl; lia|]);
    (split; [intros c [= <-]; reflexivity|]);
    unfold allDrops; cbn [always main uniques tertiary getCerberusHardcodedDrops
                            kingBlackDragonDrops app];
    repeat (constructor; [apply W; [lia | reflexivity | discriminate]|]);
    constructor.
Qed.

End ParsedTables.

(** What every table that the parser returns satisfies. *)
Lemma parsed_table_wellFormed (wikiContent monsterName : string) :
  let t := parseDropTables wikiContent monsterName in
  1 <= mainTableRolls t
  /\ (forall c, uniqueTableChance t = Some c -> (0 < c)%Q)
  /\ Forall wellFormed (allDrops t)
  /\ validTable t.
Proof.
  cbv zeta.
  assert (H : 1 <= mainTableRolls (parseDropTables wikiContent monsterName)
              /\ (forall c, uniqueTableChance (parseDropTables wikiContent monsterName)
                            = Some c -> (0 < c)%Q)
              /\ Forall wellFormed (allDrops (parseDropTables wikiContent monsterName))).
  { unfold parseDropTables.
    set (a := sectionDrops _ wikiContent).
    set (u := sectionDrops _ wikiContent).
    set (t := sectionDrops _ wikiContent).
    set (m := parseMainDropTable wikiContent a u [] t).
    set (drops := {| name := monsterName; always := a; uniques := u; main := m;
                     tertiary := t |}).
    assert (Hdrops : 1 <= mainTableRolls drops
                     /\ (forall c, uniqueTableChance drops = Some c -> (0 < c)%Q)
                     /\ Forall wellFormed (allDrops drops)).
    { subst drops. unfold allDrops. cbn [mainTableRolls uniqueTableChance always
                                           main uniques tertiary].
      split; [|split].
      - destruct (Js.includes _ "cerberus"); [lia|].
        apply parseMainTableRolls_positive.
      - intros c. destruct (Js.includes _ "cerberus").
        + destruct (parseUniqueTableChance wikiContent) as [c0|] eqn:E.
          * destruct (Qeq_bool c0 0); intros [= <-]; [reflexivity|].
            now apply (parseUniqueTableChance_positive wikiContent).
          * intros [= <-]. reflexivity.
        + apply parseUniqueTableChance_positive.
      - repeat (apply Forall_app; split);
          try apply sectionDrops_wellFormed.
        apply parseMainDropTable_wellFormed. }
    destruct (all_empty _); [|exact Hdrops].
    destruct (getFallbackDropData monsterName) as [fb|] eqn:F; [|exact Hdrops].
    now apply (catalogue_wellFormed monsterName). }
  destruct H as (H1 & H2 & H3).
  split; [exact H1|]. split; [exact H2|]. split; [exact H3|].
  intros x Hx. rewrite List.Forall_forall in H3. now apply H3.
Qed.

(** X14. Every table that [parseDropTables] returns, parsed or taken from
    the catalogue, keeps the data model on these points: at least one roll of
    the main table, and for every drop a quantity range with
    [1 <= min <= max], a name that is not empty, and a positive rarity when
    the rarity text is shorter than 256 characters and is not, in lower
    case, the name of a member of [Object.prototype]. *)
Theorem parseDropTables_well_formed (wikiContent monsterName : string) :
  let t := parseDropTables wikiContent monsterName in
  1 <= mainTableRolls t
  /\ Forall wellFormed (allDrops t)
  /\ validTable t.
Proof.
  destruct (parsed_table_wellFormed wikiContent monsterName) as (H1 & _ & H2 & H3).
  cbv zeta. auto.
Qed.

(** X15. A page without any vertical bar holds no drop line of any of the
    four formats: [parseDropTables] returns the table of the catalogue when
    the name is known there, and otherwise a table without drops that keeps
    the name, the roll count and the unique-table chance read from the text;
    for such a page [simulateKills] reports that no drop data was found, and
    stores nothing, when neither the page title nor the monster name is in
    the catalogue. *)
Theorem parseDropTables_without_bar (wikiContent monsterName : string) :
  no_char "|" wikiContent = true ->
  parseDropTables wikiContent monsterName
  = match getFallbackDropData monsterName with
    | Some fallbackData => fallbackData
    | None =>
        {| name := monsterName;
           mainTableRolls := parseMainTableRolls wikiContent;
           uniqueTableChance := parseUniqueTableChance wikiContent;
           always := []; uniques := []; main := []; tertiary := [] |}
    end
  /\ forall rng clock requested killCount dropCache,
       is_empty wikiContent = false ->
       getFallbackDropData monsterName = None ->
       getFallbackDropData requested = None ->
       cachedTable (atLookup clock) (Js.toLowerCase requested) dropCache = None ->
       simulateKills rng clock (Page monsterName wikiContent) requested killCount
         dropCache
       = (Error ("No drop table data found for: " +:+ quoted requested),
          dropCache).
Proof.
  intros Hbar.
  assert (Hparse : parseDropTables wikiContent monsterName
    = match getFallbackDropData monsterName with
      | Some fallbackData => fallbackData
      | None =>
          {| name := monsterName;
             mainTableRolls := parseMainTableRolls wikiContent;
             uniqueTableChance := parseUniqueTableChance wikiContent;
             always := []; uniques := []; main := []; tertiary := [] |}
      end).
  { unfold parseDropTables. rewrite !(sectionDrops_no_bar _ _ Hbar).
    rewrite (parseMainDropTable_no_bar _ _ _ _ Hbar).
    cbn [all_empty forallb length Nat.eqb andb].
    destruct (getFallbackDropData monsterName) eqn:F; [reflexivity|].
    unfold getFallbackDropData in F.
    destruct (Js.includes (Js.toLowerCase monsterName) "cerberus");
      [discriminate F | reflexivity]. }
  split; [exact Hparse|].
  intros rng clock requested killCount dropCache Hcontent Hf1 Hf2 Hmiss.
  unfold simulateKills. rewrite Hmiss, Hcontent, Hparse, Hf1.
  cbn [always main uniques tertiary all_empty forallb length Nat.eqb andb].
  now rewrite Hf2.
Qed.

Lemma parseDropTables_without_bar_witness :
  parseDropTables "The goblin drops nothing of note." "Goblin"
  = {| name := "Goblin"; mainTableRolls := 1; uniqueTableChance := None;
       always := []; uniques := []; main := []; tertiary := [] |}.
Proof.
  rewrite (proj1 (parseDropTables_without_bar
                    "The goblin drops nothing of note." "Goblin" eq_refl)).
  vm_compute. reflexivity.
Defined.

(** X16. No drop line of the page is lost: when the catalogue does not know
    the monster, every match of the primary line pattern in the page is an
    entry of [main], unless its item is listed in the always, uniques or
    tertiary section. *)
Theorem parseDropTables_keeps_lines
    (wikiContent monsterName : string) (m : nat -> string) :
  getFallbackDropData monsterName = None ->
  In m (Regex.exec_all Patterns.dropsLine wikiContent) ->
  let t := parseDropTables wikiContent monsterName in
  In (lineDrop m) (main t)
  \/ In (item (lineDrop m))
       (names (always t) ++ names (uniques t) ++ names (tertiary t)).
Proof.
  intros Hf Hm. cbv zeta. unfold parseDropTables. rewrite Hf.
  set (a := sectionDrops _ wikiContent).
  set (u := sectionDrops _ wikiContent).
  set (t := sectionDrops _ wikiContent).
  assert (Hsame : forall (b : bool) (x : DropTable), (if b then x else x) = x)
    by (intros []; reflexivity).
  rewrite Hsame. cbn [main always uniques tertiary].
  destruct (in_other_tables a u t (item (lineDrop m))) eqn:E.
  - right. unfold in_other_tables in E.
    apply orb_true_iff in E as [E|E]; [apply orb_true_iff in E as [E|E]|];
      apply has_item_In in E; apply in_or_app; auto;
      right; apply in_or_app; auto.
  - left. unfold parseMainDropTable.
    set (found := List.filter _ (map lineDrop _)).
    assert (Hin : In (lineDrop m) found).
    { apply filter_In. split; [now apply in_map | now rewrite E]. }
    destruct found as [|d found']; [destruct Hin|]. exact Hin.
Qed.

Lemma parseDropTables_keeps_lines_witness :
  let m := hd Regex.no_caps (Regex.exec_all Patterns.dropsLine repeatedLines) in
  let t := parseDropTables repeatedLines "Goblin" in
  In (lineDrop m) (main t)
  \/ In (item (lineDrop m))
       (names (always t) ++ names (uniques t) ++ names (tertiary t)).
Proof.
  intros m. apply parseDropTables_keeps_lines; [reflexivity|].
  subst m. vm_compute. left. reflexivity.
Defined.

(** ** The catalogue *)

Section Catalogue.

Lemma toLowerCase_app a b :
  Js.toLowerCase (a +:+ b) = Js.toLowerCase a +:+ Js.toLowerCase b.
Proof.
  induction a as [|c a IH]; [now rewrite !append_nil_l|].
  rewrite append_cons. cbn [Js.toLowerCase]. now rewrite append_cons, IH.
Qed.

Lemma strip_prefix_app sub b : Js.strip_prefix sub (sub +:+ b) = Some b.
Proof.
  induction sub as [|c sub IH]; [rewrite append_nil_l; now destruct b|].
  rewrite append_cons. cbn [Js.strip_prefix]. now rewrite Ascii.eqb_refl.
Qed.

Lemma includes_app a sub b : Js.includes (a +:+ sub +:+ b) sub = true.
Proof.
  induction a as [|c a IH].
  - rewrite append_nil_l.
    destruct (sub +:+ b) eqn:E; cbn [Js.includes];
      rewrite <- E, strip_prefix_app; reflexivity.
  - rewrite append_cons. cbn [Js.includes].
    destruct (Js.strip_prefix sub _); [reflexivity | exact IH].
Qed.

Lemma includes_first_char s a sub :
  Js.includes s (String a sub) = true -> no_char a s = false.
Proof.
  induction s as [|c s IH]; cbn [Js.includes Js.strip_prefix]; [discriminate|].
  unfold no_char. cbn [all_chars]. rewrite (Ascii.eqb_sym c a).
  destruct (Ascii.eqb a c); [reflexivity|]. intros H. now apply IH in H.
Qed.

End Catalogue.

(** X17. The catalogue is searched by substring without regard to letter
    case: a name that contains [cerberus] in any letter case gets the
    Cerberus table, also when it mentions the King Black Dragon; a name that
    contains [kbd] or [king black dragon] and not [cerberus] gets the King
    Black Dragon table; a name with neither the letter c nor the letter k is
    not in the catalogue. *)
Theorem getFallbackDropData_by_substring :
  (forall pre s post,
      Js.toLowerCase s = "cerberus" ->
      getFallbackDropData (pre +:+ s +:+ post) = Some getCerberusHardcodedDrops)
  /\ (forall pre s post,
        Js.toLowerCase s = "kbd" \/ Js.toLowerCase s = "king black dragon" ->
        Js.includes (Js.toLowerCase (pre +:+ s +:+ post)) "cerberus" = false ->
        getFallbackDropData (pre +:+ s +:+ post) = Some kingBlackDragonDrops)
  /\ (forall monsterName,
        no_char "c" (Js.toLowerCase monsterName) = true ->
        no_char "k" (Js.toLowerCase monsterName) = true ->
        getFallbackDropData monsterName = None).
Proof.
  split; [|split].
  - intros pre s post Hs. unfold getFallbackDropData.
    now rewrite !toLowerCase_app, Hs, includes_app.
  - intros pre s post Hs Hc. unfold getFallbackDropData. rewrite Hc.
    rewrite !toLowerCase_app.
    destruct Hs as [-> | ->]; rewrite includes_app;
      [reflexivity | now rewrite orb_true_r].
  - intros monsterName Hc Hk. unfold getFallbackDropData.
    destruct (Js.includes _ "cerberus") eqn:E1;
      [apply includes_first_char in E1; congruence|].
    destruct (Js.includes _ "kbd") eqn:E2;
      [apply includes_first_char in E2; congruence|].
    destruct (Js.includes _ "king black dragon") eqn:E3;
      [apply includes_first_char in E3; congruence|].
    reflexivity.
Qed.

Lemma getFallbackDropData_by_substring_witness :
  getFallbackDropData ("The KBD and " +:+ "CerBerus" +:+ " (boss)")
  = Some getCerberusHardcodedDrops
  /\ getFallbackDropData "Goblin" = None.
Proof.
  destruct getFallbackDropData_by_substring as (A & _ & C). split.
  - apply A. reflexivity.
  - apply C; reflexivity.
Defined.

(** X18. For a drop line whose rarity text is a fraction [n/d] of positive
    integers, with [n] and [d] up to [2^53] the parsed rarity is [d/n] but
    the weight in the lottery of the main table is the numerator [n] alone:
    the denominator plays no part in the weight, so two lines with the same
    numerator, of any size, weigh the same whatever their rates. *)
Theorem dropWeight_of_fraction (m : nat -> string) (n d : positive) :
  m 3%nat = numeral n +:+ String "/" (numeral d) ->
  (exactInteger (Z.pos n) -> exactInteger (Z.pos d) ->
   rarity (lineDrop m) = (inject_Z (Z.pos d) / inject_Z (Z.pos n))%Q)
  /\ (exactInteger (Z.pos n) -> dropWeight (lineDrop m) = inject_Z (Z.pos n))
  /\ forall (m' : nat -> string) (d' : positive),
       m' 3%nat = numeral n +:+ String "/" (numeral d') ->
       dropWeight (lineDrop m') = dropWeight (lineDrop m).
Proof.
  assert (W : forall (c : nat -> string) (k : positive),
            c 3%nat = numeral n +:+ String "/" (numeral k) ->
            dropWeight (lineDrop c)
            = inject_Z (Js.int_or (Js.parseInt (numeral n)) 1)).
  { intros c k Hc. unfold dropWeight, lineDrop. cbn [rarityText]. rewrite Hc.
    now destruct (fraction_text_clean n k) as (_ & _ & -> & ->). }
  intros Hm. split; [|split].
  - intros Hn Hd. unfold lineDrop. cbn [rarity]. rewrite Hm.
    now apply parseRarity_fraction.
  - intros Hn. now rewrite (W m d Hm), parseInt_numeral.
  - intros m' d' Hm'. now rewrite (W m d Hm), (W m' d' Hm').
Qed.

Lemma dropWeight_of_fraction_witness :
  dropWeight (lineDrop (fun _ => "1/128")) = inject_Z 1
  /\ dropWeight (lineDrop (fun _ => "1/2")) = dropWeight (lineDrop (fun _ => "1/128")).
Proof.
  destruct (dropWeight_of_fraction (fun _ => "1/128") 1 128 eq_refl)
    as (_ & A & B).
  split; [apply A; unfold exactInteger; simpl; lia|].
  now apply (B (fun _ => "1/2") 2%positive).
Defined.

(** ** Which entry is evicted *)

Section Eviction.

Lemma oldest_fold_keep (post : Cache) (acc : option string * Z) :
  Forall (fun kv => snd acc <= timestamp (snd kv)) post ->
  fold_left
    (fun (acc : option string * Z) (kv : string * CacheEntry) =>
       if timestamp (snd kv) <? snd acc
       then (Some (fst kv), timestamp (snd kv)) else acc)
    post acc = acc.
Proof.
  induction post as [|kv post IH]; intros H; [reflexivity|].
  inversion H as [|? ? Hkv Hpost]; subst. cbn [fold_left].
  replace (_ <? _) with false by (symmetry; apply Z.ltb_ge; exact Hkv).
  now apply IH.
Qed.

Lemma oldestEntry_first now pre k e post :
  timestamp e < now ->
  Forall (fun kv => timestamp e < timestamp (snd kv)) pre ->
  Forall (fun kv => timestamp e <= timestamp (snd kv)) post ->
  oldestEntry now (pre ++ (k, e) :: post) = (Some k, timestamp e).
Proof.
  intros Hnow Hpre Hpost. unfold oldestEntry. rewrite fold_left_app.
  destruct (oldestEntry_fold (None, now) pre) as (_ & _ & Hr).
  set (r := fold_left _ pre (None, now)) in *. cbn [fold_left fst snd].
  assert (Hlt : timestamp e < snd r).
  { destruct Hr as [[_ ->]|(kv & Hin & _ & ->)]; [exact Hnow|].
    rewrite List.Forall_forall in Hpre. now apply Hpre. }
  replace (timestamp e <? snd r) with true by (symmetry; apply Z.ltb_lt; exact Hlt).
  now apply oldest_fold_keep.
Qed.

End Eviction.

(** X19. [evictLRUEntry] deletes the entry with the smallest time stamp,
    the first one in insertion order when several share it, provided that
    time stamp lies before the current time; it deletes nothing when that
    entry is stored under the empty name, and nothing when no time stamp
    lies before the current time. *)
Theorem evictLRUEntry_first_oldest
    (now : Z) (pre post : Cache) (k : string) (e : CacheEntry) :
  timestamp e < now ->
  Forall (fun kv => timestamp e < timestamp (snd kv)) pre ->
  Forall (fun kv => timestamp e <= timestamp (snd kv)) post ->
  let c := pre ++ (k, e) :: post in
  evictLRUEntry now c = (if is_empty k then c else cacheDelete k c)
  /\ (List.NoDup (keys c) -> is_empty k = false ->
      evictLRUEntry now c = pre ++ post)
  /\ (forall c', Forall (fun kv => now <= timestamp (snd kv)) c' ->
                 evictLRUEntry now c' = c').
Proof.
  intros Hnow Hpre Hpost c.
  assert (He : evictLRUEntry now c = (if is_empty k then c else cacheDelete k c)).
  { unfold evictLRUEntry. subst c.
    now rewrite (oldestEntry_first now pre k e post Hnow Hpre Hpost). }
  split; [exact He|]. split.
  - intros Hnd Hk. rewrite He, Hk. subst c. unfold keys in Hnd.
    rewrite map_app in Hnd. cbn [map fst] in Hnd.
    apply NoDup_remove_2 in Hnd.
    unfold cacheDelete. rewrite List.filter_app. cbn [List.filter fst].
    rewrite String.eqb_refl. cbn [negb].
    fold (cacheDelete k pre). fold (cacheDelete k post).
    rewrite !cacheDelete_absent; [reflexivity| |];
      intros Hin; apply Hnd, in_or_app; auto.
  - intros c' Hc'. unfold evictLRUEntry.
    now rewrite (oldestEntry_none now c' Hc').
Qed.

Lemma evictLRUEntry_first_oldest_witness :
  let entry := fun t => {| data := kingBlackDragonDrops; timestamp := t |} in
  evictLRUEntry 10 [("a", entry 5); ("b", entry 3); ("c", entry 3)]
  = [("a", entry 5); ("c", entry 3)].
Proof.
  intros entry.
  refine (proj1 (proj2 (evictLRUEntry_first_oldest 10 [("a", entry 5)]
                          [("c", entry 3)] "b" (entry 3) _ _ _)) _ _).
  - simpl. lia.
  - repeat constructor; simpl; lia.
  - repeat constructor; simpl; lia.
  - repeat constructor; simpl; intuition discriminate.
  - reflexivity.
Defined.

(** ** From a call to its result *)

Section CallsSound.

Variable rng : nat -> Q.
Variable clock : Clock.




End CallsSound.



(** ** The order of the notable drops *)

Section KillOrder.

Variable rng : nat -> Q.
Variable dropData : DropTable.

Lemma ascending_snoc l x :
  ascending l -> Forall (fun y => y <= x) l -> ascending (l ++ [x]).
Proof.
  induction l as [|a l IH]; simpl; intros Hs Hx; [split; constructor|].
  destruct Hs as [Ha Hs]. inversion Hx as [|? ? Hax Hlx]; subst.
  split; [|now apply IH].
  apply Forall_app. split; [exact Ha|]. now repeat constructor.
Qed.

(** The notable drops so far are in the order of their kills and none lies
    after kill [j]. *)
Let upTo (j : Z) (st : SimState) : Prop :=
  ascending (killNumbers (uniqueDrops st))
  /\ Forall (fun y => y <= j) (killNumbers (uniqueDrops st)).

Lemma upTo_next j st : upTo j st -> upTo (j + 1) st.
Proof.
  intros [Hs Hle]. split; [exact Hs|].
  eapply List.Forall_impl; [|exact Hle]. simpl. intros; lia.
Qed.

Lemma simulateKill_order i st :
  upTo i st -> upTo (i + 1) (snd (simulateKill rng dropData i st)).
Proof.
  intros H. apply upTo_next in H. revert st H.
  assert (I_random : forall st, upTo (i + 1) st ->
                                upTo (i + 1) (snd (Math_random rng st)))
    by (intros st Hst; exact Hst).
  assert (I_add : forall d q st, In d (allDrops dropData) -> True ->
                    upTo (i + 1) st ->
                    upTo (i + 1) (snd (addToLoot (item d) q st)))
    by (intros d q st _ _ Hst; exact Hst).
  assert (I_push : forall d kn st, notable dropData d -> kn = i + 1 ->
                     upTo (i + 1) st ->
                     upTo (i + 1) (snd (pushUnique d kn st))).
  { intros d kn st _ -> [Hs Hle]. unfold upTo, killNumbers.
    cbn [pushUnique snd uniqueDrops]. rewrite map_app. cbn [map UniqueDrop.killNumber].
    split; [now apply ascending_snoc|].
    apply Forall_app. split; [exact Hle|]. repeat constructor. lia. }
  assert (P : preserves (upTo (i + 1)) (simulateKill rng dropData i)
                (fun _ => True)).
  { unfold simulateKill. cbv zeta.
    eapply preserves_then;
      [apply (keeps_alwaysDrops rng dropData _ (fun _ => True)); auto|].
    eapply preserves_then;
      [apply (keeps_mainRolls rng dropData _ (fun _ => True)); auto|].
    eapply preserves_then;
      [apply (keeps_uniqueRolls rng dropData _ (fun _ => True)
                (fun kn => kn = i + 1)); auto|].
    apply (keeps_tertiaryRolls rng dropData _ (fun _ => True)
             (fun kn => kn = i + 1)); auto. }
  intros st Hst. apply (P st Hst).
Qed.

Lemma kills_order n : forall from st,
  upTo from st ->
  upTo (from + Z.of_nat n) (snd (forLoop n from (simulateKill rng dropData) st)).
Proof.
  induction n as [|n IH]; intros from st H.
  - cbn [forLoop ret snd]. now replace (from + Z.of_nat 0) with from by lia.
  - rewrite snd_forLoop_S.
    replace (from + Z.of_nat (S n)) with (from + 1 + Z.of_nat n) by lia.
    apply IH. now apply simulateKill_order.
Qed.

Lemma exact_mode_order killCount :
  killCount <= 1000 ->
  ascending (killNumbers (Result.uniqueDrops (runSimulation rng dropData killCount))).
Proof.
  intros Hk. unfold runSimulation.
  replace (1000 <? killCount) with false by (symmetry; apply Z.ltb_ge; lia).
  cbn [finish Result.uniqueDrops].
  apply (kills_order (Z.to_nat killCount) 0 initial). split; constructor.
Qed.

End KillOrder.

(** X21. In exact mode the notable drops are reported in the order of their
    kills: the kill numbers of the list never decrease. *)
Theorem exact_mode_events_in_kill_order
    (rng : nat -> Q) (t : DropTable) (killCount : Z) :
  killCount <= 1000 ->
  ascending (killNumbers (Result.uniqueDrops (runSimulation rng t killCount))).
Proof. apply exact_mode_order. Qed.

Lemma exact_mode_events_in_kill_order_witness :
  ascending
    (killNumbers (Result.uniqueDrops
                    (runSimulation (fun _ => 0%Q) kingBlackDragonDrops 3))).
Proof. apply exact_mode_events_in_kill_order. lia. Defined.

(** ** Reading back what was written *)

Section RoundTrip.
Import Regex.

Lemma run_lit s : forall t c k,
  run (lit s) (MState (s +:+ t) c) k = k (MState t c).
Proof.
  induction s as [|a s IH]; intros t c k.
  - now rewrite append_nil_l.
  - rewrite append_cons. destruct s as [|b s'].
    + cbn [lit run rest caps]. now rewrite Ascii.eqb_refl, append_nil_l.
    + change (lit (String a (String b s')))
        with (Cat (Chr (Ascii.eqb a)) (lit (String b s'))).
      cbn [run rest caps]. rewrite Ascii.eqb_refl. apply IH.
Qed.

Lemma run_plus_class p a w t c k res :
  p a = true -> all_chars p w = true -> stops p t ->
  k (MState t c) = Some res ->
  run (plus (Chr p)) (MState (String a w +:+ t) c) k = Some res.
Proof.
  intros Ha Hw Ht Hk. unfold plus. rewrite append_cons.
  cbn [run rest caps]. rewrite Ha. cbn [rest].
  apply star_class_run; auto. rewrite length_append. lia.
Qed.

Lemma run_many_class p w t c k res :
  all_chars p w = true -> stops p t ->
  k (MState t c) = Some res ->
  run (many (Chr p)) (MState (w +:+ t) c) k = Some res.
Proof.
  intros Hw Ht Hk. unfold many. cbn [run rest].
  apply star_class_run; auto. rewrite length_append. lia.
Qed.

(** A group of one or more characters of a class captures the whole run. *)
Lemma run_group_class i p w t c k res :
  negb (is_empty w) && all_chars p w = true -> stops p t ->
  k (MState t (set_cap i w c)) = Some res ->
  run (Group i (plus (Chr p))) (MState (w +:+ t) c) k = Some res.
Proof.
  intros Hw Ht Hk. destruct w as [|a w]; [discriminate|].
  cbn [is_empty negb andb all_chars] in Hw. apply andb_true_iff in Hw as [Ha Hw].
  cbn [run]. apply run_plus_class; auto.
  cbn [rest caps]. now rewrite consumed_app.
Qed.

Lemma run_cat r1 r2 st k :
  run (Cat r1 r2) st k = run r1 st (fun st' => run r2 st' k).
Proof. reflexivity. Qed.

(** The primary pattern matches a written template and captures its three
    fields. *)
Lemma dropsLine_here l s c :
  wellWritten l ->
  run Patterns.dropsLine (MState (templateText l +:+ s) c) Some
  = Some (MState s
            (set_cap 3 (rateText l)
               (set_cap 2 (quantityText l) (set_cap 1 (itemText l) c)))).
Proof.
  intros (_ & Hi & Hq & Hr & Hp & Ho).
  unfold templateText. rewrite !append_assoc.
  unfold Patterns.dropsLine. cbn [seq].
  rewrite run_cat, run_lit.
  rewrite run_cat. apply run_group_class; [exact Hi | reflexivity|].
  rewrite run_cat, run_lit.
  rewrite run_cat. apply run_group_class; [exact Hq | reflexivity|].
  rewrite run_cat, run_lit.
  rewrite run_cat. apply run_group_class; [exact Hr | |].
  { destruct (otherText l) as [|x o]; [reflexivity|].
    cbn [parameters] in Hp. apply Ascii.eqb_eq in Hp. subst x.
    rewrite append_cons. reflexivity. }
  rewrite run_cat. apply run_many_class.
  - revert Ho. apply all_chars_weaken. intros x Hx. cbn [mem].
    now rewrite orb_false_r.
  - reflexivity.
  - cbv beta. now rewrite run_lit.
Qed.

Lemma dropsLine_not_here x s c k :
  Ascii.eqb "{" x = false ->
  run Patterns.dropsLine (MState (String x s) c) k = None.
Proof.
  intros Hx. unfold Patterns.dropsLine. cbn [seq]. rewrite run_cat.
  cbn [lit run rest caps]. now rewrite Hx.
Qed.

(** The leftmost match in a text that begins with a written line is that
    line. *)
Lemma search_line l s :
  wellWritten l ->
  search Patterns.dropsLine (lineText l +:+ s)
  = Some (gapText l, MState s (capsOf l)).
Proof.
  intros Hl. pose proof Hl as (Hgap & _). unfold lineText.
  rewrite append_assoc. induction (gapText l) as [|x gap IH].
  - rewrite append_nil_l.
    assert (E := dropsLine_here l s no_caps Hl).
    destruct (templateText l +:+ s); cbn [search]; now rewrite E.
  - unfold no_char in Hgap. cbn [all_chars] in Hgap.
    apply andb_true_iff in Hgap as [Hx Hgap]. apply negb_true_iff in Hx.
    rewrite append_cons. cbn [search].
    rewrite (dropsLine_not_here x _ no_caps Some)
      by (now rewrite Ascii.eqb_sym).
    now rewrite (IH Hgap).
Qed.

Lemma lineText_length l s :
  (String.length s < String.length (lineText l +:+ s))%nat.
Proof.
  unfold lineText, templateText. rewrite !length_append. simpl. lia.
Qed.

Lemma exec_lines tail ls :
  Forall wellWritten ls -> no_char "|" tail = true ->
  forall fuel, (length ls < fuel)%nat ->
    exec_loop fuel Patterns.dropsLine (sectionText ls tail) = map capsOf ls.
Proof.
  intros Hls Htail. induction Hls as [|l ls Hl _ IH]; intros fuel Hf;
    (destruct fuel as [|f]; [simpl in Hf; lia|]).
  - cbn [exec_loop sectionText fold_right].
    now rewrite (search_needs "|" _ tail dropsLine_needs_bar Htail).
  - cbn [exec_loop sectionText fold_right map].
    fold (sectionText ls tail). rewrite (search_line l _ Hl). cbn [rest caps].
    replace (_ <? _)%nat with true
      by (symmetry; apply Nat.ltb_lt, lineText_length).
    rewrite IH; [reflexivity | simpl in Hf; lia].
Qed.

Lemma sectionText_length tail ls :
  (length ls <= String.length (sectionText ls tail))%nat.
Proof.
  induction ls as [|l ls IH]; simpl; [lia|].
  pose proof (lineText_length l (sectionText ls tail)).
  unfold sectionText in *. lia.
Qed.

Lemma exec_all_lines tail ls :
  Forall wellWritten ls -> no_char "|" tail = true ->
  exec_all Patterns.dropsLine (sectionText ls tail) = map capsOf ls.
Proof.
  intros Hls Htail. unfold exec_all. apply exec_lines; auto.
  pose proof (sectionText_length tail ls). lia.
Qed.

Lemma lineDrops_written tail ls :
  Forall wellWritten ls -> no_char "|" tail = true ->
  map lineDrop (exec_all Patterns.dropsLine (sectionText ls tail))
  = map dropOf ls.
Proof.
  intros Hls Htail. rewrite (exec_all_lines tail ls Hls Htail), map_map.
  apply map_ext. reflexivity.
Qed.

End RoundTrip.

(** X22. Reading back what was written: for a text made of drop lines of
    the primary format, each with a name and a quantity without vertical
    bar, a rarity without vertical bar or closing brace, optional further
    parameters, and no opening brace between the lines, [parseSection]
    returns one drop for each line, in order, with the name and rarity text
    as written and the quantity and rarity normalised; [parseMainDropTable]
    returns those of them whose item is in no other section, when there is
    one. *)
Theorem parseSection_round_trip (ls : list WrittenLine) (tail : string) :
  Forall wellWritten ls -> no_char "|" tail = true ->
  parseSection (sectionText ls tail) [] = map dropOf ls
  /\ forall always uniques tertiary,
       let kept :=
         List.filter
           (fun d => negb (in_other_tables always uniques tertiary (item d)))
           (map dropOf ls) in
       kept <> [] ->
       parseMainDropTable (sectionText ls tail) always uniques [] tertiary
       = kept.
Proof.
  intros Hls Htail. split.
  - destruct ls as [|l ls'] eqn:E.
    + now apply parseSection_no_bar.
    + rewrite <- E in *. unfold parseSection.
      rewrite (lineDrops_written tail ls Hls Htail).
      assert (Hne : is_empty (sectionText ls tail) = false).
      { pose proof (sectionText_length tail ls) as H. rewrite E in *.
        destruct (sectionText (l :: ls') tail); [simpl in H; lia | reflexivity]. }
      rewrite Hne, E. reflexivity.
  - intros always uniques tertiary kept Hkept. unfold parseMainDropTable.
    rewrite (lineDrops_written tail ls Hls Htail). fold kept.
    destruct kept; [congruence | reflexivity].
Qed.

Lemma parseSection_round_trip_witness :
  let ls :=
    [{| gapText := ""; itemText := "Coins"; quantityText := "5-10 (noted)";
        rateText := "1/4"; otherText := "|gemw=No" |};
     {| gapText := " "; itemText := "Bones"; quantityText := "1";
        rateText := "Always"; otherText := "" |}] in
  parseSection (sectionText ls "") [] = map dropOf ls.
Proof.
  intros ls. apply parseSection_round_trip; [|reflexivity].
  repeat constructor.
Defined.

(** ** Reading the mechanics of a table *)

Section Mechanics.
Import Regex.

Lemma same_letter_lower a x :
  same_letter a x = true <-> Js.lower_char x = Js.lower_char a.
Proof. unfold same_letter. apply Ascii.eqb_eq. Qed.

(** A literal under the [i] flag matches its text in any letter case. *)
Lemma run_liti s : forall s' t c k,
  Js.toLowerCase s' = Js.toLowerCase s ->
  run (liti s) (MState (s' +:+ t) c) k = k (MState t c).
Proof.
  induction s as [|a s IH]; intros s' t c k E.
  - destruct s'; [|discriminate]. now rewrite append_nil_l.
  - destruct s' as [|x s']; [discriminate|].
    cbn [Js.toLowerCase] in E. injection E as Ex E.
    apply same_letter_lower in Ex.
    rewrite append_cons. destruct s as [|b s0].
    + destruct s'; [|discriminate].
      cbn [liti run rest caps]. now rewrite Ex, append_nil_l.
    + change (liti (String a (String b s0)))
        with (Cat (Chr (same_letter a)) (liti (String b s0))).
      cbn [run rest caps]. rewrite Ex. now apply IH.
Qed.

(** A lazy [(class)*?] gives up one character at a time until the
    continuation succeeds. *)
Lemma star_lazy_skip p k w : forall t c res fuel,
  all_chars p w = true ->
  (forall w1 x w2, w = w1 +:+ String x w2 ->
                   k (MState (String x w2 +:+ t) c) = None) ->
  k (MState t c) = Some res ->
  (String.length w <= fuel)%nat ->
  star false (run (Chr p)) fuel (MState (w +:+ t) c) k = Some res.
Proof.
  induction w as [|a w IH]; intros t c res fuel Hw Hfail Hk Hf.
  - rewrite append_nil_l. destruct fuel; cbn [star]; now rewrite Hk.
  - destruct fuel as [|f]; [simpl in Hf; lia|].
    cbn [all_chars] in Hw. apply andb_true_iff in Hw as [Ha Hw].
    cbn [star]. rewrite (Hfail EmptyString a w) by now rewrite append_nil_l.
    rewrite append_cons. cbn [run rest caps]. rewrite Ha. cbn [rest String.length].
    replace (_ <? _)%nat with true by (symmetry; apply Nat.ltb_lt; lia).
    apply IH; auto; [|simpl in Hf; lia].
    intros w1 x w2 E. apply (Hfail (String a w1) x w2).
    now rewrite E, append_cons.
Qed.

Lemma search_skip (r : regex) pre : forall s,
  (forall w1 x w2, pre = w1 +:+ String x w2 ->
                   run r (MState (String x w2 +:+ s) no_caps) Some = None) ->
  search r (pre +:+ s)
  = match search r s with
    | Some (pre', st) => Some (pre +:+ pre', st)
    | None => None
    end.
Proof.
  induction pre as [|x pre IH]; intros s Hfail.
  - rewrite append_nil_l. destruct (search r s) as [[pre' st]|]; [|reflexivity].
    now rewrite append_nil_l.
  - rewrite append_cons. cbn [search].
    rewrite <- append_cons.
    rewrite (Hfail EmptyString x pre) by now rewrite append_nil_l.
    rewrite IH.
    + destruct (search r s) as [[pre' st]|]; [|reflexivity].
      now rewrite append_cons.
    + intros w1 y w2 E. apply (Hfail (String x w1) y w2).
      now rewrite E, append_cons.
Qed.

Lemma search_here (r : regex) s st :
  run r (MState s no_caps) Some = Some st ->
  search r s = Some (EmptyString, st).
Proof. intros H. destruct s; cbn [search]; now rewrite H. Qed.

Lemma split_suffix (w : string) : forall w1 x w2 (p : ascii -> bool),
  w = w1 +:+ String x w2 -> all_chars p w = true -> p x = true.
Proof.
  intros w1 x w2 p ->. rewrite all_chars_app. cbn [all_chars].
  intros H. apply andb_true_iff in H as [_ H].
  now apply andb_true_iff in H as [H _].
Qed.

(** The roll count is read from the first number that follows the words
    [main drop table] on the same line and is followed by [time]. *)
Lemma mainTableRolls_read before words gap n after :
  no_letter_m before = true ->
  Js.toLowerCase words = "main drop table" ->
  all_chars on_line gap = true -> no_digit gap = true ->
  exists st,
    search Patterns.mainTableRolls
      (before +:+ words +:+ gap +:+ numeral n +:+ " time" +:+ after)
    = Some (before, st)
    /\ caps st 1%nat = numeral n.
Proof.
  intros Hb Hw Hline Hgap.
  assert (Htail : forall c,
            exists st,
              run (Cat (Group 1 (plus digit)) (Cat (liti " time") (opt (liti "s"))))
                (MState (numeral n +:+ " time" +:+ after) c) Some
              = Some st
              /\ caps st 1%nat = numeral n).
  { intros c.
    assert (Hopt : exists st, run (opt (liti "s"))
                     (MState after (set_cap 1 (numeral n) c)) Some = Some st
                   /\ caps st 1%nat = numeral n).
    { unfold opt. cbn [run].
      destruct (run (liti "s") _ Some) as [st|] eqn:E;
        [|eexists; split; reflexivity].
      exists st. split; [reflexivity|].
      apply run_sound in E as (st' & Hm & [= <-]).
      rewrite (matches_other_caps _ _ _ 1%nat Hm); [reflexivity|].
      vm_compute. tauto. }
    destruct Hopt as (st & Hopt & Hcap). exists st. split; [|exact Hcap].
    rewrite run_cat. apply run_group_class.
    - rewrite numeral_not_empty. apply numeral_digits.
    - reflexivity.
    - rewrite run_cat, run_liti by reflexivity. exact Hopt. }
  destruct (Htail no_caps) as (st & Hrun & Hcap). exists st.
  split; [|exact Hcap].
  rewrite search_skip.
  - rewrite (search_here _ _ st); [now rewrite append_nil_r|].
    unfold Patterns.mainTableRolls. cbn [seq].
    rewrite run_cat, run_liti by exact Hw.
    rewrite run_cat. unfold few, dot, none_of. cbn [run rest].
    apply star_lazy_skip; [exact Hline | | exact Hrun |
                           rewrite length_append; lia].
    intros w1 x w2 E. unfold plus, digit. rewrite run_cat.
    rewrite append_cons. cbn [run rest caps].
    pose proof (split_suffix gap w1 x w2 _ E Hgap) as Hx.
    apply negb_true_iff in Hx. now rewrite Hx.
  - intros w1 x w2 E. unfold Patterns.mainTableRolls. cbn [seq].
    rewrite run_cat. rewrite append_cons.
    change (liti "main drop table")
      with (Cat (Chr (same_letter "m")) (liti "ain drop table")).
    cbn [run rest caps].
    pose proof (split_suffix before w1 x w2 _ E Hb) as Hx.
    apply negb_true_iff in Hx. now rewrite Hx.
Qed.

Lemma same_letter_quote x : same_letter "'" x = true -> x = "'"%char.
Proof.
  destruct x as [[] [] [] [] [] [] [] []]; vm_compute; intros H;
    first [reflexivity | discriminate H].
Qed.

(** The rate is read from the sentence about the unique drop table. *)
Lemma uniqueTable_read before words n d after :
  no_char "'" before = true ->
  Js.toLowerCase words = "''there is a " ->
  exists st,
    search Patterns.uniqueTable
      (before +:+ words +:+ (numeral n +:+ String "/" (numeral d))
       +:+ " chance of hitting the unique drop table" +:+ after)
    = Some (before, st)
    /\ caps st 1%nat = numeral n +:+ String "/" (numeral d).
Proof.
  intros Hb Hw. eexists. split.
  - rewrite search_skip.
    + rewrite (search_here _ _
                 (MState after
                    (set_cap 1 (numeral n +:+ String "/" (numeral d)) no_caps)));
        [now rewrite append_nil_r|].
      unfold Patterns.uniqueTable. cbn [seq].
      rewrite run_cat, run_liti by exact Hw.
      rewrite run_cat. apply run_group_class.
      * destruct (fraction_text_clean n d) as (-> & _). cbn [negb andb].
        rewrite all_chars_app. cbn [all_chars].
        rewrite (all_chars_weaken Js.is_digit _ (numeral n)),
          (all_chars_weaken Js.is_digit _ (numeral d));
          auto using numeral_digits; intros c ->; reflexivity.
      * reflexivity.
      * now rewrite run_liti.
    + intros w1 x w2 E. unfold Patterns.uniqueTable. cbn [seq].
      rewrite run_cat, append_cons.
      change (liti "''There is a ")
        with (Cat (Chr (same_letter "'")) (liti "'There is a ")).
      cbn [run rest caps].
      destruct (same_letter "'" x) eqn:Hx; [|reflexivity].
      apply same_letter_quote in Hx. subst x.
      pose proof (split_suffix before w1 _ w2 _ E Hb) as H. discriminate H.
  - reflexivity.
Qed.

End Mechanics.

(** X23. The mechanics of a table are read back from the sentences of the
    page, for numbers up to [2^53]: the roll count is the first number that
    follows the words [main drop table] on the same line and is followed by
    [time], and the chance of the unique table is the fraction [n/d] of the
    sentence [''There is a n/d chance of hitting the unique drop table],
    also when it exceeds 1.  For a monster whose name contains [cerberus]
    the roll count is 2 whatever the page says, and there always is a
    chance. *)
Theorem mechanics_read_back :
  (forall before words gap (n : positive) after,
      no_letter_m before = true ->
      Js.toLowerCase words = "main drop table" ->
      all_chars on_line gap = true -> no_digit gap = true ->
      exactInteger (Z.pos n) ->
      parseMainTableRolls
        (before +:+ words +:+ gap +:+ numeral n +:+ " time" +:+ after)
      = Z.pos n)
  /\ (forall before words (n d : positive) after,
        no_char "'" before = true ->
        Js.toLowerCase words = "''there is a " ->
        exactInteger (Z.pos n) -> exactInteger (Z.pos d) ->
        parseUniqueTableChance
          (before +:+ words +:+ (numeral n +:+ String "/" (numeral d))
           +:+ " chance of hitting the unique drop table" +:+ after)
        = Some (inject_Z (Z.pos n) / inject_Z (Z.pos d))%Q)
  /\ (forall wikiContent monsterName,
        Js.includes (Js.toLowerCase monsterName) "cerberus" = true ->
        mainTableRolls (parseDropTables wikiContent monsterName) = 2
        /\ exists chance,
             uniqueTableChance (parseDropTables wikiContent monsterName)
             = Some chance).
Proof.
  split; [|split].
  - intros before words gap n after Hb Hw Hline Hgap Hn.
    destruct (mainTableRolls_read before words gap n after Hb Hw Hline Hgap)
      as (st & Hs & Hcap).
    unfold parseMainTableRolls, Regex.match_. rewrite Hs, Hcap.
    now rewrite parseInt_numeral.
  - intros before words n d after Hb Hw Hn Hd.
    destruct (uniqueTable_read before words n d after Hb Hw) as (st & Hs & Hcap).
    unfold parseUniqueTableChance. cbn [firstMatch]. unfold Regex.match_.
    rewrite Hs, Hcap.
    destruct (fraction_text_clean n d) as (-> & _ & -> & ->).
    cbn [negb andb map]. now rewrite !parseInt_numeral by assumption.
  - intros wikiContent monsterName Hc. unfold parseDropTables. rewrite Hc.
    unfold getFallbackDropData. rewrite Hc.
    destruct (all_empty _); [split; [reflexivity | now eexists]|].
    cbn [mainTableRolls uniqueTableChance]. split; [reflexivity|].
    destruct (parseUniqueTableChance wikiContent) as [c|]; [|now eexists].
    destruct (Qeq_bool c 0); now eexists.
Qed.

Lemma mechanics_read_back_witness :
  parseMainTableRolls
    ("Cerberus rolls the " +:+ "Main drop table" +:+ " " +:+ numeral 3
     +:+ " time" +:+ "s per kill.") = 3
  /\ parseUniqueTableChance
       ("" +:+ "''There is a " +:+ (numeral 5 +:+ String "/" (numeral 2))
        +:+ " chance of hitting the unique drop table" +:+ "''")
     = Some (inject_Z 5 / inject_Z 2)%Q.
Proof.
  destruct mechanics_read_back as (A & B & _). split.
  - apply A; try reflexivity. unfold exactInteger. simpl. lia.
  - apply B; try reflexivity; unfold exactInteger; simpl; lia.
Defined.
